(** * gnark: emulated field engine and BN254 pairing front-end

    A shallow embedding of
    - [std/math/emulated]: [Field.ToBits], [Field.ToBitsCanonical],
      [Field.FromBits], [Field.AssertIsEqual], [Field.AssertIsLessOrEqual],
      [Field.IsZero];
    - [std/algebra/emulated/sw_bn254]: [Pairing.finalExponentiation] and its
      two public wrappers, [Pairing.computeTwistEquation],
      [Pairing.AssertIsOnTwist], [loopCounter], [Pairing.MillerLoop] and
      [Pairing.millerLoopLines].

    Circuit construction is modelled as state passing over the list of
    constraints emitted so far; a build-time [panic] is an explicit outcome.
    A circuit variable carries the value the solver assigns to it, so a
    constraint can be decided once it is emitted. *)

From Stdlib Require Import ZArith List Lia Bool String.
From stdpp Require Import base gmap.
Import ListNotations.
Local Open Scope Z_scope.

(* ------------------------------------------------------------------------- *)
(** ** Build outcomes and the builder monad *)

Inductive Res (A : Type) : Type :=
| Panic (msg : string)
| Done (a : A).
Arguments Panic {A} msg.
Arguments Done {A} a.

(** A constraint over solved values of the native field. *)
Inductive Constraint : Type :=
| CEq (a b : Z)            (* api.AssertIsEqual *)
| CBool (a : Z)            (* api.AssertIsBoolean, and the boolean inputs of Select/Or/And *)
| CWidth (a : Z) (n : nat) (* rangecheck: a fits in n bits *)
| CZeroMod (v m : Z)       (* the emulated checkZero: v is a multiple of m *)
| CCollab (ok : bool).     (* what a collaborator emits for one call, as a whole *)

(** The constraints emitted so far, most recent first. *)
Definition Builder : Type := list Constraint.

Definition M (A : Type) : Type := Builder -> Res (A * Builder).

Definition ret {A} (a : A) : M A := fun s => Done (a, s).

Definition bind {A B} (m : M A) (k : A -> M B) : M B :=
  fun s => match m s with
           | Panic msg => Panic msg
           | Done (a, s') => k a s'
           end.

Definition panic {A} (msg : string) : M A := fun _ => Panic msg.

Definition emit (c : Constraint) : M unit := fun s => Done (tt, c :: s).

Notation "x <- m ;; k" := (bind m (fun x => k))
  (at level 100, m at next level, right associativity).
Notation "m ;;; k" := (bind m (fun _ => k))
  (at level 100, right associativity).

(** Go's [for _, x := range xs] with an accumulator threaded by the body. *)
Fixpoint foldM {A B} (body : B -> A -> M B) (xs : list A) (acc : B) : M B :=
  match xs with
  | [] => ret acc
  | x :: xs' => acc' <- body acc x ;; foldM body xs' acc'
  end.

(** Go's [for i := range res { res[i] = g(i) }]. *)
Fixpoint mapM {A B} (g : A -> M B) (xs : list A) : M (list B) :=
  match xs with
  | [] => ret []
  | x :: xs' => y <- g x ;; ys <- mapM g xs' ;; ret (y :: ys)
  end.

(** [holds q c]: constraint [c] is satisfied over the native field of
    characteristic [q]. *)
Definition holds (q : Z) (c : Constraint) : bool :=
  match c with
  | CEq a b => (a mod q) =? (b mod q)
  | CBool a => (a =? 0) || (a =? 1)
  | CWidth a n => (0 <=? a) && (a <? 2 ^ Z.of_nat n)
  | CZeroMod v m => (v mod m) =? 0
  | CCollab ok => ok
  end.

Definition sat (q : Z) (s : Builder) : bool := forallb (holds q) s.

(* ------------------------------------------------------------------------- *)
(** ** frontend.API (frontend/api.go), read as the test engine evaluates it *)

Module frontend.

(** [frontend.Variable]: a compile-time constant or a wire with its solved
    value. *)
Inductive Var : Type :=
| Const (v : Z)
| Wire (v : Z).

Definition val (x : Var) : Z :=
  match x with Const v => v | Wire v => v end.

(** ConstantValue: the value and [true] for a constant. *)
Definition ConstantValue (x : Var) : option Z :=
  match x with Const v => Some v | Wire _ => None end.

(** ConstantValue's boolean alone. *)
Definition isConstant (x : Var) : bool :=
  match x with Const _ => true | Wire _ => false end.

Definition lift1 (g : Z -> Z) (x : Var) : Var :=
  match x with Const a => Const (g a) | Wire a => Wire (g a) end.

Definition lift2 (g : Z -> Z -> Z) (x y : Var) : Var :=
  match x, y with
  | Const a, Const b => Const (g a b)
  | _, _ => Wire (g (val x) (val y))
  end.

Section API.
Variable q : Z.

(** Add returns res = i1+i2 *)
Definition Add (i1 i2 : Var) : Var :=
  lift2 (fun a b => (a + b) mod q) i1 i2.

(** Sub returns res = i1 - i2 - ...in *)
Definition Sub (i1 i2 : Var) (rest : list Var) : Var :=
  fold_left (lift2 (fun a b => (a - b) mod q)) rest
            (lift2 (fun a b => (a - b) mod q) i1 i2).

(** Mul returns res = i1 * i2 *)
Definition Mul (i1 i2 : Var) : Var :=
  lift2 (fun a b => (a * b) mod q) i1 i2.

(** Select if b is true, yields i1 else yields i2; b is constrained to be
    boolean. *)
Definition Select (b i1 i2 : Var) : M Var :=
  emit (CBool (val b)) ;;;
  ret (if val b =? 1 then i1 else i2).

(** IsZero returns 1 if a is zero, 0 otherwise *)
Definition IsZero (i1 : Var) : Var :=
  lift1 (fun a => if a mod q =? 0 then 1 else 0) i1.

(** Or returns a | b; a and b are constrained to be boolean. *)
Definition Or (a b : Var) : M Var :=
  emit (CBool (val a)) ;;; emit (CBool (val b)) ;;;
  ret (lift2 Z.lor a b).

(** And returns a & b; a and b are constrained to be boolean. *)
Definition And (a b : Var) : M Var :=
  emit (CBool (val a)) ;;; emit (CBool (val b)) ;;;
  ret (lift2 Z.land a b).

(** AssertIsEqual fails if i1 != i2 *)
Definition AssertIsEqual (i1 i2 : Var) : M unit :=
  emit (CEq (val i1) (val i2)).
End API.

End frontend.

(* ------------------------------------------------------------------------- *)
(** ** Go slices and math/big helpers *)

(** [xs[lo:hi]]; out-of-range bounds panic.  (Go checks against the
    capacity; every slice taken below has capacity equal to its length.) *)
Definition slice {A} (xs : list A) (lo hi : nat) : M (list A) :=
  if ((lo <=? hi)%nat && (hi <=? length xs)%nat)%bool
  then ret (firstn (hi - lo) (skipn lo xs))
  else panic "slice bounds out of range".

(** [xs[i]]; an index past the end panics. *)
Definition index {A} (xs : list A) (i : nat) : M A :=
  match nth_error xs i with
  | Some x => ret x
  | None => panic "index out of range"
  end.

(** [big.Int.BitLen]: length of the absolute value in bits; 0 for 0. *)
Definition BitLen (z : Z) : nat :=
  match z with
  | Z0 => 0
  | Zpos p | Zneg p => Pos.size_nat p
  end.

Fixpoint trailing_zeros (p : positive) : nat :=
  match p with
  | xO p' => S (trailing_zeros p')
  | _ => 0
  end.

(** [big.Int.TrailingZeroBits]: number of consecutive least significant zero
    bits of |z|. *)
Definition TrailingZeroBits (z : Z) : nat :=
  match z with
  | Z0 => 0
  | Zpos p | Zneg p => trailing_zeros p
  end.

(** [big.Int.Bit(i)] of a non-negative value. *)
Definition Bit (z : Z) (i : nat) : Z := Z.b2z (Z.testbit z (Z.of_nat i)).

(** Little-endian bits to the integer they spell. *)
Fixpoint bits_value (bs : list Z) : Z :=
  match bs with
  | [] => 0
  | b :: bs' => b + 2 * bits_value bs'
  end.

(** Little-endian limbs of [w] bits each to the integer they spell
    (limbs.Recompose). *)
Fixpoint recompose (w : nat) (ls : list Z) : Z :=
  match ls with
  | [] => 0
  | l :: ls' => l + 2 ^ Z.of_nat w * recompose w ls'
  end.

(** The [n] little-endian limbs of [w] bits of [x] (limbs.Decompose). *)
Fixpoint decompose (w : nat) (n : nat) (x : Z) : list Z :=
  match n with
  | O => []
  | S n' => x mod 2 ^ Z.of_nat w :: decompose w n' (x / 2 ^ Z.of_nat w)
  end.

(* ------------------------------------------------------------------------- *)
(** ** std/math/bits, as frontend.API documents ToBinary and FromBinary *)

Module bits.

(** Modelled from the spec: bits.ToBinary is not among the sources.  The API
    says: "ToBinary unpacks a Variable in binary, n is the number of bits to
    select (starting from lsb) ... The result in little endian (first bit=
    lsb)".  The solver's digits are the low [n] bits of the value; the one
    constraint says they recompose to the value. *)
Definition ToBinary (v : frontend.Var) (n : nat) : M (list frontend.Var) :=
  let bs := map (fun i => frontend.lift1 (fun a => Bit a i) v) (seq 0 n) in
  emit (CEq (bits_value (map frontend.val bs)) (frontend.val v)) ;;;
  ret bs.

(** Modelled from the spec: what bits.FromBinary returns (it is not among
    the sources).  The packed value is a sum of the bits times powers of
    two: as for Add and Mul, a constant when every bit is a constant and a
    wire otherwise. *)
Definition packed (q : Z) (bs : list frontend.Var) : frontend.Var :=
  let v := bits_value (map frontend.val bs) mod q in
  if forallb frontend.isConstant bs then frontend.Const v else frontend.Wire v.

(** Modelled from the spec: bits.FromBinary is not among the sources.  The
    API says: "FromBinary packs b, seen as a fr.Element in little endian.
    This function constrain the bits b... to be boolean (0 or 1)". *)
Definition FromBinary (q : Z) (bs : list frontend.Var) : M frontend.Var :=
  foldM (fun (_ : unit) b => emit (CBool (frontend.val b))) bs tt ;;;
  ret (packed q bs).

End bits.

(* ------------------------------------------------------------------------- *)
(** ** std/math/emulated *)

Module emulated.

(** FieldParams: the emulated modulus and its limb layout. *)
Record FieldParams : Type := {
  Modulus : Z;
  NbLimbs : nat;
  BitsPerLimb : nat
}.

(** Element[T]. *)
Record Element : Type := {
  Limbs : list frontend.Var;
  overflow : nat;
  internal : bool;
  modReduced : bool
}.

(** Field[T].  [q] is the characteristic of the native field behind [api].
    The methods of Field that the sources call and do not define are fields
    of the record: every statement below holds for whatever they do, up to
    the hypotheses it lists. *)
Record Field : Type := {
  q : Z;
  fParams : FieldParams;
  maxOverflow : nat;
  enforceWidthConditional : Element -> M unit;
  Reduce : Element -> M Element;
  ReduceStrict : Element -> M Element;
  Sub : Element -> Element -> M Element
}.

Definition newInternalElement (limbs : list frontend.Var) (ovf : nat) : Element :=
  {| Limbs := limbs; overflow := ovf; internal := true; modReduced := false |}.

(** The integer an element stands for. *)
Definition value (f : Field) (a : Element) : Z :=
  recompose (BitsPerLimb (fParams f)) (map frontend.val (Limbs a)).

Fixpoint constLimbs (ls : list frontend.Var) : option (list Z) :=
  match ls with
  | [] => Some []
  | l :: ls' =>
      match frontend.ConstantValue l, constLimbs ls' with
      | Some c, Some cs => Some (c :: cs)
      | _, _ => None
      end
  end.

(** Modelled from the spec: Field.constantValue is not among the sources.
    "An element may alternatively be a constant (a plain arbitrary-precision
    value known at circuit-build time)": every limb is a constant, and the
    value is their recomposition. *)
Definition constantValue (f : Field) (a : Element) : option Z :=
  option_map (recompose (BitsPerLimb (fParams f))) (constLimbs (Limbs a)).

(** Modelled from the spec: Element.isStrictZero is not among the sources.
    IsZero's comment: "when the element is on zero limbs, then it is always
    zero". *)
Definition isStrictZero (a : Element) : bool :=
  match Limbs a with [] => true | _ => false end.

(** Modelled from the spec: Field.Modulus is not among the sources: the
    modulus as a constant element on NbLimbs limbs. *)
Definition ModulusElement (f : Field) : Element :=
  {| Limbs := map frontend.Const
                (decompose (BitsPerLimb (fParams f)) (NbLimbs (fParams f))
                           (Modulus (fParams f)));
     overflow := 0; internal := true; modReduced := false |}.

(** Modelled from the spec: Field.checkZero is not among the sources.
    "assertIsEqual(a, b): constrains a - b = 0" modulo the modulus: the one
    constraint says that the value of the difference is a multiple of the
    modulus. *)
Definition checkZero (f : Field) (diff : Element) : M unit :=
  emit (CZeroMod (value f diff) (Modulus (fParams f))).

(** The body of the loop of Field.ToBits at one limb; the state is
    [(carry, fullBits, limbBits)]. *)
Definition toBitsStep (f : Field) (a : Element)
           (st : frontend.Var * list frontend.Var * list frontend.Var)
           (limb : frontend.Var)
  : M (frontend.Var * list frontend.Var * list frontend.Var) :=
  let bpl := BitsPerLimb (fParams f) in
  let '(carry, fullBits, _) := st in
  limbBits <- bits.ToBinary (frontend.Add (q f) limb carry) (bpl + overflow a) ;;
  low <- slice limbBits 0 bpl ;;
  let fullBits := fullBits ++ low in
  if (0 <? overflow a)%nat then
    high <- slice limbBits bpl (length limbBits) ;;
    carry' <- bits.FromBinary (q f) high ;;
    ret (carry', fullBits, limbBits)
  else ret (carry, fullBits, limbBits).

(** Field.ToBits *)
Definition ToBits (f : Field) (a : Element) : M (list frontend.Var) :=
  let bpl := BitsPerLimb (fParams f) in
  enforceWidthConditional f a ;;;
  match constantValue f a with
  | Some ba =>
      ret (map (fun i => frontend.Const (Bit ba i))
               (seq 0 (bpl * NbLimbs (fParams f))))
  | None =>
      st <- foldM (toBitsStep f a) (Limbs a) (frontend.Const 0, [], []) ;;
      let '(_, fullBits, limbBits) := st in
      top <- slice limbBits bpl (bpl + overflow a) ;;
      ret (fullBits ++ top)
  end.

(** Field.ToBitsCanonical *)
Definition ToBitsCanonical (f : Field) (a : Element) : M (list frontend.Var) :=
  let nbBits := BitLen (Modulus (fParams f)) in
  let nbBits :=
    if (negb (nbBits =? 0)%nat
        && (TrailingZeroBits (Modulus (fParams f)) =? nbBits - 1)%nat)%bool
    then (nbBits - 1)%nat else nbBits in
  ca <- ReduceStrict f a ;;
  bts <- ToBits f ca ;;
  slice bts 0 nbBits.

(** Field.FromBits.  [nbLimbs] is a uint: with no bits at all [nbLimbs-1]
    wraps around and the first store [limbs[0] = ...] is out of range. *)
Definition FromBits (f : Field) (bs : list frontend.Var) : M Element :=
  let bpl := BitsPerLimb (fParams f) in
  if (bpl =? 0)%nat then panic "integer divide by zero" else
  let nbLimbs := ((length bs + bpl - 1) / bpl)%nat in
  if (nbLimbs =? 0)%nat then panic "index out of range" else
  limbs <- mapM (fun i => chunk <- slice bs (i * bpl) ((i + 1) * bpl) ;;
                          bits.FromBinary (q f) chunk)
                (seq 0 (nbLimbs - 1)) ;;
  chunk <- slice bs ((nbLimbs - 1) * bpl) (length bs) ;;
  last <- bits.FromBinary (q f) chunk ;;
  ret (newInternalElement (limbs ++ [last]) 0).

(** Field.AssertIsEqual *)
Definition AssertIsEqual (f : Field) (a b : Element) : M unit :=
  enforceWidthConditional f a ;;;
  enforceWidthConditional f b ;;;
  match constantValue f a, constantValue f b with
  | Some ba, Some bb =>
      let ba := ba mod Modulus (fParams f) in
      let bb := bb mod Modulus (fParams f) in
      if ba =? bb then ret tt else panic "ba != bb"
  | _, _ =>
      diff <- Sub f b a ;;
      checkZero f diff
  end.

(** The closure [ff] of AssertIsLessOrEqual: pad [ybits] with zeros up to
    the length of [xbits]; a negative [diff] makes [make] panic. *)
Definition ff (xbits ybits : list frontend.Var) : M (list frontend.Var) :=
  if (length ybits <=? length xbits)%nat
  then ret (ybits ++ repeat (frontend.Const 0) (length xbits - length ybits))
  else panic "makeslice: len out of range".

(** The loop of AssertIsLessOrEqual, from [i = n-1] down to [0]; [p] is
    [p[i+1]]. *)
Fixpoint leqLoop (f : Field) (eBits aBits : list frontend.Var) (n : nat)
         (p : frontend.Var) : M unit :=
  match n with
  | O => ret tt
  | S i =>
      ei <- index eBits i ;;
      ai <- index aBits i ;;
      let v := frontend.Mul (q f) p ei in
      pi <- frontend.Select ai v p ;;
      t <- frontend.Select ai (frontend.Const 0) p ;;
      let l := frontend.Sub (q f) (frontend.Const 1) t [ei] in
      let ll := frontend.Mul (q f) l ei in
      frontend.AssertIsEqual ll (frontend.Const 0) ;;;
      leqLoop f eBits aBits i pi
  end.

(** Field.AssertIsLessOrEqual *)
Definition AssertIsLessOrEqual (f : Field) (e a : Element) : M unit :=
  if (0 <? overflow e + overflow a)%nat
  then panic "inputs must have 0 overflow" else
  eBits <- ToBits f e ;;
  aBits <- ToBits f a ;;
  ea <- (if (length aBits <? length eBits)%nat
         then aBits' <- ff eBits aBits ;; ret (eBits, aBits')
         else eBits' <- ff aBits eBits ;; ret (eBits', aBits)) ;;
  let '(eBits, aBits) := ea in
  leqLoop f eBits aBits (length eBits) (frontend.Const 1).

(** Field.IsZero, the block that computes [res0]: is every limb of the
    reduced element zero? *)
Definition limbsAreZero (f : Field) (ca : Element) : M frontend.Var :=
  let totalOverflow := Z.of_nat (length (Limbs ca)) - 1 in
  if Z.of_nat (maxOverflow f) <? totalOverflow then
    (* the sums of limbs would overflow the native field *)
    l0 <- index (Limbs ca) 0 ;;
    foldM (fun res0 i =>
             li <- index (Limbs ca) i ;;
             ret (frontend.Mul (q f) res0 (frontend.IsZero (q f) li)))
          (seq 1 (length (Limbs ca) - 1))
          (frontend.IsZero (q f) l0)
  else
    (* default case, limbs sum does not overflow the native field *)
    l0 <- index (Limbs ca) 0 ;;
    limbSum <- foldM (fun limbSum i =>
                        li <- index (Limbs ca) i ;;
                        ret (frontend.Add (q f) limbSum li))
                     (seq 1 (length (Limbs ca) - 1)) l0 ;;
    ret (frontend.IsZero (q f) limbSum).

(** Field.IsZero, the block that computes [resP]: is every limb of the
    reduced element the limb of the modulus? *)
Definition limbsAreModulus (f : Field) (ca : Element) : M frontend.Var :=
  let p := ModulusElement f in
  p0 <- index (Limbs p) 0 ;;
  c0 <- index (Limbs ca) 0 ;;
  foldM (fun resP i =>
           pi <- index (Limbs p) i ;;
           ci <- index (Limbs ca) i ;;
           ret (frontend.Mul (q f) resP
                  (frontend.IsZero (q f) (frontend.Sub (q f) pi ci []))))
        (seq 1 (length (Limbs ca) - 1))
        (frontend.IsZero (q f) (frontend.Sub (q f) p0 c0 [])).

(** Field.IsZero *)
Definition IsZero (f : Field) (a : Element) : M frontend.Var :=
  if isStrictZero a then ret (frontend.Const 1) else
  ca <- Reduce f a ;;
  res0 <- limbsAreZero f ca ;;
  resP <- limbsAreModulus f ca ;;
  frontend.Or res0 resP.

(** *** The solver's own collaborators

    What the methods that are fields of [Field] do when the prover is the
    honest solver: widths of the limbs of a witness that no operation of the
    engine returned are range-checked, reduction
    returns the canonical representative on NbLimbs limbs, subtraction the
    canonical difference. *)

Definition canonical (fp : FieldParams) (x : Z) : Element :=
  {| Limbs := map frontend.Wire
                (decompose (BitsPerLimb fp) (NbLimbs fp) (x mod Modulus fp));
     overflow := 0; internal := true; modReduced := false |}.

Definition solverEnforceWidth (fp : FieldParams) (a : Element) : M unit :=
  if internal a then ret tt else
  match constLimbs (Limbs a) with
  | Some _ => ret tt
  | None =>
      foldM (fun (_ : unit) l => emit (CWidth (frontend.val l) (BitsPerLimb fp)))
            (Limbs a) tt
  end.

Definition solverReduce (fp : FieldParams) (a : Element) : M Element :=
  ret (canonical fp (recompose (BitsPerLimb fp) (map frontend.val (Limbs a)))).

Definition solverSub (fp : FieldParams) (a b : Element) : M Element :=
  ret (canonical fp (recompose (BitsPerLimb fp) (map frontend.val (Limbs a))
                     - recompose (BitsPerLimb fp) (map frontend.val (Limbs b)))).

Definition solverField (q : Z) (fp : FieldParams) (maxOf : nat) : Field :=
  {| q := q; fParams := fp; maxOverflow := maxOf;
     enforceWidthConditional := solverEnforceWidth fp;
     Reduce := solverReduce fp;
     ReduceStrict := solverReduce fp;
     Sub := solverSub fp |}.

(** emulated.ValueOf: a witness element on NbLimbs limbs. *)
Definition ValueOf (fp : FieldParams) (x : Z) : Element :=
  {| Limbs := map frontend.Wire (decompose (BitsPerLimb fp) (NbLimbs fp) x);
     overflow := 0; internal := false; modReduced := false |}.

(** A constant element on the given limbs. *)
Definition constElement (ls : list Z) : Element :=
  {| Limbs := map frontend.Const ls;
     overflow := 0; internal := true; modReduced := true |}.

End emulated.

(* ------------------------------------------------------------------------- *)
(** ** Collaborators of the pairing that only emit constraints

    A method of the tower or of the curve field that the sources call and do
    not define is a function from its arguments to its result and to whether
    the constraints it emits for them can be satisfied: it cannot panic, and
    what it returns does not depend on what was emitted before. *)

Definition W (A : Type) : Type := (A * bool)%type.

Definition call {A} (w : W A) : M A :=
  emit (CCollab (snd w)) ;;; ret (fst w).

(** [c] is a collaborator's, or it is satisfied. *)
Definition own_holds (q : Z) (c : Constraint) : bool :=
  match c with CCollab _ => true | _ => holds q c end.

(** The constraints of [s] that the modelled code emits itself (all but the
    collaborators') are satisfied. *)
Definition own_sat (q : Z) (s : Builder) : bool := forallb (own_holds q) s.

(** The constraints of the collaborators in [s] are satisfied. *)
Definition collab_sat (s : Builder) : bool :=
  forallb (fun c => match c with CCollab ok => ok | _ => true end) s.

(** A Go [(result, error)] pair. *)
Inductive WithError (A : Type) : Type :=
| OkNil (a : A)
| Error (msg : string).
Arguments OkNil {A} a.
Arguments Error {A} msg.

(* ------------------------------------------------------------------------- *)
(** ** std/algebra/emulated/fields_bn254: the tower over the BN254 base field *)

Module fields_bn254.

(** The BN254 base field modulus (emparams.BN254Fp). *)
Definition p : Z :=
  21888242871839275222246405745257275088696311157297823662689037894645226208583.

(** An emulated.Element[BaseField], by the integer it stands for. *)
Definition baseEl : Type := Z.

Record E2 : Type := { A0 : baseEl; A1 : baseEl }.
Record E6 : Type := { B0 : E2; B1 : E2; B2 : E2 }.
Record E12 : Type := { C0 : E6; C1 : E6 }.

(** curveF.One, curveF.Zero *)
Definition fpOne : baseEl := 1.
Definition fpZero : baseEl := 0.

(** Modelled from the spec: emulated IsZero on a base-field element ("isZero
    (a) is true iff a's represented value is congruent to 0 modulo the
    modulus"). *)
Definition fpIsZero (x : baseEl) : frontend.Var :=
  frontend.Wire (if x mod p =? 0 then 1 else 0).

(** Modelled from the spec: curveF.Select, a limb-wise api.Select. *)
Definition fpSelect (b : frontend.Var) (x y : baseEl) : M baseEl :=
  emit (CBool (frontend.val b)) ;;;
  ret (if frontend.val b =? 1 then x else y).

(** Modelled from the spec: curveF.AssertIsEqual on witness elements,
    "constrains a - b = 0" modulo the modulus. *)
Definition fpAssertIsEqual (x y : baseEl) : M unit :=
  emit (CZeroMod (y - x) p).

(** Modelled from the spec: the quadratic extension Fp[u]/(u^2+1)
    ("two elements for a quadratic extension"); fields_bn254.Ext2 is not
    among the sources. *)
Definition Ext2_Zero : E2 := {| A0 := fpZero; A1 := fpZero |}.
Definition Ext2_One : E2 := {| A0 := fpOne; A1 := fpZero |}.

Definition Ext2_Add (x y : E2) : E2 :=
  {| A0 := (A0 x + A0 y) mod p; A1 := (A1 x + A1 y) mod p |}.

Definition Ext2_Mul (x y : E2) : E2 :=
  {| A0 := (A0 x * A0 y - A1 x * A1 y) mod p;
     A1 := (A0 x * A1 y + A1 x * A0 y) mod p |}.

Definition Ext2_Square (x : E2) : E2 :=
  {| A0 := ((A0 x + A1 x) * (A0 x - A1 x)) mod p;
     A1 := (2 * (A0 x * A1 x)) mod p |}.

Definition Ext2_IsZero (x : E2) : M frontend.Var :=
  frontend.And (fpIsZero (A0 x)) (fpIsZero (A1 x)).

Definition Ext2_Select (b : frontend.Var) (x y : E2) : M E2 :=
  a0 <- fpSelect b (A0 x) (A0 y) ;;
  a1 <- fpSelect b (A1 x) (A1 y) ;;
  ret {| A0 := a0; A1 := a1 |}.

Definition Ext2_AssertIsEqual (x y : E2) : M unit :=
  fpAssertIsEqual (A0 x) (A0 y) ;;;
  fpAssertIsEqual (A1 x) (A1 y).

(** Modelled from the spec: constants, zero test and selection on the sextic
    and degree-12 layers, component by component. *)
Definition Ext6_Zero : E6 := {| B0 := Ext2_Zero; B1 := Ext2_Zero; B2 := Ext2_Zero |}.
Definition Ext6_One : E6 := {| B0 := Ext2_One; B1 := Ext2_Zero; B2 := Ext2_Zero |}.
Definition Ext12_One : E12 := {| C0 := Ext6_One; C1 := Ext6_Zero |}.

Definition Ext6_IsZero (x : E6) : M frontend.Var :=
  a <- Ext2_IsZero (B0 x) ;;
  b <- Ext2_IsZero (B1 x) ;;
  c <- Ext2_IsZero (B2 x) ;;
  ab <- frontend.And a b ;;
  frontend.And ab c.

Definition Ext6_Select (b : frontend.Var) (x y : E6) : M E6 :=
  b0 <- Ext2_Select b (B0 x) (B0 y) ;;
  b1 <- Ext2_Select b (B1 x) (B1 y) ;;
  b2 <- Ext2_Select b (B2 x) (B2 y) ;;
  ret {| B0 := b0; B1 := b1; B2 := b2 |}.

Definition Ext12_Select (b : frontend.Var) (x y : E12) : M E12 :=
  c0 <- Ext6_Select b (C0 x) (C0 y) ;;
  c1 <- Ext6_Select b (C1 x) (C1 y) ;;
  ret {| C0 := c0; C1 := c1 |}.

End fields_bn254.

(* ------------------------------------------------------------------------- *)
(** ** std/algebra/emulated/sw_bn254 *)

Module sw_bn254.
Import fields_bn254.

(** sw_emulated.AffinePoint[BaseField] *)
Record G1Affine : Type := { G1X : baseEl; G1Y : baseEl }.

Record g2AffP : Type := { X : E2; Y : E2 }.

Record lineEvaluation : Type := { R0 : E2; R1 : E2 }.

(** [[2][66]lineEvaluation]: a fixed-size array, total on its indices. *)
Definition lineEvaluations : Type := nat -> nat -> lineEvaluation.

(** G2Affine; [Lines] is a pointer that may be nil. *)
Record G2Affine : Type := { P : g2AffP; Lines : option lineEvaluations }.

Abbreviation GTEl := fields_bn254.E12 (only parsing).

(** [[5]*fields_bn254.E2] *)
Definition E2x5 : Type := (E2 * E2 * E2 * E2 * E2)%type.

(** Pairing.  [q] is the characteristic of the native field behind [api];
    the methods of the embedded tower, of curveF and of the pairing itself
    that are not among the sources are fields of the record. *)
Record Pairing : Type := {
  q : Z;
  bTwist : E2;
  (* curveF *)
  curveF_Inverse : baseEl -> W baseEl;
  curveF_Mul : baseEl -> baseEl -> W baseEl;
  curveF_Neg : baseEl -> W baseEl;
  (* Ext6 *)
  Ext6_DivUnchecked : E6 -> E6 -> W E6;
  Ext6_Neg : E6 -> W E6;
  Ext6_Add : E6 -> E6 -> W E6;
  (* Ext12, torus-compressed arithmetic *)
  FrobeniusTorus : E6 -> W E6;
  FrobeniusSquareTorus : E6 -> W E6;
  FrobeniusCubeTorus : E6 -> W E6;
  MulTorus : E6 -> E6 -> W E6;
  ExptTorus : E6 -> W E6;
  InverseTorus : E6 -> W E6;
  SquareTorus : E6 -> W E6;
  DecompressTorus : E6 -> W E12;
  (* Ext12, sparse multiplications of the Miller loop *)
  Square : E12 -> W E12;
  MulByElement : E2 -> baseEl -> W E2;
  Mul034By034 : E2 -> E2 -> E2 -> E2 -> W E2x5;
  Mul01234By034 : E2x5 -> E2 -> E2 -> W E12;
  MulBy034 : E12 -> E2 -> E2 -> W E12;
  MulBy01234 : E12 -> E2x5 -> W E12;
  (* lines precomputation *)
  computeLines : g2AffP -> W lineEvaluations
}.

(** The twist constant of NewPairing. *)
Definition bTwistConst : E2 :=
  {| A0 := 19485874751759354771024239261021720505790618469301721065564631296452457478373;
     A1 := 266929791119991161246907387137283842545076965332900288569378510910307636690 |}.

(** The caller's GT elements, by address. *)
Abbreviation loc := nat (only parsing).
Abbreviation heap := (gmap nat fields_bn254.E12) (only parsing).

Definition deref (h : heap) (e : loc) : M GTEl :=
  match h !! e with
  | Some v => ret v
  | None => panic "nil pointer dereference"
  end.

(** [e.C1.B0.A0 = a] *)
Definition set_C1_B0_A0 (e : GTEl) (a : baseEl) : GTEl :=
  {| C0 := C0 e;
     C1 := {| B0 := {| A0 := a; A1 := A1 (B0 (C1 e)) |};
              B1 := B1 (C1 e); B2 := B2 (C1 e) |} |}.

(** Pairing.finalExponentiation, the straight-line part shared by both
    variants: the easy part absorbed in the torus compression and the hard
    part in compressed form, up to the last [FrobeniusCubeTorus].  Returns
    [(t0, t2)]. *)
Definition torusChain (pr : Pairing) (ev : GTEl) : M (E6 * E6) :=
  c <- call (Ext6_DivUnchecked pr (C0 ev) (C1 ev)) ;;
  c <- call (Ext6_Neg pr c) ;;
  t0 <- call (FrobeniusSquareTorus pr c) ;;
  c <- call (MulTorus pr t0 c) ;;
  t0 <- call (ExptTorus pr c) ;;
  t0 <- call (InverseTorus pr t0) ;;
  t0 <- call (SquareTorus pr t0) ;;
  t1 <- call (SquareTorus pr t0) ;;
  t1 <- call (MulTorus pr t0 t1) ;;
  t2 <- call (ExptTorus pr t1) ;;
  t2 <- call (InverseTorus pr t2) ;;
  t3 <- call (InverseTorus pr t1) ;;
  t1 <- call (MulTorus pr t2 t3) ;;
  t3 <- call (SquareTorus pr t2) ;;
  t4 <- call (ExptTorus pr t3) ;;
  t4 <- call (MulTorus pr t1 t4) ;;
  t3 <- call (MulTorus pr t0 t4) ;;
  t0 <- call (MulTorus pr t2 t4) ;;
  t0 <- call (MulTorus pr c t0) ;;
  t2 <- call (FrobeniusTorus pr t3) ;;
  t0 <- call (MulTorus pr t2 t0) ;;
  t2 <- call (FrobeniusSquareTorus pr t4) ;;
  t0 <- call (MulTorus pr t2 t0) ;;
  t2 <- call (InverseTorus pr c) ;;
  t2 <- call (MulTorus pr t2 t3) ;;
  t2 <- call (FrobeniusCubeTorus pr t2) ;;
  ret (t0, t2).

(** Pairing.finalExponentiation.  [selector1] is only assigned, and only
    read, when [unsafe] is false.  The result is a fresh GT element. *)
Definition finalExponentiation (pr : Pairing) (e : loc) (unsafe : bool)
           (h : heap) : M (loc * heap) :=
  let _dummy := Ext6_One in
  sh <- (if unsafe then ret (frontend.Const 0, h)
         else
           ev <- deref h e ;;
           selector1 <- Ext6_IsZero (C1 ev) ;;
           a0 <- fpSelect selector1 fpOne (A0 (B0 (C1 ev))) ;;
           ret (selector1, <[e := set_C1_B0_A0 ev a0]> h)) ;;
  let '(selector1, h) := sh in
  ev <- deref h e ;;
  tt' <- torusChain pr ev ;;
  let '(t0, t2) := tt' in
  result <- (if unsafe then
               m <- call (MulTorus pr t2 t0) ;;
               call (DecompressTorus pr m)
             else
               _sum <- call (Ext6_Add pr t0 t2) ;;
               selector2 <- Ext6_IsZero _sum ;;
               t0 <- Ext6_Select selector2 _dummy t0 ;;
               let selector :=
                 frontend.Mul (q pr)
                   (frontend.Sub (q pr) (frontend.Const 1) selector1 [])
                   (frontend.Sub (q pr) (frontend.Const 1) selector2 []) in
               m <- call (MulTorus pr t2 t0) ;;
               d <- call (DecompressTorus pr m) ;;
               Ext12_Select selector d Ext12_One) ;;
  let r := fresh (dom h) in
  ret (r, <[r := result]> h).

(** Pairing.FinalExponentiation *)
Definition FinalExponentiation (pr : Pairing) (e : loc) (h : heap) : M (loc * heap) :=
  finalExponentiation pr e false h.

(** Pairing.FinalExponentiationUnsafe *)
Definition FinalExponentiationUnsafe (pr : Pairing) (e : loc) (h : heap) : M (loc * heap) :=
  finalExponentiation pr e true h.

(** Pairing.computeTwistEquation *)
Definition computeTwistEquation (pr : Pairing) (Q : G2Affine) : M (E2 * E2) :=
  zx <- Ext2_IsZero (X (P Q)) ;;
  zy <- Ext2_IsZero (Y (P Q)) ;;
  selector <- frontend.And zx zy ;;
  b <- Ext2_Select selector Ext2_Zero (bTwist pr) ;;
  let left := Ext2_Square (Y (P Q)) in
  let right := Ext2_Square (X (P Q)) in
  let right := Ext2_Mul right (X (P Q)) in
  let right := Ext2_Add right b in
  ret (left, right).

(** Pairing.AssertIsOnTwist *)
Definition AssertIsOnTwist (pr : Pairing) (Q : G2Affine) : M unit :=
  lr <- computeTwistEquation pr Q ;;
  Ext2_AssertIsEqual (fst lr) (snd lr).

(** loopCounter = 6x0+2 = 29793968203157093288 in 2-NAF *)
Definition loopCounter : list Z :=
  [ 0; 0; 0; 1; 0; 1; 0; -1; 0; 0; -1;
    0; 0; 0; 1; 0; 0; -1; 0; -1; 0; 0;
    0; 1; 0; -1; 0; 0; 0; 0; -1; 0; 0;
    1; 0; -1; 0; 0; 1; 0; 0; 0; 0; 0;
    -1; 0; 0; -1; 0; 1; 0; -1; 0; 0; 0;
    -1; 0; -1; 0; 0; 0; 1; 0; -1; 0; 1 ].

(** One line evaluated at P[k]: the two MulByElement calls that every use of
    a line in the Miller loop starts with. *)
Definition lineAt (pr : Pairing) (lines : list lineEvaluations)
           (xNegOverY yInv : list baseEl) (k j i : nat) : M (E2 * E2) :=
  lk <- index lines k ;;
  x <- index xNegOverY k ;;
  r0 <- call (MulByElement pr (R0 (lk j i)) x) ;;
  lk <- index lines k ;;
  y <- index yInv k ;;
  r1 <- call (MulByElement pr (R1 (lk j i)) y) ;;
  ret (r0, r1).

(** The body of [for i := 63; i >= 0; i--] in millerLoopLines, at [i]. *)
Definition millerStep (pr : Pairing) (n : nat) (lines : list lineEvaluations)
           (xNegOverY yInv : list baseEl) (i : nat) (res : E12) : M E12 :=
  res <- call (Square pr res) ;;
  if nth i loopCounter 0 =? 0 then
    res <- (if negb (n mod 2 =? 0)%nat then
              l <- lineAt pr lines xNegOverY yInv (n - 1) 0 i ;;
              call (MulBy034 pr res (fst l) (snd l))
            else ret res) ;;
    foldM (fun res k =>
             l1 <- lineAt pr lines xNegOverY yInv k 0 i ;;
             l2 <- lineAt pr lines xNegOverY yInv (k - 1) 0 i ;;
             prodLines <- call (Mul034By034 pr (fst l1) (snd l1) (fst l2) (snd l2)) ;;
             call (MulBy01234 pr res prodLines))
          (map (fun j => (2 * j + 1)%nat) (seq 0 (n / 2))) res
  else
    foldM (fun res k =>
             l1 <- lineAt pr lines xNegOverY yInv k 0 i ;;
             l2 <- lineAt pr lines xNegOverY yInv k 1 i ;;
             prodLines <- call (Mul034By034 pr (fst l1) (snd l1) (fst l2) (snd l2)) ;;
             call (MulBy01234 pr res prodLines))
          (seq 0 n) res.

(** [for i := m-1; i >= 0; i--]. *)
Fixpoint millerIter (pr : Pairing) (n : nat) (lines : list lineEvaluations)
         (xNegOverY yInv : list baseEl) (m : nat) (res : E12) : M E12 :=
  match m with
  | O => ret res
  | S i =>
      res <- millerStep pr n lines xNegOverY yInv i res ;;
      millerIter pr n lines xNegOverY yInv i res
  end.

(** Pairing.millerLoopLines *)
Definition millerLoopLines (pr : Pairing) (P : list G1Affine)
           (lines : list lineEvaluations) : M (WithError GTEl) :=
  let n := length P in
  if ((n =? 0)%nat || negb (n =? length lines)%nat)%bool
  then ret (Error "invalid inputs sizes") else
  (* precomputations *)
  pre <- mapM (fun k =>
                 Pk <- index P k ;;
                 yInv <- call (curveF_Inverse pr (G1Y Pk)) ;;
                 Pk <- index P k ;;
                 x <- call (curveF_Mul pr (G1X Pk) yInv) ;;
                 x <- call (curveF_Neg pr x) ;;
                 ret (yInv, x))
              (seq 0 n) ;;
  let yInv := map fst pre in
  let xNegOverY := map snd pre in
  let res := Ext12_One in
  (* i = 64, k = 0 *)
  l <- lineAt pr lines xNegOverY yInv 0 0 64 ;;
  let res := {| C0 := C0 res;
                C1 := {| B0 := fst l; B1 := snd l; B2 := B2 (C1 res) |} |} in
  rp <- (if (2 <=? n)%nat then
           l <- lineAt pr lines xNegOverY yInv 1 0 64 ;;
           prodLines <- call (Mul034By034 pr (fst l) (snd l)
                                          (B0 (C1 res)) (B1 (C1 res))) ;;
           let '(p0, p1, p2, p3, p4) := prodLines in
           ret ({| C0 := {| B0 := p0; B1 := p1; B2 := p2 |};
                   C1 := {| B0 := p3; B1 := p4; B2 := B2 (C1 res) |} |},
                Some prodLines)
         else ret (res, None)) ;;
  let '(res, prodLines) := rp in
  res <- (if (3 <=? n)%nat then
            match prodLines with
            | None => panic "nil pointer dereference"
            | Some prodLines =>
                l <- lineAt pr lines xNegOverY yInv 2 0 64 ;;
                res <- call (Mul01234By034 pr prodLines (fst l) (snd l)) ;;
                foldM (fun res k =>
                         l <- lineAt pr lines xNegOverY yInv k 0 64 ;;
                         call (MulBy034 pr res (fst l) (snd l)))
                      (seq 3 (n - 3)) res
            end
          else ret res) ;;
  res <- millerIter pr n lines xNegOverY yInv 64 res ;;
  res <- foldM (fun res k =>
                  l1 <- lineAt pr lines xNegOverY yInv k 0 65 ;;
                  l2 <- lineAt pr lines xNegOverY yInv k 1 65 ;;
                  prodLines <- call (Mul034By034 pr (fst l1) (snd l1) (fst l2) (snd l2)) ;;
                  call (MulBy01234 pr res prodLines))
               (seq 0 n) res ;;
  ret (OkNil res).

(** Pairing.MillerLoop.  The lines cached in [Q[i].Lines] by the call are
    returned with the result.  [Q] is the list of the points themselves,
    which is the slice when its pointers are distinct; the slice of pointers,
    with the cache written through them, is [sw_bn254_shared.MillerLoop]. *)
Definition MillerLoop (pr : Pairing) (P : list G1Affine) (Q : list G2Affine)
  : M (WithError GTEl * list G2Affine) :=
  let n := length P in
  if ((n =? 0)%nat || negb (n =? length Q)%nat)%bool
  then ret (Error "invalid inputs sizes", Q) else
  ql <- mapM (fun Qi =>
                match Lines Qi with
                | None =>
                    Qlines <- call (computeLines pr (sw_bn254.P Qi)) ;;
                    ret ({| P := sw_bn254.P Qi; Lines := Some Qlines |}, Qlines)
                | Some ls => ret (Qi, ls)
                end) Q ;;
  r <- millerLoopLines pr P (map snd ql) ;;
  ret (r, map fst ql).

End sw_bn254.

(* ========================================================================= *)
(** * Properties *)

(** ** The builder monad *)

Module BuilderFacts.

Lemma bind_done {A B} (m : M A) (k : A -> M B) s a s' :
  m s = Done (a, s') -> bind m k s = k a s'.
Proof. unfold bind. intros ->. reflexivity. Qed.


(** [returns m Q]: from every builder state [m] completes without a panic,
    only adds constraints, and its result satisfies [Q]. *)
Definition returns {A} (m : M A) (Q : A -> Prop) : Prop :=
  forall s, exists a cs, m s = Done (a, cs ++ s) /\ Q a.

Lemma returns_ret {A} (a : A) (Q : A -> Prop) : Q a -> returns (ret a) Q.
Proof. intros HQ s. exists a, []. split; [reflexivity | exact HQ]. Qed.

Lemma returns_bind {A B} (m : M A) (k : A -> M B) (Q : A -> Prop) (R : B -> Prop) :
  returns m Q -> (forall a, Q a -> returns (k a) R) -> returns (bind m k) R.
Proof.
  intros Hm Hk s.
  destruct (Hm s) as (a & cs & Hrun & HQ).
  destruct (Hk a HQ (cs ++ s)) as (b & cs' & Hrun' & HR).
  exists b, (cs' ++ cs). split; [| exact HR].
  rewrite (bind_done _ _ _ _ _ Hrun), Hrun'.
  now rewrite app_assoc.
Qed.

Lemma returns_weaken {A} (m : M A) (Q R : A -> Prop) :
  returns m Q -> (forall a, Q a -> R a) -> returns m R.
Proof.
  intros Hm HQR s. destruct (Hm s) as (a & cs & Hrun & HQ).
  exists a, cs. auto.
Qed.

Lemma returns_emit (c : Constraint) : returns (emit c) (fun _ => True).
Proof. intros s. exists tt, [c]. split; [reflexivity | exact I]. Qed.

Lemma returns_call {A} (w : W A) : returns (call w) (fun a => a = fst w).
Proof. intros s. exists (fst w), [CCollab (snd w)]. split; reflexivity. Qed.

Lemma returns_index {A} (xs : list A) (i : nat) :
  (i < length xs)%nat -> returns (index xs i) (fun _ => True).
Proof.
  intros Hi s. unfold index.
  destruct (nth_error xs i) as [x |] eqn:E.
  - exists x, []. split; [reflexivity | exact I].
  - apply nth_error_None in E. lia.
Qed.

Lemma returns_foldM {A B} (body : B -> A -> M B) (I : B -> Prop) (xs : list A) :
  (forall acc x, In x xs -> I acc -> returns (body acc x) I) ->
  forall acc, I acc -> returns (foldM body xs acc) I.
Proof.
  induction xs as [| x xs IH]; intros Hbody acc Hacc; simpl.
  - now apply returns_ret.
  - apply returns_bind with (Q := I).
    + apply Hbody; [now left | exact Hacc].
    + intros acc' Hacc'. apply IH; [| exact Hacc'].
      intros acc0 y Hy. apply Hbody. now right.
Qed.

Lemma returns_mapM {A B} (g : A -> M B) (xs : list A) :
  (forall x, In x xs -> returns (g x) (fun _ => True)) ->
  returns (mapM g xs) (fun ys => length ys = length xs).
Proof.
  induction xs as [| x xs IH]; intros Hg; simpl.
  - now apply returns_ret.
  - apply returns_bind with (Q := fun _ => True).
    + apply Hg. now left.
    + intros y _. apply returns_bind with (Q := fun ys => length ys = length xs).
      * apply IH. intros z Hz. apply Hg. now right.
      * intros ys Hys. apply returns_ret. simpl. now rewrite Hys.
Qed.

Lemma sat_app (q : Z) (s1 s2 : Builder) :
  sat q (s1 ++ s2) = sat q s1 && sat q s2.
Proof. unfold sat. apply forallb_app. Qed.

(** [yields pc m a]: from every builder state [m] returns [a], and every
    constraint it adds passes [pc]. *)
Definition yields {A} (pc : Constraint -> bool) (m : M A) (a : A) : Prop :=
  exists cs, (forall s, m s = Done (a, cs ++ s)) /\ forallb pc cs = true.

Lemma yields_ret {A} pc (a : A) : yields pc (ret a) a.
Proof. exists []. split; reflexivity. Qed.

Lemma yields_bind {A B} pc (m : M A) (k : A -> M B) a b :
  yields pc m a -> yields pc (k a) b -> yields pc (bind m k) b.
Proof.
  intros (cs & Hm & Hcs) (cs' & Hk & Hcs').
  exists (cs' ++ cs). split.
  - intros s. rewrite (bind_done _ _ _ _ _ (Hm s)), Hk. now rewrite app_assoc.
  - rewrite forallb_app, Hcs, Hcs'. reflexivity.
Qed.


Lemma yields_call {A} q (w : W A) : yields (own_holds q) (call w) (fst w).
Proof. exists [CCollab (snd w)]. split; reflexivity. Qed.

Lemma sat_own_collab (q : Z) (s : Builder) :
  sat q s = own_sat q s && collab_sat s.
Proof.
  unfold sat, own_sat, collab_sat. induction s as [| c s IH]; simpl.
  - reflexivity.
  - rewrite IH.
    set (a := forallb (own_holds q) s). set (b := forallb _ s).
    clearbody a b.
    destruct c; simpl; destruct a, b;
      rewrite ?andb_true_r, ?andb_false_r; try reflexivity.
    all: destruct ok; reflexivity.
Qed.

Lemma yields_own q {A} (m : M A) a : yields (holds q) m a -> yields (own_holds q) m a.
Proof.
  intros (cs & Hm & Hcs). exists cs. split; [exact Hm |].
  rewrite forallb_forall in *. intros c Hc. specialize (Hcs c Hc).
  now destruct c.
Qed.

End BuilderFacts.

(** ** The Miller loop front-end *)

Module MillerFacts.
Import fields_bn254 sw_bn254 BuilderFacts.

(** The signed-digit value of a little-endian digit list. *)
Fixpoint nafValue (ds : list Z) : Z :=
  match ds with
  | [] => 0
  | d :: ds' => d + 2 * nafValue ds'
  end.

(** No two adjacent digits are both non-zero. *)
Fixpoint nonAdjacent (ds : list Z) : bool :=
  match ds with
  | d :: ((d' :: _) as ds') => ((d =? 0) || (d' =? 0)) && nonAdjacent ds'
  | _ => true
  end.

(** The BN254 seed x0. *)
Definition seed : Z := 4965661367192848881.

(** C7.  The table [loopCounter] has 66 digits, each of them -1, 0 or 1, no
    two adjacent ones non-zero; read as a signed binary expansion, least
    significant digit first, it is 29793968203157093288, which is 6*x0+2 for
    the BN254 seed x0.  The table is a closed constant: it has no parameter a
    call could change. *)
Theorem loopCounter_is_naf_of_6x0_plus_2 :
  length loopCounter = 66%nat /\
  Forall (fun d => d = -1 \/ d = 0 \/ d = 1) loopCounter /\
  nonAdjacent loopCounter = true /\
  nafValue loopCounter = 29793968203157093288 /\
  nafValue loopCounter = 6 * seed + 2.
Proof.
  split; [reflexivity |].
  split.
  - unfold loopCounter. repeat (apply List.Forall_cons; [lia |]). apply List.Forall_nil.
  - repeat split; vm_compute; reflexivity.
Qed.

Lemma returns_lineAt pr lines xs ys k j i :
  (k < length lines)%nat -> (k < length xs)%nat -> (k < length ys)%nat ->
  returns (lineAt pr lines xs ys k j i) (fun _ => True).
Proof.
  intros Hl Hx Hy. unfold lineAt.
  eapply returns_bind; [now apply returns_index |]; intros lk _.
  eapply returns_bind; [now apply returns_index |]; intros x _.
  eapply returns_bind; [apply returns_call |]; intros r0 _.
  eapply returns_bind; [now apply returns_index |]; intros lk' _.
  eapply returns_bind; [now apply returns_index |]; intros y _.
  eapply returns_bind; [apply returns_call |]; intros r1 _.
  now apply returns_ret.
Qed.

(** The fold over pairs of lines that both branches of the loop body and the
    final correction share. *)
Lemma returns_pair_fold pr lines xs ys (n i j1 j2 : nat) (sel : nat -> nat)
      (ks : list nat) res :
  length lines = n -> length xs = n -> length ys = n ->
  (forall k, In k ks -> (k < n)%nat /\ (sel k < n)%nat) ->
  returns
    (foldM (fun res k =>
              l1 <- lineAt pr lines xs ys k j1 i ;;
              l2 <- lineAt pr lines xs ys (sel k) j2 i ;;
              prodLines <- call (Mul034By034 pr (fst l1) (snd l1) (fst l2) (snd l2)) ;;
              call (MulBy01234 pr res prodLines)) ks res)
    (fun _ => True).
Proof.
  intros Hl Hx Hy Hks.
  apply returns_foldM with (I := fun _ => True); [| exact I].
  intros acc k Hk _. destruct (Hks k Hk) as [Hk1 Hk2].
  eapply returns_bind; [apply returns_lineAt; lia |]; intros l1 _.
  eapply returns_bind; [apply returns_lineAt; lia |]; intros l2 _.
  eapply returns_bind; [apply returns_call |]; intros pl _.
  eapply returns_weaken; [apply returns_call | auto].
Qed.

Lemma returns_millerStep pr n lines xs ys i res :
  (0 < n)%nat -> length lines = n -> length xs = n -> length ys = n ->
  returns (millerStep pr n lines xs ys i res) (fun _ => True).
Proof.
  intros Hn Hl Hx Hy. unfold millerStep.
  eapply returns_bind; [apply returns_call |]; intros res1 _.
  destruct (nth i loopCounter 0 =? 0).
  - eapply returns_bind with (Q := fun _ => True).
    + destruct (negb (n mod 2 =? 0)%nat).
      * eapply returns_bind; [apply returns_lineAt; lia |]; intros l _.
        eapply returns_weaken; [apply returns_call | auto].
      * now apply returns_ret.
    + intros res2 _.
      apply (returns_pair_fold pr lines xs ys n i 0%nat 0%nat (fun k => (k - 1)%nat));
        auto.
      intros k Hk. apply in_map_iff in Hk. destruct Hk as (j & <- & Hj).
      apply in_seq in Hj.
      assert (2 * (n / 2) <= n)%nat by (apply Nat.Div0.mul_div_le).
      lia.
  - apply (returns_pair_fold pr lines xs ys n i 0%nat 1%nat (fun k => k)); auto.
    intros k Hk. apply in_seq in Hk. lia.
Qed.

Lemma returns_millerIter pr n lines xs ys m :
  (0 < n)%nat -> length lines = n -> length xs = n -> length ys = n ->
  forall res, returns (millerIter pr n lines xs ys m res) (fun _ => True).
Proof.
  intros Hn Hl Hx Hy. induction m as [| i IH]; intros res; simpl.
  - now apply returns_ret.
  - eapply returns_bind; [now apply returns_millerStep |]; intros res' _.
    apply IH.
Qed.

Definition isOkNil {A} (r : WithError A) : Prop :=
  match r with OkNil _ => True | Error _ => False end.

Lemma returns_millerLoopLines pr P lines :
  length P <> 0%nat -> length P = length lines ->
  returns (millerLoopLines pr P lines) isOkNil.
Proof.
  intros Hn Hl. unfold millerLoopLines.
  destruct (Nat.eqb_spec (length P) 0) as [E | _]; [contradiction |].
  destruct (Nat.eqb_spec (length P) (length lines)) as [_ | E]; [| contradiction].
  cbn [orb negb].
  set (n := length P) in *.
  eapply returns_bind.
  { apply returns_mapM. intros k Hk. apply in_seq in Hk.
    eapply returns_bind; [apply returns_index; lia |]; intros Pk _.
    eapply returns_bind; [apply returns_call |]; intros yInv _.
    eapply returns_bind; [apply returns_index; lia |]; intros Pk' _.
    eapply returns_bind; [apply returns_call |]; intros x _.
    eapply returns_bind; [apply returns_call |]; intros x' _.
    now apply returns_ret. }
  intros pre Hpre. cbn beta in Hpre. rewrite length_seq in Hpre.
  assert (Hys : length (map fst pre) = n) by now rewrite length_map.
  assert (Hxs : length (map snd pre) = n) by now rewrite length_map.
  assert (Hls : length lines = n) by lia.
  eapply returns_bind; [apply returns_lineAt; lia |]; intros l _.
  eapply returns_bind
    with (Q := fun rp => (3 <= n)%nat -> snd rp <> None).
  { destruct (Nat.leb_spec 2 n) as [H2 | H2].
    - eapply returns_bind; [apply returns_lineAt; lia |]; intros l1 _.
      eapply returns_bind; [apply returns_call |]; intros pl _.
      destruct pl as [[[[p0 p1] p2] p3] p4].
      apply returns_ret. simpl. congruence.
    - apply returns_ret. simpl. lia. }
  intros [res prodLines] Hpl. simpl in Hpl.
  eapply returns_bind with (Q := fun _ => True).
  { destruct (Nat.leb_spec 3 n) as [H3 | H3].
    - destruct prodLines as [pl |]; [| now specialize (Hpl H3)].
      eapply returns_bind; [apply returns_lineAt; lia |]; intros l2 _.
      eapply returns_bind; [apply returns_call |]; intros res2 _.
      apply returns_foldM with (I := fun _ => True); [| exact I].
      intros acc k Hk _. apply in_seq in Hk.
      eapply returns_bind; [apply returns_lineAt; lia |]; intros lk _.
      eapply returns_weaken; [apply returns_call | auto].
    - now apply returns_ret. }
  intros res3 _.
  eapply returns_bind; [apply returns_millerIter; lia |]; intros res4 _.
  eapply returns_bind.
  { apply (returns_pair_fold pr lines (map snd pre) (map fst pre) n 65%nat
             0%nat 1%nat (fun k => k)); auto.
    intros k Hk. apply in_seq in Hk. lia. }
  intros res5 _. now apply returns_ret.
Qed.

(** C6.  [MillerLoop] and [millerLoopLines] return the input-validation
    error, with the builder untouched (and, for [MillerLoop], no line
    computed), exactly when [P] is empty or the two slices differ in length;
    on every other input they complete without a panic and return a result
    with a nil error. *)
Theorem MillerLoop_validates_input_sizes pr (P : list G1Affine)
        (Q : list G2Affine) (lines : list lineEvaluations) (s : Builder) :
  (if ((length P =? 0)%nat || negb (length P =? length Q)%nat)%bool
   then MillerLoop pr P Q s = Done ((Error "invalid inputs sizes", Q), s)
   else exists res Q' cs,
       MillerLoop pr P Q s = Done ((OkNil res, Q'), cs ++ s)) /\
  (if ((length P =? 0)%nat || negb (length P =? length lines)%nat)%bool
   then millerLoopLines pr P lines s = Done (Error "invalid inputs sizes", s)
   else exists res cs,
       millerLoopLines pr P lines s = Done (OkNil res, cs ++ s)).
Proof.
  split.
  - unfold MillerLoop.
    destruct ((length P =? 0)%nat || negb (length P =? length Q)%nat)%bool eqn:G;
      [reflexivity |].
    apply orb_false_iff in G. destruct G as [G0 G1].
    apply Nat.eqb_neq in G0. apply negb_false_iff, Nat.eqb_eq in G1.
    assert (R : returns
      (ql <- mapM (fun Qi =>
                match Lines Qi with
                | None =>
                    Qlines <- call (computeLines pr (sw_bn254.P Qi)) ;;
                    ret ({| P := sw_bn254.P Qi; Lines := Some Qlines |}, Qlines)
                | Some ls => ret (Qi, ls)
                end) Q ;;
       r <- millerLoopLines pr P (map snd ql) ;;
       ret (r, map fst ql)) (fun r => isOkNil (fst r))).
    { eapply returns_bind.
      - apply returns_mapM. intros Qi _. destruct (Lines Qi).
        + now apply returns_ret.
        + eapply returns_bind; [apply returns_call |]; intros ? _.
          now apply returns_ret.
      - intros ql Hql. cbn beta in Hql.
        eapply returns_bind.
        + apply returns_millerLoopLines; [exact G0 |].
          rewrite length_map. lia.
        + intros r Hr. apply returns_ret. exact Hr. }
    destruct (R s) as ([r Q'] & cs & Hrun & Hok).
    destruct r as [res | msg]; [| contradiction].
    exists res, Q', cs. exact Hrun.
  - destruct ((length P =? 0)%nat || negb (length P =? length lines)%nat)%bool eqn:G.
    + unfold millerLoopLines. rewrite G. reflexivity.
    + apply orb_false_iff in G. destruct G as [G0 G1].
      apply Nat.eqb_neq in G0. apply negb_false_iff, Nat.eqb_eq in G1.
      destruct (returns_millerLoopLines pr P lines G0 G1 s) as (r & cs & Hrun & Hok).
      destruct r as [res | msg]; [| contradiction].
      exists res, cs. exact Hrun.
Qed.

End MillerFacts.

(** ** The emulated field engine *)

Module EmulatedFacts.
Import emulated BuilderFacts.

(** The native field and limb layout the examples run on: the BN254 scalar
    field, and secp256k1's base field on four limbs of 64 bits. *)
Definition bn254_fr : Z :=
  21888242871839275222246405745257275088548364400416034343698204186575808495617.

Definition secp256k1Fp : FieldParams :=
  {| Modulus := 2 ^ 256 - 2 ^ 32 - 977; NbLimbs := 4; BitsPerLimb := 64 |}.

Definition exampleField : Field := solverField bn254_fr secp256k1Fp 188.

Lemma constantValue_value f a ba :
  constantValue f a = Some ba -> ba = value f a.
Proof.
  unfold constantValue, value.
  generalize (BitsPerLimb (fParams f)) as w. intros w.
  assert (H : forall ls cs, constLimbs ls = Some cs -> cs = map frontend.val ls).
  { induction ls as [| l ls IH]; simpl; intros cs Hcs.
    - now inversion Hcs.
    - destruct l as [c | v]; simpl in Hcs; [| discriminate].
      destruct (constLimbs ls) as [cs' |]; [| discriminate].
      inversion Hcs. simpl. f_equal. now apply IH. }
  destruct (constLimbs (Limbs a)) as [cs |] eqn:E; simpl; [| discriminate].
  intros [= <-]. now rewrite (H _ _ E).
Qed.

Lemma mod_zero_shift (m x y : Z) :
  0 < m -> (x - y) mod m = 0 -> (x mod m = 0 <-> y mod m = 0).
Proof.
  intros Hm Hxy.
  rewrite !Z.mod_divide in * by lia.
  split; intros H.
  - replace y with (x - (x - y)) by ring. now apply Z.divide_sub_r.
  - replace x with ((x - y) + y) by ring. now apply Z.divide_add_r.
Qed.

(** C8.  When both operands are constants, [AssertIsEqual] reduces the two
    values modulo the modulus and compares them: it returns with the builder
    untouched when they agree and panics when they differ.  Otherwise it
    emits, after what the width checks and the subtraction emit, the one
    constraint that the difference [b - a] is a multiple of the modulus,
    which holds exactly when [a] and [b] are congruent. *)
Theorem AssertIsEqual_constants_or_difference (f : Field) (a b : Element)
        (s : Builder)
  (Hmod : 0 < Modulus (fParams f))
  (Henf : forall x s1, exists cs,
        enforceWidthConditional f x s1 = Done (tt, cs ++ s1) /\
        (constantValue f x <> None -> cs = []))
  (Hsub : forall s1, exists diff cs,
        Sub f b a s1 = Done (diff, cs ++ s1) /\
        (value f diff - (value f b - value f a)) mod Modulus (fParams f) = 0) :
  match constantValue f a, constantValue f b with
  | Some ba, Some bb =>
      ba = value f a /\ bb = value f b /\
      AssertIsEqual f a b s =
        (if (ba mod Modulus (fParams f)) =? (bb mod Modulus (fParams f))
         then Done (tt, s) else Panic "ba != bb")
  | _, _ =>
      exists diff cs,
        AssertIsEqual f a b s =
          Done (tt, CZeroMod (value f diff) (Modulus (fParams f)) :: cs ++ s) /\
        (holds (q f) (CZeroMod (value f diff) (Modulus (fParams f))) = true <->
         (value f a - value f b) mod Modulus (fParams f) = 0)
  end.
Proof.
  destruct (Henf a s) as (ca & Ha & Hca).
  destruct (Henf b (ca ++ s)) as (cb & Hb & Hcb).
  assert (Hdiff : exists diff cs,
        (diff <- Sub f b a ;; checkZero f diff) (cb ++ ca ++ s) =
          Done (tt, CZeroMod (value f diff) (Modulus (fParams f)) :: cs ++ s) /\
        (holds (q f) (CZeroMod (value f diff) (Modulus (fParams f))) = true <->
         (value f a - value f b) mod Modulus (fParams f) = 0)).
  { destruct (Hsub (cb ++ ca ++ s)) as (diff & cd & Hd & Hval).
    exists diff, (cd ++ cb ++ ca). split.
    - rewrite (bind_done _ _ _ _ _ Hd). unfold checkZero, emit.
      now rewrite <- !app_assoc.
    - simpl. rewrite Z.eqb_eq.
      rewrite (mod_zero_shift _ _ _ Hmod Hval).
      replace (value f a - value f b) with (- (value f b - value f a)) by ring.
      rewrite !Z.mod_divide by lia.
      now rewrite Z.divide_opp_r. }
  unfold AssertIsEqual.
  rewrite (bind_done _ _ _ _ _ Ha), (bind_done _ _ _ _ _ Hb).
  destruct (constantValue f a) as [ba |] eqn:Ea;
    [destruct (constantValue f b) as [bb |] eqn:Eb |].
  - rewrite (Hca ltac:(discriminate)), (Hcb ltac:(discriminate)). simpl.
    repeat split; auto using constantValue_value.
    now destruct (_ =? _).
  - exact Hdiff.
  - exact Hdiff.
Qed.

Lemma solverEnforceWidth_runs fp (f : Field) x s1 :
  BitsPerLimb (fParams f) = BitsPerLimb fp ->
  exists cs, solverEnforceWidth fp x s1 = Done (tt, cs ++ s1) /\
             (constantValue f x <> None -> cs = []).
Proof.
  intros Hw. unfold solverEnforceWidth, constantValue.
  destruct (internal x); [exists []; split; [reflexivity | auto] |].
  destruct (constLimbs (Limbs x)) as [c |].
  - exists []. split; [reflexivity | auto].
  - assert (R : returns (foldM (fun (_ : unit) l =>
                 emit (CWidth (frontend.val l) (BitsPerLimb fp))) (Limbs x) tt)
               (fun _ => True)).
    { apply returns_foldM with (I := fun _ => True); [| exact I].
      intros [] l _ _. apply returns_emit. }
    destruct (R s1) as ([] & cs & Hrun & _).
    exists cs. split; [exact Hrun | simpl; congruence].
Qed.

(** Two equal constants pass untouched. *)
Lemma AssertIsEqual_constants_witness :
  AssertIsEqual exampleField (constElement [5; 0; 0; 0])
                (constElement [5; 0; 0; 0]) [] = Done (tt, []).
Proof.
  refine (proj2 (proj2 (AssertIsEqual_constants_or_difference exampleField
            (constElement [5; 0; 0; 0]) (constElement [5; 0; 0; 0]) [] _ _ _))).
  - reflexivity.
  - intros x s1. now apply solverEnforceWidth_runs.
  - intros s1. eexists _, []. split; [reflexivity | vm_compute; reflexivity].
Defined.

(** *** Bits and limbs *)

Definition isBit (b : Z) : Prop := b = 0 \/ b = 1.

(** The digits bits.ToBinary returns for the value [v]. *)
Definition digits (v : Z) (n : nat) : list Z := map (Bit v) (seq 0 n).

Lemma length_digits v n : length (digits v n) = n.
Proof. unfold digits. now rewrite length_map, length_seq. Qed.

Lemma ToBinary_run (v : frontend.Var) (n : nat) (s : Builder) :
  exists ds,
    bits.ToBinary v n s =
      Done (ds, CEq (bits_value (map frontend.val ds)) (frontend.val v) :: s) /\
    map frontend.val ds = digits (frontend.val v) n /\
    length ds = n.
Proof.
  eexists. split; [reflexivity |]. split.
  - rewrite map_map. unfold digits. apply map_ext. intros i. now destruct v.
  - now rewrite length_map, length_seq.
Qed.

Lemma val_packed (q : Z) (bs : list frontend.Var) :
  frontend.val (bits.packed q bs) = bits_value (map frontend.val bs) mod q.
Proof. unfold bits.packed. cbv zeta. now destruct (forallb _ bs). Qed.

Lemma FromBinary_run (q : Z) (bs : list frontend.Var) (s : Builder) :
  exists cs,
    bits.FromBinary q bs s = Done (bits.packed q bs, cs ++ s) /\
    (Forall isBit (map frontend.val bs) -> forall q', sat q' cs = true).
Proof.
  unfold bits.FromBinary.
  assert (H : forall s0, exists cs,
             foldM (fun (_ : unit) b => emit (CBool (frontend.val b))) bs tt s0 =
               Done (tt, cs ++ s0) /\
             (Forall isBit (map frontend.val bs) -> forall q', sat q' cs = true)).
  { induction bs as [| b bs IH]; intros s0.
    - exists []. split; [reflexivity | reflexivity].
    - destruct (IH (CBool (frontend.val b) :: s0)) as (cs & Hrun & Hsat).
      exists (cs ++ [CBool (frontend.val b)]). split.
      + simpl. unfold bind at 1, emit at 1. rewrite Hrun.
        now rewrite <- app_assoc.
      + intros Hb q'. simpl in Hb. inversion Hb as [| ? ? Hb1 Hb2]; subst.
        rewrite sat_app, (Hsat Hb2). simpl.
        destruct Hb1 as [-> | ->]; reflexivity. }
  destruct (H s) as (cs & Hrun & Hsat).
  exists cs. split; [| exact Hsat].
  now rewrite (bind_done _ _ _ _ _ Hrun).
Qed.

Lemma slice_run {A} (xs : list A) (lo hi : nat) (s : Builder) :
  (lo <= hi)%nat -> (hi <= length xs)%nat ->
  slice xs lo hi s = Done (firstn (hi - lo) (skipn lo xs), s).
Proof.
  intros H1 H2. unfold slice.
  destruct (Nat.leb_spec lo hi); [| lia].
  destruct (Nat.leb_spec hi (length xs)); [| lia].
  reflexivity.
Qed.

(** What the spec says of ToBits, on values: every limb plus the carry of the
    previous one is decomposed into [w + ovf] digits, of which the low [w]
    are output and the rest is the next carry.  Returns the output digits
    and the digits of the last limb. *)
Fixpoint limbwise (q : Z) (w ovf : nat) (limbs : list Z) (carry : Z)
         (last : list Z) : list Z * list Z :=
  match limbs with
  | [] => ([], last)
  | l :: ls =>
      let ds := digits ((l + carry) mod q) (w + ovf) in
      let carry' := if (0 <? ovf)%nat then bits_value (skipn w ds) mod q
                    else carry in
      let r := limbwise q w ovf ls carry' ds in
      (firstn w ds ++ fst r, snd r)
  end.

Lemma val_Add q x y :
  frontend.val (frontend.Add q x y) = (frontend.val x + frontend.val y) mod q.
Proof. now destruct x, y. Qed.

Lemma toBitsStep_run f a carry full lb limb s :
  let w := BitsPerLimb (fParams f) in
  exists carry' ds cs,
    toBitsStep f a (carry, full, lb) limb s =
      Done ((carry', full ++ firstn w ds, ds), cs ++ s) /\
    map frontend.val ds =
      digits ((frontend.val limb + frontend.val carry) mod q f) (w + overflow a) /\
    frontend.val carry' =
      (if (0 <? overflow a)%nat
       then bits_value (skipn w (map frontend.val ds)) mod q f
       else frontend.val carry) /\
    ((0 <? overflow a)%nat = false ->
     carry' = carry /\
     cs = [CEq (bits_value (map frontend.val ds))
               ((frontend.val limb + frontend.val carry) mod q f)]).
Proof.
  intros w. unfold toBitsStep. fold w.
  destruct (ToBinary_run (frontend.Add (q f) limb carry) (w + overflow a) s)
    as (ds & Hrun & Hds & Hlen).
  rewrite val_Add in Hrun, Hds.
  rewrite (bind_done _ _ _ _ _ Hrun).
  rewrite (bind_done _ _ _ _ _ (slice_run ds 0 w _ ltac:(lia) ltac:(lia))).
  rewrite Nat.sub_0_r, skipn_O.
  destruct (0 <? overflow a)%nat eqn:Hov.
  - rewrite (bind_done _ _ _ _ _ (slice_run ds w (length ds) _ ltac:(lia) ltac:(lia))).
    rewrite firstn_all2 by (rewrite length_skipn; lia).
    destruct (FromBinary_run (q f) (skipn w ds)
                (CEq (bits_value (map frontend.val ds))
                     ((frontend.val limb + frontend.val carry) mod q f) :: s))
      as (cs & Hfb & _).
    rewrite (bind_done _ _ _ _ _ Hfb).
    eexists _, ds, (cs ++ [_]). split.
    + unfold ret. now rewrite <- app_assoc.
    + split; [exact Hds |]. split; [| discriminate].
      rewrite val_packed. now rewrite <- skipn_map.
  - exists carry, ds, [CEq (bits_value (map frontend.val ds))
                          ((frontend.val limb + frontend.val carry) mod q f)].
    split; [reflexivity |]. split; [exact Hds |]. split; [reflexivity |].
    intros _. split; reflexivity.
Qed.

Lemma toBits_fold f a ls :
  let w := BitsPerLimb (fParams f) in
  forall carry full lb s,
  exists carry' full' lb' cs,
    foldM (toBitsStep f a) ls (carry, full, lb) s =
      Done ((carry', full', lb'), cs ++ s) /\
    map frontend.val full' =
      map frontend.val full ++
      fst (limbwise (q f) w (overflow a) (map frontend.val ls)
                    (frontend.val carry) (map frontend.val lb)) /\
    map frontend.val lb' =
      snd (limbwise (q f) w (overflow a) (map frontend.val ls)
                    (frontend.val carry) (map frontend.val lb)) /\
    length full' = (length full + length ls * w)%nat /\
    (ls <> [] -> length lb' = (w + overflow a)%nat).
Proof.
  intros w. induction ls as [| l ls IH]; intros carry full lb s.
  - exists carry, full, lb, []. simpl. rewrite app_nil_r.
    repeat split; auto; try lia. congruence.
  - destruct (toBitsStep_run f a carry full lb l s)
      as (carry1 & ds & cs1 & Hstep & Hds & Hcarry & _).
    fold w in Hstep, Hds, Hcarry.
    destruct (IH carry1 (full ++ firstn w ds) ds (cs1 ++ s))
      as (carry' & full' & lb' & cs & Hrun & Hfull & Hlb & Hlen & Hlast).
    exists carry', full', lb', (cs ++ cs1).
    assert (Hdl : length ds = (w + overflow a)%nat).
    { rewrite <- (length_map frontend.val), Hds. apply length_digits. }
    split.
    { simpl. rewrite (bind_done _ _ _ _ _ Hstep), Hrun. now rewrite app_assoc. }
    simpl. rewrite <- Hds, <- Hcarry.
    split.
    { rewrite Hfull, map_app, <- app_assoc, firstn_map. reflexivity. }
    split; [exact Hlb |].
    split.
    { rewrite Hlen, length_app, length_firstn. lia. }
    intros _. destruct ls as [| l' ls'].
    + simpl in Hrun. inversion Hrun. subst. exact Hdl.
    + apply Hlast. discriminate.
Qed.


Lemma constLimbs_nil_is_const f a :
  Limbs a = [] -> constantValue f a = Some 0.
Proof. unfold constantValue. intros ->. reflexivity. Qed.

(** C5, as the code has it.  On an element that is not a constant, [ToBits]
    returns [len(a.Limbs) * bitsPerLimb + overflow] bits: the low
    [bitsPerLimb] digits of every limb plus the carry of the previous one,
    then the digits above [bitsPerLimb] of the last limb.  On a constant it
    returns the low [NbLimbs * bitsPerLimb] bits of the constant's value,
    whatever the number of limbs and the overflow of the element. *)
Theorem ToBits_length_by_kind (f : Field) (a : Element) (s s1 : Builder)
  (Henf : enforceWidthConditional f a s = Done (tt, s1)) :
  let w := BitsPerLimb (fParams f) in
  match constantValue f a with
  | Some ba =>
      ToBits f a s =
        Done (map (fun i => frontend.Const (Bit ba i))
                  (seq 0 (w * NbLimbs (fParams f))), s1) /\
      length (map (fun i => frontend.Const (Bit ba i))
                  (seq 0 (w * NbLimbs (fParams f))))
      = (NbLimbs (fParams f) * w)%nat
  | None =>
      exists bts cs,
        ToBits f a s = Done (bts, cs ++ s1) /\
        length bts = (length (Limbs a) * w + overflow a)%nat /\
        map frontend.val bts =
          (let r := limbwise (q f) w (overflow a) (map frontend.val (Limbs a)) 0 []
           in fst r ++ skipn w (snd r))
  end.
Proof.
  intros w. unfold ToBits. fold w.
  rewrite (bind_done _ _ _ _ _ Henf).
  destruct (constantValue f a) as [ba |] eqn:Ec.
  - split; [reflexivity |]. rewrite length_map, length_seq. lia.
  - destruct (toBits_fold f a (Limbs a) (frontend.Const 0) [] [] s1)
      as (carry' & full' & lb' & cs & Hrun & Hfull & Hlb & Hlen & Hlast).
    fold w in Hfull, Hlb, Hlen, Hlast.
    change (frontend.val (frontend.Const 0)) with 0 in Hfull, Hlb.
    change (map frontend.val []) with (@nil Z) in Hfull, Hlb.
    assert (Hne : Limbs a <> []).
    { intros E. rewrite (constLimbs_nil_is_const f a E) in Ec. discriminate. }
    specialize (Hlast Hne).
    rewrite (bind_done _ _ _ _ _ Hrun). cbn iota beta.
    rewrite (bind_done _ _ _ _ _
               (slice_run lb' w (w + overflow a) _ ltac:(lia) ltac:(lia))).
    replace (w + overflow a - w)%nat with (overflow a) by lia.
    rewrite firstn_all2 by (rewrite length_skipn; lia).
    exists (full' ++ skipn w lb'), cs. split; [reflexivity |]. split.
    + rewrite length_app, length_skipn, Hlen, Hlast. simpl. lia.
    + cbv zeta. rewrite map_app, Hfull, <- Hlb, skipn_map. reflexivity.
Qed.

(** A witness element: 5 on four limbs. *)
Definition five : Element := ValueOf secp256k1Fp 5.

(** An element on no limb at all (the strict zero of IsZero's fast path). *)
Definition noLimbs : Element :=
  {| Limbs := []; overflow := 0; internal := true; modReduced := true |}.

(** A witness element on one limb, as FromBits returns for up to 64 bits. *)
Definition oneLimb : Element := newInternalElement [frontend.Wire 5] 0.

Lemma ToBits_length_witness :
  exists bts cs,
    ToBits exampleField five [] =
      Done (bts, cs ++ [CWidth 0 64; CWidth 0 64; CWidth 0 64; CWidth 5 64]) /\
    length bts = 256%nat.
Proof.
  pose proof (ToBits_length_by_kind exampleField five []
                [CWidth 0 64; CWidth 0 64; CWidth 0 64; CWidth 5 64] eq_refl) as H.
  hnf in H. destruct H as (bts & cs & Hrun & Hlen & _).
  exists bts, cs. split; [exact Hrun | exact Hlen].
Defined.

(** The claim as stated fails whichever count "nbLimbs" is.  The element on
    no limb is a constant: it gets 256 bits, not 0 * 64 + 0.  The witness on
    one limb gets 64 bits, not 4 * 64 + 0. *)
Lemma ToBits_length_counterexample :
  ~ (forall (a : Element) bts s',
        ToBits exampleField a [] = Done (bts, s') ->
        length bts = (length (Limbs a) * 64 + overflow a)%nat) /\
  ~ (forall (a : Element) bts s',
        ToBits exampleField a [] = Done (bts, s') ->
        length bts = (4 * 64 + overflow a)%nat).
Proof.
  split; intros H.
  - pose proof (H noLimbs _ _ eq_refl) as H0. vm_compute in H0. discriminate.
  - pose proof (H oneLimb _ _ eq_refl) as H0. vm_compute in H0. discriminate.
Qed.

(** *** Limb arithmetic *)

Definition inRange (w : nat) (l : Z) : Prop := 0 <= l < 2 ^ Z.of_nat w.

Lemma pow2_pos (n : nat) : 0 < 2 ^ Z.of_nat n.
Proof. apply Z.pow_pos_nonneg; lia. Qed.

Lemma recompose_nonneg w ls : Forall (inRange w) ls -> 0 <= recompose w ls.
Proof.
  induction 1 as [| l ls Hl _ IH]; simpl; [lia |].
  pose proof (pow2_pos w). unfold inRange in Hl. nia.
Qed.


Lemma recompose_decompose w n x :
  recompose w (decompose w n x) = x mod 2 ^ Z.of_nat (w * n).
Proof.
  revert x. induction n as [| n IH]; intros x; simpl recompose.
  - rewrite Nat.mul_0_r. simpl. now rewrite Z.mod_1_r.
  - rewrite IH.
    replace (Z.of_nat (w * S n)) with (Z.of_nat w + Z.of_nat (w * n)) by lia.
    rewrite Z.pow_add_r by lia.
    pose proof (pow2_pos w). pose proof (pow2_pos (w * n)).
    rewrite Z.rem_mul_r by lia. reflexivity.
Qed.

Lemma decompose_inRange w n x : Forall (inRange w) (decompose w n x).
Proof.
  revert x. induction n as [| n IH]; intros x; simpl; constructor.
  - unfold inRange. apply Z.mod_pos_bound, pow2_pos.
  - apply IH.
Qed.



Lemma recompose_lt w ls :
  Forall (inRange w) ls -> recompose w ls < 2 ^ Z.of_nat (w * length ls).
Proof.
  induction 1 as [| l ls Hl _ IH]; simpl recompose; simpl length.
  - rewrite Nat.mul_0_r. simpl. lia.
  - replace (Z.of_nat (w * S (length ls)))
      with (Z.of_nat w + Z.of_nat (w * length ls)) by lia.
    rewrite Z.pow_add_r by lia.
    pose proof (pow2_pos w). unfold inRange in Hl. nia.
Qed.



(** *** Loops over indices are folds over the slice *)

Lemma index_run {A} (xs : list A) (i : nat) (x : A) (s : Builder) :
  nth_error xs i = Some x -> index xs i s = Done (x, s).
Proof. unfold index. intros ->. reflexivity. Qed.

Lemma skipn_cons_nth {A} (xs : list A) (k : nat) (x : A) :
  nth_error xs k = Some x -> skipn k xs = x :: skipn (S k) xs.
Proof.
  revert k. induction xs as [| y ys IH]; intros [| k]; simpl; try discriminate.
  - now intros [= ->].
  - intros H. now rewrite (IH k H).
Qed.




(** *** The three folds of IsZero *)

Lemma val_Mul q x y :
  frontend.val (frontend.Mul q x y) = (frontend.val x * frontend.val y) mod q.
Proof. now destruct x, y. Qed.



Lemma b2z_mul_mod q (a b : bool) :
  1 < q -> (Z.b2z a * Z.b2z b) mod q = Z.b2z (a && b).
Proof. intros Hq. destruct a, b; simpl; now rewrite Z.mod_small by lia. Qed.








(** *** IsZero *)

Section IsZeroFacts.
Variable f : Field.
Let w := BitsPerLimb (fParams f).
Let n := NbLimbs (fParams f).
Let p := Modulus (fParams f).
Hypothesis Hq : 2 ^ Z.of_nat (w + maxOverflow f) < q f.










End IsZeroFacts.






(** *** Bit lists *)

Lemma bits_value_app (xs ys : list Z) :
  bits_value (xs ++ ys) = bits_value xs + 2 ^ Z.of_nat (length xs) * bits_value ys.
Proof.
  induction xs as [| x xs IH]; simpl bits_value; simpl length.
  - simpl. lia.
  - rewrite IH, Nat2Z.inj_succ, Z.pow_succ_r by lia. ring.
Qed.

Lemma bits_value_repeat0 (k : nat) : bits_value (repeat 0 k) = 0.
Proof. induction k; simpl; lia. Qed.

Lemma bits_value_bounds (bs : list Z) :
  Forall isBit bs -> 0 <= bits_value bs < 2 ^ Z.of_nat (length bs).
Proof.
  induction 1 as [| b bs Hb _ IH]; simpl bits_value; simpl length.
  - simpl. lia.
  - rewrite Nat2Z.inj_succ, Z.pow_succ_r by lia. destruct Hb; subst; lia.
Qed.

Lemma Bit_shift (v : Z) (i : nat) : Bit v (S i) = Bit (v / 2) i.
Proof.
  unfold Bit. now rewrite Nat2Z.inj_succ, Z.div2_bits by lia.
Qed.

Lemma digits_succ (v : Z) (n : nat) :
  digits v (S n) = v mod 2 :: digits (v / 2) n.
Proof.
  unfold digits. simpl. f_equal.
  - unfold Bit. simpl. apply Z.bit0_mod.
  - rewrite <- seq_shift, map_map. apply map_ext. intros i. apply Bit_shift.
Qed.

Lemma bits_value_digits (v : Z) (n : nat) :
  bits_value (digits v n) = v mod 2 ^ Z.of_nat n.
Proof.
  revert v. induction n as [| n IH]; intros v.
  - simpl. now rewrite Z.mod_1_r.
  - rewrite digits_succ. simpl bits_value. rewrite IH.
    rewrite Nat2Z.inj_succ, Z.pow_succ_r by lia.
    pose proof (pow2_pos n). rewrite Z.rem_mul_r by lia. reflexivity.
Qed.

Lemma digits_are_bits (v : Z) (n : nat) : Forall isBit (digits v n).
Proof.
  unfold digits. apply List.Forall_forall. intros b Hb.
  apply in_map_iff in Hb. destruct Hb as (i & <- & _).
  unfold Bit, isBit. destruct (Z.testbit v (Z.of_nat i)); auto.
Qed.

Lemma bits_value_firstn (bs : list Z) (k : nat) :
  Forall isBit bs -> bits_value (firstn k bs) = bits_value bs mod 2 ^ Z.of_nat k.
Proof.
  intros Hbs. destruct (Nat.le_gt_cases (length bs) k) as [Hk | Hk].
  - rewrite firstn_all2 by exact Hk.
    pose proof (bits_value_bounds bs Hbs) as Hb.
    assert (2 ^ Z.of_nat (length bs) <= 2 ^ Z.of_nat k)
      by (apply Z.pow_le_mono_r; lia).
    symmetry. apply Z.mod_small. lia.
  - rewrite <- (firstn_skipn k bs) at 2.
    rewrite bits_value_app, length_firstn, Nat.min_l by lia.
    assert (Hf : Forall isBit (firstn k bs)).
    { apply List.Forall_forall. intros b Hb.
      rewrite List.Forall_forall in Hbs. apply Hbs.
      rewrite <- (firstn_skipn k bs). apply in_or_app. now left. }
    pose proof (bits_value_bounds _ Hf) as Hb.
    rewrite length_firstn, Nat.min_l in Hb by lia.
    pose proof (pow2_pos k).
    rewrite Z.mul_comm, Z.mod_add by lia.
    symmetry. apply Z.mod_small. lia.
Qed.

(** *** ToBits on an element without overflow *)

Lemma holds_CEq_same q x y : x = y -> holds q (CEq x y) = true.
Proof. intros ->. simpl. apply Z.eqb_refl. Qed.

Lemma toBits_fold0 f a ls :
  let w := BitsPerLimb (fParams f) in
  overflow a = 0%nat -> 2 ^ Z.of_nat w <= q f ->
  Forall (inRange w) (map frontend.val ls) ->
  forall full lb s,
  exists full' lb' cs out,
    foldM (toBitsStep f a) ls (frontend.Const 0, full, lb) s =
      Done ((frontend.Const 0, full', lb'), cs ++ s) /\
    sat (q f) cs = true /\
    map frontend.val full' = map frontend.val full ++ out /\
    Forall isBit out /\
    bits_value out = recompose w (map frontend.val ls) /\
    length out = (w * length ls)%nat /\
    (ls <> [] -> length lb' = w).
Proof.
  intros w Hov Hq. induction ls as [| l ls IH]; intros Hr full lb s.
  - exists full, lb, [], []. simpl. rewrite app_nil_r.
    repeat split; auto; try lia. congruence.
  - simpl in Hr. inversion Hr as [| ? ? Hl Hls]; subst.
    destruct (toBitsStep_run f a (frontend.Const 0) full lb l s)
      as (carry1 & ds & cs1 & Hstep & Hds & _ & Hcs).
    fold w in Hstep, Hds. rewrite Hov in Hds, Hcs.
    destruct (Hcs eq_refl) as [-> ->]. clear Hcs.
    cbn [frontend.val] in Hds, Hstep.
    unfold inRange in Hl. pose proof (pow2_pos w) as Hw.
    rewrite Z.add_0_r, Nat.add_0_r, Z.mod_small in Hds by lia.
    assert (Hdl : length ds = w).
    { rewrite <- (length_map frontend.val), Hds. apply length_digits. }
    rewrite firstn_all2 in Hstep by lia.
    destruct (IH Hls (full ++ ds) ds
                ([CEq (bits_value (map frontend.val ds))
                      ((frontend.val l + 0) mod q f)] ++ s))
      as (full' & lb' & cs & out & Hrun & Hsat & Hfull & Hbits & Hval & Hlen & Hlast).
    exists full', lb',
      (cs ++ [CEq (bits_value (map frontend.val ds)) ((frontend.val l + 0) mod q f)]),
      (digits (frontend.val l) w ++ out).
    split.
    { simpl. rewrite (bind_done _ _ _ _ _ Hstep), Hrun. now rewrite <- app_assoc. }
    split.
    { rewrite sat_app, Hsat. cbn [sat forallb andb].
      rewrite holds_CEq_same; [reflexivity |].
      rewrite Hds, bits_value_digits, Z.add_0_r, !Z.mod_small by lia.
      reflexivity. }
    split.
    { rewrite Hfull, map_app, Hds, <- app_assoc. reflexivity. }
    split.
    { apply Forall_app. split; [apply digits_are_bits | exact Hbits]. }
    split.
    { rewrite bits_value_app, length_digits, bits_value_digits, Hval.
      simpl. rewrite Z.mod_small by lia. reflexivity. }
    split.
    { rewrite length_app, length_digits, Hlen. simpl. lia. }
    intros _. destruct ls as [| l' ls'].
    + simpl in Hrun. inversion Hrun. subst. exact Hdl.
    + apply Hlast. discriminate.
Qed.

(** An element as the engine keeps it after a reduction: no overflow, every
    limb within [bitsPerLimb] bits, and a constant within the NbLimbs limbs
    that [ToBits] reads of it. *)
Definition wellFormed (f : Field) (x : Element) : Prop :=
  Forall (inRange (BitsPerLimb (fParams f))) (map frontend.val (Limbs x)) /\
  (constantValue f x <> None ->
   value f x < 2 ^ Z.of_nat (BitsPerLimb (fParams f) * NbLimbs (fParams f))).

Lemma ToBits_value f x s :
  let w := BitsPerLimb (fParams f) in
  overflow x = 0%nat -> 2 ^ Z.of_nat w <= q f -> wellFormed f x ->
  (exists ce, enforceWidthConditional f x s = Done (tt, ce ++ s) /\
              sat (q f) ce = true) ->
  exists bts cs,
    ToBits f x s = Done (bts, cs ++ s) /\
    sat (q f) cs = true /\
    Forall isBit (map frontend.val bts) /\
    bits_value (map frontend.val bts) = value f x /\
    length bts = (w * match constantValue f x with
                      | Some _ => NbLimbs (fParams f)
                      | None => length (Limbs x)
                      end)%nat.
Proof.
  intros w Hov Hq [Hr Hc] (ce & Henf & Hsat).
  unfold ToBits. fold w. rewrite (bind_done _ _ _ _ _ Henf).
  destruct (constantValue f x) as [ba |] eqn:Ec.
  - pose proof (constantValue_value f x ba Ec) as Hba.
    exists (map (fun i => frontend.Const (Bit ba i)) (seq 0 (w * NbLimbs (fParams f)))), ce.
    assert (Hm : map frontend.val
                   (map (fun i => frontend.Const (Bit ba i))
                        (seq 0 (w * NbLimbs (fParams f))))
                 = digits ba (w * NbLimbs (fParams f))).
    { rewrite map_map. reflexivity. }
    split; [reflexivity |]. split; [exact Hsat |]. rewrite Hm.
    split; [apply digits_are_bits |]. split.
    + rewrite bits_value_digits, Hba. apply Z.mod_small.
      split; [now apply recompose_nonneg | apply Hc; discriminate].
    + now rewrite length_map, length_seq.
  - destruct (toBits_fold0 f x (Limbs x) Hov Hq Hr [] [] (ce ++ s))
      as (full' & lb' & cs & out & Hrun & Hsat' & Hfull & Hbits & Hval & Hlen & Hlast).
    fold w in Hval, Hlen, Hlast.
    assert (Hne : Limbs x <> []).
    { intros E. rewrite (constLimbs_nil_is_const f x E) in Ec. discriminate. }
    specialize (Hlast Hne).
    rewrite (bind_done _ _ _ _ _ Hrun). cbn iota beta. rewrite Hov, Nat.add_0_r.
    rewrite (bind_done _ _ _ _ _ (slice_run lb' w w _ ltac:(lia) ltac:(lia))).
    rewrite Nat.sub_diag. cbn [firstn]. rewrite app_nil_r.
    exists full', (cs ++ ce). simpl in Hfull.
    split; [unfold ret; now rewrite <- app_assoc |].
    split; [now rewrite sat_app, Hsat', Hsat |].
    rewrite Hfull. repeat split; auto.
    rewrite <- (length_map frontend.val), Hfull. exact Hlen.
Qed.

(** *** The comparison loop *)

Lemma firstn_succ_nth (xs : list Z) (i : nat) (x : Z) :
  nth_error xs i = Some x -> firstn (S i) xs = firstn i xs ++ [x].
Proof.
  revert i. induction xs as [| y ys IH]; intros [| i]; simpl; try discriminate.
  - now intros [= ->].
  - intros H. now rewrite (IH i H).
Qed.

Lemma nth_error_map_val (xs : list frontend.Var) (i : nat) (x : frontend.Var) :
  nth_error xs i = Some x ->
  nth_error (map frontend.val xs) i = Some (frontend.val x).
Proof. intros H. now rewrite nth_error_map, H. Qed.

(** One round of the loop on bits: the next tie indicator, and whether the
    round's assertion holds. *)
Lemma leq_round q (p ai ei : frontend.Var) (bp ba be : bool) :
  1 < q ->
  frontend.val p = Z.b2z bp -> frontend.val ai = Z.b2z ba ->
  frontend.val ei = Z.b2z be ->
  let v := frontend.Mul q p ei in
  let p' := if frontend.val ai =? 1 then v else p in
  let t := if frontend.val ai =? 1 then frontend.Const 0 else p in
  let ll := frontend.Mul q (frontend.Sub q (frontend.Const 1) t [ei]) ei in
  frontend.val p' = Z.b2z (if ba then bp && be else bp) /\
  holds q (CBool (frontend.val ai)) = true /\
  holds q (CEq (frontend.val ll) (frontend.val (frontend.Const 0)))
  = negb (negb ba && be && bp).
Proof.
  intros Hq Hp Ha He. cbv zeta.
  assert (Hsub : forall t, frontend.val
                   (frontend.Sub q (frontend.Const 1) t [ei])
                 = ((1 - frontend.val t) mod q - frontend.val ei) mod q).
  { intros t. unfold frontend.Sub. simpl. destruct t, ei; reflexivity. }
  rewrite Ha. split; [| split].
  - destruct ba; simpl.
    + rewrite val_Mul, Hp, He. now apply b2z_mul_mod.
    + exact Hp.
  - destruct ba; reflexivity.
  - cbn [holds frontend.val]. rewrite val_Mul.
    destruct ba; cbn [Z.b2z Z.eqb Pos.eqb]; rewrite Hsub, He; cbn [frontend.val];
      [| rewrite Hp].
    + destruct be; cbn [Z.b2z negb andb];
        rewrite ?Z.sub_0_r, ?(Z.mod_small 1 q), ?Z.sub_diag, ?Z.mul_0_r,
          ?Z.mul_0_l, ?Z.mod_0_l, ?Z.mod_mod by lia; apply Z.eqb_refl.
    + destruct be, bp; cbn [Z.b2z negb andb];
        rewrite ?Z.sub_0_r, ?Z.sub_diag, ?(Z.mod_small 1 q), ?Z.sub_diag,
          ?Z.mul_0_r, ?Z.mul_0_l, ?Z.mod_0_l, ?Z.mod_mod by lia;
        try apply Z.eqb_refl.
      rewrite Z.mul_1_r, Z.mod_mod by lia.
      replace (0 - 1) with (-1) by lia.
      apply Z.eqb_neq. intros H.
      replace (-1) with ((q - 1) + (-1) * q) in H by ring.
      rewrite Z.mod_add, Z.mod_small in H by lia. lia.
Qed.

Lemma leqLoop_run f (eBits aBits : list frontend.Var) :
  1 < q f ->
  Forall isBit (map frontend.val eBits) ->
  Forall isBit (map frontend.val aBits) ->
  forall n p s bp,
    (n <= length eBits)%nat -> (n <= length aBits)%nat ->
    frontend.val p = Z.b2z bp ->
    exists cs,
      leqLoop f eBits aBits n p s = Done (tt, cs ++ s) /\
      (sat (q f) cs = true <->
       (bp = false \/
        bits_value (firstn n (map frontend.val eBits))
        <= bits_value (firstn n (map frontend.val aBits)))).
Proof.
  intros Hq He Ha. induction n as [| i IH]; intros p s bp Hne Hna Hp.
  - exists []. split; [reflexivity |]. simpl. split; auto. intros _. right. lia.
  - destruct (nth_error eBits i) as [ei |] eqn:Eei;
      [| apply nth_error_None in Eei; lia].
    destruct (nth_error aBits i) as [ai |] eqn:Eai;
      [| apply nth_error_None in Eai; lia].
    assert (Hbe : exists be, frontend.val ei = Z.b2z be).
    { rewrite List.Forall_forall in He.
      destruct (He (frontend.val ei)) as [H | H].
      - apply in_map, (nth_error_In _ _ Eei).
      - now exists false.
      - now exists true. }
    assert (Hba : exists ba, frontend.val ai = Z.b2z ba).
    { rewrite List.Forall_forall in Ha.
      destruct (Ha (frontend.val ai)) as [H | H].
      - apply in_map, (nth_error_In _ _ Eai).
      - now exists false.
      - now exists true. }
    destruct Hbe as [be Hbe], Hba as [ba Hba].
    destruct (leq_round (q f) p ai ei bp ba be Hq Hp Hba Hbe)
      as (Hp' & Hbool & Hll).
    cbv zeta in Hp', Hll.
    set (p' := if frontend.val ai =? 1 then frontend.Mul (q f) p ei else p) in *.
    set (t := if frontend.val ai =? 1 then frontend.Const 0 else p) in *.
    set (ll := frontend.Mul (q f)
                 (frontend.Sub (q f) (frontend.Const 1) t [ei]) ei) in *.
    destruct (IH p'
                ([CEq (frontend.val ll) (frontend.val (frontend.Const 0));
                  CBool (frontend.val ai); CBool (frontend.val ai)] ++ s)
                (if ba then bp && be else bp)
                ltac:(lia) ltac:(lia) Hp') as (cs & Hrun & Hsat).
    exists (cs ++ [CEq (frontend.val ll) (frontend.val (frontend.Const 0));
                   CBool (frontend.val ai); CBool (frontend.val ai)]).
    split.
    { cbn [leqLoop].
      rewrite (bind_done _ _ _ _ _ (index_run _ _ _ s Eei)).
      rewrite (bind_done _ _ _ _ _ (index_run _ _ _ s Eai)).
      unfold frontend.Select, frontend.AssertIsEqual.
      cbn [bind emit ret]. fold p' t ll.
      cbn [app] in Hrun. rewrite Hrun. now rewrite <- app_assoc. }
    rewrite sat_app, andb_true_iff, Hsat.
    cbn [sat forallb]. rewrite Hll, Hbool. cbn [andb]. rewrite andb_true_r.
    rewrite (firstn_succ_nth _ _ _ (nth_error_map_val _ _ _ Eei)).
    rewrite (firstn_succ_nth _ _ _ (nth_error_map_val _ _ _ Eai)).
    rewrite !bits_value_app, !length_firstn, !length_map, !Nat.min_l by lia.
    cbn [bits_value]. rewrite Hbe, Hba.
    assert (HE : Forall isBit (firstn i (map frontend.val eBits))).
    { rewrite List.Forall_forall in *. intros b Hb. apply He.
      rewrite <- (firstn_skipn i (map frontend.val eBits)).
      apply in_or_app. now left. }
    assert (HA : Forall isBit (firstn i (map frontend.val aBits))).
    { rewrite List.Forall_forall in *. intros b Hb. apply Ha.
      rewrite <- (firstn_skipn i (map frontend.val aBits)).
      apply in_or_app. now left. }
    pose proof (bits_value_bounds _ HE) as BE.
    pose proof (bits_value_bounds _ HA) as BA.
    rewrite length_firstn, length_map, Nat.min_l in BE, BA by lia.
    pose proof (pow2_pos i) as Hi.
    destruct ba, be, bp; cbn [Z.b2z negb andb];
      split; intros H; try lia;
      try (split; [lia | reflexivity]);
      try (destruct H as [[H | H] H']; try discriminate; lia);
      try (destruct H as [H | H]; try discriminate; split; [left; reflexivity || right; lia | reflexivity]).
Qed.

Lemma map_val_pad (xs : list frontend.Var) (k : nat) :
  map frontend.val (xs ++ repeat (frontend.Const 0) k)
  = map frontend.val xs ++ repeat 0 k.
Proof. rewrite map_app. f_equal. induction k; simpl; congruence. Qed.

Lemma pad_value (xs : list frontend.Var) (k : nat) :
  bits_value (map frontend.val (xs ++ repeat (frontend.Const 0) k))
  = bits_value (map frontend.val xs).
Proof. rewrite map_val_pad, bits_value_app, bits_value_repeat0. lia. Qed.

Lemma pad_bits (xs : list frontend.Var) (k : nat) :
  Forall isBit (map frontend.val xs) ->
  Forall isBit (map frontend.val (xs ++ repeat (frontend.Const 0) k)).
Proof.
  intros H. rewrite map_val_pad. apply Forall_app. split; [exact H |].
  apply List.Forall_forall. intros b Hb. apply repeat_spec in Hb. now left.
Qed.

(** C4.  With an overflow on either side [AssertIsLessOrEqual] panics.  On
    two well-formed elements without overflow it does not panic, whatever
    the lengths of the two bit decompositions (the shorter is padded with
    zeros at the most significant end), and the constraints it emits are
    satisfied exactly when the value of [e] is at most the value of [a]. *)
Theorem AssertIsLessOrEqual_iff_le (f : Field) (e a : Element) (s : Builder)
  (Hq : 2 ^ Z.of_nat (BitsPerLimb (fParams f)) <= q f)
  (Hq1 : 1 < q f)
  (He : wellFormed f e) (Ha : wellFormed f a)
  (Henf : forall x s0, wellFormed f x ->
          exists ce, enforceWidthConditional f x s0 = Done (tt, ce ++ s0) /\
                     sat (q f) ce = true) :
  if (0 <? overflow e + overflow a)%nat
  then AssertIsLessOrEqual f e a s = Panic "inputs must have 0 overflow"
  else exists cs,
      AssertIsLessOrEqual f e a s = Done (tt, cs ++ s) /\
      (sat (q f) cs = true <-> value f e <= value f a).
Proof.
  unfold AssertIsLessOrEqual.
  destruct (Nat.ltb_spec 0 (overflow e + overflow a)) as [Hov | Hov];
    [reflexivity |].
  destruct (ToBits_value f e s ltac:(lia) Hq He (Henf e s He))
    as (eb & cs1 & Hrun1 & Hsat1 & Hbe & Hve & _).
  destruct (ToBits_value f a (cs1 ++ s) ltac:(lia) Hq Ha (Henf a _ Ha))
    as (ab & cs2 & Hrun2 & Hsat2 & Hba & Hva & _).
  rewrite (bind_done _ _ _ _ _ Hrun1), (bind_done _ _ _ _ _ Hrun2).
  assert (Hfin : forall eb' ab',
             length eb' = length ab' ->
             Forall isBit (map frontend.val eb') ->
             Forall isBit (map frontend.val ab') ->
             bits_value (map frontend.val eb') = value f e ->
             bits_value (map frontend.val ab') = value f a ->
             exists cs,
               leqLoop f eb' ab' (length eb') (frontend.Const 1) (cs2 ++ cs1 ++ s)
               = Done (tt, cs ++ s) /\
               (sat (q f) cs = true <-> value f e <= value f a)).
  { intros eb' ab' Hlen Hbe' Hba' Hve' Hva'.
    destruct (leqLoop_run f eb' ab' Hq1 Hbe' Hba' (length eb') (frontend.Const 1)
                (cs2 ++ cs1 ++ s) true ltac:(lia) ltac:(lia) eq_refl)
      as (cs & Hrun & Hsat).
    exists (cs ++ cs2 ++ cs1). split.
    - rewrite Hrun. now rewrite <- !app_assoc.
    - rewrite !sat_app, Hsat1, Hsat2, !andb_true_r, Hsat.
      rewrite <- (length_map frontend.val eb') at 1.
      rewrite Hlen, <- (length_map frontend.val ab').
      rewrite !firstn_all, Hve', Hva'.
      split; [intros [H | H]; [discriminate | exact H] | now right]. }
  destruct (Nat.ltb_spec (length ab) (length eb)) as [Hlt | Hge].
  - unfold ff. destruct (Nat.leb_spec (length ab) (length eb)) as [_ | ?]; [| lia].
    cbn [bind ret].
    apply Hfin; auto using pad_bits.
    + rewrite length_app, repeat_length. lia.
    + now rewrite pad_value.
  - unfold ff. destruct (Nat.leb_spec (length eb) (length ab)) as [_ | ?]; [| lia].
    cbn [bind ret].
    apply Hfin; auto using pad_bits.
    + rewrite length_app, repeat_length. lia.
    + now rewrite pad_value.
Qed.

Lemma solverEnforceWidth_sat (fp : FieldParams) (x : Element) (s0 : Builder) q0 :
  Forall (inRange (BitsPerLimb fp)) (map frontend.val (Limbs x)) ->
  exists ce, solverEnforceWidth fp x s0 = Done (tt, ce ++ s0) /\ sat q0 ce = true.
Proof.
  intros Hr. unfold solverEnforceWidth.
  destruct (internal x); [exists []; split; reflexivity |].
  destruct (constLimbs (Limbs x)); [exists []; split; reflexivity |].
  revert s0. induction (Limbs x) as [| l ls IH]; intros s0.
  - exists []. split; reflexivity.
  - simpl in Hr. inversion Hr as [| ? ? Hl Hls]; subst.
    destruct (IH Hls (CWidth (frontend.val l) (BitsPerLimb fp) :: s0))
      as (ce & Hrun & Hsat).
    exists (ce ++ [CWidth (frontend.val l) (BitsPerLimb fp)]). split.
    + simpl. unfold bind at 1, emit at 1. rewrite Hrun. now rewrite <- app_assoc.
    + rewrite sat_app, Hsat. unfold inRange in Hl. simpl.
      destruct (Z.leb_spec 0 (frontend.val l)); [| lia].
      destruct (Z.ltb_spec (frontend.val l) (2 ^ Z.of_nat (BitsPerLimb fp))); [| lia].
      reflexivity.
Qed.

Definition six : Element := ValueOf secp256k1Fp 6.

Lemma wellFormed_ValueOf_small (x : Z) :
  0 <= x < 2 ^ 64 -> wellFormed exampleField (ValueOf secp256k1Fp x).
Proof.
  intros Hx. split.
  - unfold ValueOf. cbn [Limbs]. rewrite map_map. cbn [frontend.val].
    rewrite map_id. apply decompose_inRange.
  - intros Hc. exfalso. apply Hc. reflexivity.
Qed.

(** 5 <= 6 passes. *)
Lemma AssertIsLessOrEqual_witness :
  exists cs,
    AssertIsLessOrEqual exampleField five six [] = Done (tt, cs ++ []) /\
    (sat (q exampleField) cs = true <->
     value exampleField five <= value exampleField six).
Proof.
  refine (AssertIsLessOrEqual_iff_le exampleField five six [] _ _ _ _ _).
  - vm_compute. congruence.
  - reflexivity.
  - apply wellFormed_ValueOf_small. lia.
  - apply wellFormed_ValueOf_small. lia.
  - intros x s0 [Hr _]. now apply solverEnforceWidth_sat.
Defined.

(** *** Bit length and powers of two *)

Lemma size_nat_bounds (x : positive) :
  2 ^ (Z.of_nat (Pos.size_nat x) - 1) <= Zpos x < 2 ^ Z.of_nat (Pos.size_nat x).
Proof.
  induction x as [x IH | x IH |]; cbn [Pos.size_nat].
  - rewrite Nat2Z.inj_succ.
    replace (Z.succ (Z.of_nat (Pos.size_nat x)) - 1)
      with (Z.succ (Z.of_nat (Pos.size_nat x) - 1)) by lia.
    assert (0 < Pos.size_nat x)%nat by (destruct x; simpl; lia).
    rewrite !Z.pow_succ_r by lia. lia.
  - rewrite Nat2Z.inj_succ.
    replace (Z.succ (Z.of_nat (Pos.size_nat x)) - 1)
      with (Z.succ (Z.of_nat (Pos.size_nat x) - 1)) by lia.
    assert (0 < Pos.size_nat x)%nat by (destruct x; simpl; lia).
    rewrite !Z.pow_succ_r by lia. lia.
  - simpl. lia.
Qed.

Lemma BitLen_bounds (m : Z) :
  0 < m -> 2 ^ (Z.of_nat (BitLen m) - 1) <= m < 2 ^ Z.of_nat (BitLen m).
Proof. destruct m as [| x | x]; try lia. intros _. apply size_nat_bounds. Qed.

Lemma trailing_zeros_pow2 (x : positive) :
  trailing_zeros x = (Pos.size_nat x - 1)%nat <->
  Zpos x = 2 ^ (Z.of_nat (Pos.size_nat x) - 1).
Proof.
  induction x as [x IH | x IH |]; cbn [trailing_zeros Pos.size_nat].
  - assert (0 < Pos.size_nat x)%nat by (destruct x; simpl; lia).
    split; [lia |]. intros H0. exfalso.
    rewrite Nat2Z.inj_succ in H0.
    replace (Z.succ (Z.of_nat (Pos.size_nat x)) - 1)
      with (Z.succ (Z.of_nat (Pos.size_nat x) - 1)) in H0 by lia.
    rewrite Z.pow_succ_r in H0 by lia. lia.
  - assert (0 < Pos.size_nat x)%nat by (destruct x; simpl; lia).
    rewrite Nat2Z.inj_succ.
    replace (Z.succ (Z.of_nat (Pos.size_nat x)) - 1)
      with (Z.succ (Z.of_nat (Pos.size_nat x) - 1)) by lia.
    rewrite Z.pow_succ_r by lia.
    split; intros H0.
    + assert (E : trailing_zeros x = (Pos.size_nat x - 1)%nat) by lia.
      apply IH in E. lia.
    + assert (E : Zpos x = 2 ^ (Z.of_nat (Pos.size_nat x) - 1)) by lia.
      apply IH in E. lia.
  - simpl. split; auto.
Qed.

(** [m] is an exact power of two. *)
Definition isPowerOfTwo (m : Z) : Prop := exists k, 0 <= k /\ m = 2 ^ k.

Lemma power_of_two_top (m : Z) :
  0 < m -> (isPowerOfTwo m <-> m = 2 ^ (Z.of_nat (BitLen m) - 1)).
Proof.
  intros Hm. pose proof (BitLen_bounds m Hm) as Hb. split.
  - intros (k & Hk & ->).
    assert (Z.of_nat (BitLen (2 ^ k)) - 1 <= k).
    { apply (Z.pow_le_mono_r_iff 2); lia. }
    assert (k < Z.of_nat (BitLen (2 ^ k))).
    { apply (Z.pow_lt_mono_r_iff 2); lia. }
    f_equal. lia.
  - intros H. exists (Z.of_nat (BitLen m) - 1). split; [| exact H].
    destruct m; simpl in *; try lia. destruct p; simpl; lia.
Qed.

(** The number of bits [ToBitsCanonical] keeps. *)
Definition canonicalBits (m : Z) : nat :=
  let nbBits := BitLen m in
  if (negb (nbBits =? 0)%nat && (TrailingZeroBits m =? nbBits - 1)%nat)%bool
  then (nbBits - 1)%nat else nbBits.

Lemma canonicalBits_spec (m : Z) :
  0 < m ->
  (isPowerOfTwo m -> canonicalBits m = (BitLen m - 1)%nat) /\
  (~ isPowerOfTwo m -> canonicalBits m = BitLen m) /\
  m <= 2 ^ Z.of_nat (canonicalBits m) /\
  (canonicalBits m <= BitLen m)%nat.
Proof.
  intros Hm. pose proof (BitLen_bounds m Hm) as Hb.
  pose proof (power_of_two_top m Hm) as Hpow.
  unfold canonicalBits.
  destruct m as [| x | x]; try lia. cbn [BitLen TrailingZeroBits] in *.
  assert (Hs : (0 < Pos.size_nat x)%nat) by (destruct x; simpl; lia).
  destruct (Nat.eqb_spec (Pos.size_nat x) 0) as [? | _]; [lia |].
  cbn [negb andb].
  pose proof (trailing_zeros_pow2 x) as Htz.
  destruct (Nat.eqb_spec (trailing_zeros x) (Pos.size_nat x - 1)) as [E | E].
  - apply Htz in E. repeat split; try lia.
    + intros Hn. exfalso. apply Hn, Hpow, E.
    + rewrite Nat2Z.inj_sub by lia. simpl Z.of_nat at 2. lia.
  - repeat split; try lia.
    intros Hp. exfalso. apply E, Htz, Hpow, Hp.
Qed.

(** *** FromBits packs the bits it is given *)

Lemma firstn_add {A} (a b : nat) (l : list A) :
  firstn (a + b) l = firstn a l ++ firstn b (skipn a l).
Proof.
  revert l. induction a as [| a IH]; intros l; simpl; [reflexivity |].
  destruct l as [| x l]; simpl.
  - now rewrite firstn_nil.
  - now rewrite IH.
Qed.

Lemma recompose_app w xs ys :
  recompose w (xs ++ ys)
  = recompose w xs + 2 ^ Z.of_nat (w * length xs) * recompose w ys.
Proof.
  induction xs as [| x xs IH]; simpl recompose; simpl length.
  - rewrite Nat.mul_0_r. simpl. lia.
  - rewrite IH.
    replace (Z.of_nat (w * S (length xs)))
      with (Z.of_nat w + Z.of_nat (w * length xs)) by lia.
    rewrite Z.pow_add_r by lia. ring.
Qed.

Lemma Forall_isBit_sub (l : list Z) (a b : nat) :
  Forall isBit l -> Forall isBit (firstn a (skipn b l)).
Proof.
  intros H. rewrite List.Forall_forall in *. intros x Hx. apply H.
  rewrite <- (firstn_skipn b l). apply in_or_app. right.
  rewrite <- (firstn_skipn a (skipn b l)). apply in_or_app. now left.
Qed.

Lemma FromBits_chunks q0 (w : nat) (bs : list frontend.Var) (m : nat) :
  2 ^ Z.of_nat w <= q0 ->
  Forall isBit (map frontend.val bs) ->
  forall k s, ((k + m) * w <= length bs)%nat ->
    exists limbs cs,
      mapM (fun i => chunk <- slice bs (i * w) ((i + 1) * w) ;;
                     bits.FromBinary q0 chunk) (seq k m) s
      = Done (limbs, cs ++ s) /\
      sat q0 cs = true /\
      length limbs = m /\
      recompose w (map frontend.val limbs)
      = bits_value (firstn (m * w) (skipn (k * w) (map frontend.val bs))).
Proof.
  intros Hq Hbits. induction m as [| m IH]; intros k s Hk.
  - exists [], []. repeat split; reflexivity.
  - cbn [seq mapM].
    assert (Hsl : slice bs (k * w) ((k + 1) * w) s
                  = Done (firstn w (skipn (k * w) bs), s)).
    { rewrite slice_run by nia. do 3 f_equal. lia. }
    destruct (FromBinary_run q0 (firstn w (skipn (k * w) bs)) s)
      as (cs1 & Hfb & Hsat1).
    assert (Hchunk : Forall isBit
                       (map frontend.val (firstn w (skipn (k * w) bs)))).
    { rewrite <- firstn_map, <- skipn_map. now apply Forall_isBit_sub. }
    destruct (IH (S k) (cs1 ++ s) ltac:(lia))
      as (limbs & cs & Hrun & Hsat & Hlen & Hval).
    eexists (_ :: limbs), (cs ++ cs1). split.
    { unfold bind at 1. unfold bind at 1. rewrite Hsl, Hfb.
      unfold bind at 1. rewrite Hrun. unfold ret.
      now rewrite <- app_assoc. }
    split; [now rewrite sat_app, Hsat, (Hsat1 Hchunk) |].
    split; [simpl; now rewrite Hlen |].
    cbn [map recompose]. rewrite val_packed, Hval.
    pose proof (bits_value_bounds _ Hchunk) as Hb.
    assert (Hcl : length (map frontend.val (firstn w (skipn (k * w) bs))) = w).
    { rewrite length_map, length_firstn, length_skipn. nia. }
    rewrite Hcl in Hb.
    rewrite Z.mod_small by lia.
    replace (S m * w)%nat with (w + m * w)%nat by lia.
    rewrite firstn_add, bits_value_app, skipn_skipn.
    rewrite <- firstn_map, <- skipn_map in Hcl.
    rewrite Hcl, <- !firstn_map, <- !skipn_map.
    replace (w + k * w)%nat with (S k * w)%nat by lia.
    reflexivity.
Qed.

Lemma FromBits_value f (bs : list frontend.Var) (s : Builder) :
  let w := BitsPerLimb (fParams f) in
  (0 < w)%nat -> 2 ^ Z.of_nat w <= q f -> (0 < length bs)%nat ->
  Forall isBit (map frontend.val bs) ->
  exists r cs,
    FromBits f bs s = Done (r, cs ++ s) /\
    sat (q f) cs = true /\
    value f r = bits_value (map frontend.val bs) /\
    overflow r = 0%nat /\
    length (Limbs r) = ((length bs + w - 1) / w)%nat.
Proof.
  intros w Hw Hq Hlen Hbits. unfold FromBits. fold w.
  destruct (Nat.eqb_spec w 0) as [? | _]; [lia |].
  set (nb := ((length bs + w - 1) / w)%nat).
  assert (Hdm : (length bs + w - 1 = w * nb + (length bs + w - 1) mod w)%nat)
    by apply Nat.div_mod_eq.
  assert (Hr : ((length bs + w - 1) mod w < w)%nat)
    by (apply Nat.mod_upper_bound; lia).
  assert (Hnb : (0 < nb)%nat).
  { destruct nb; [| lia]. rewrite Nat.mul_0_r in Hdm. lia. }
  destruct (Nat.eqb_spec nb 0) as [? | _]; [lia |].
  assert (Hfit : ((nb - 1) * w < length bs)%nat) by nia.
  assert (Htop : (length bs <= nb * w)%nat) by nia.
  destruct (FromBits_chunks (q f) w bs (nb - 1) Hq Hbits 0 s ltac:(simpl; lia))
    as (limbs & cs1 & Hrun1 & Hsat1 & Hl1 & Hval1).
  rewrite (bind_done _ _ _ _ _ Hrun1).
  rewrite (bind_done _ _ _ _ _
             (slice_run bs ((nb - 1) * w) (length bs) _ ltac:(lia) ltac:(lia))).
  rewrite firstn_all2 by (rewrite length_skipn; lia).
  destruct (FromBinary_run (q f) (skipn ((nb - 1) * w) bs) (cs1 ++ s))
    as (cs2 & Hfb & Hsat2).
  rewrite (bind_done _ _ _ _ _ Hfb).
  assert (Hlast : Forall isBit (map frontend.val (skipn ((nb - 1) * w) bs))).
  { rewrite <- skipn_map. rewrite List.Forall_forall in *. intros x Hx.
    apply Hbits. rewrite <- (firstn_skipn ((nb - 1) * w) (map frontend.val bs)).
    apply in_or_app. now right. }
  eexists _, (cs2 ++ cs1). split; [unfold ret; now rewrite <- app_assoc |].
  split; [now rewrite sat_app, (Hsat2 Hlast), Hsat1 |].
  split; [| split; [reflexivity |]].
  - unfold value, newInternalElement. cbn [Limbs]. fold w.
    rewrite map_app, recompose_app, Hval1, length_map, Hl1.
    cbn [map recompose]. rewrite val_packed.
    pose proof (bits_value_bounds _ Hlast) as Hb.
    rewrite length_map, length_skipn in Hb.
    assert (Hk : (length bs - (nb - 1) * w <= w)%nat).
    { destruct nb as [| nb']; [lia |]. simpl in *. rewrite Nat.sub_0_r in *. nia. }
    assert (2 ^ Z.of_nat (length bs - (nb - 1) * w) <= 2 ^ Z.of_nat w)
      by (apply Z.pow_le_mono_r; lia).
    rewrite Z.mod_small by lia.
    rewrite Z.mul_0_r, Z.add_0_r. cbn [Nat.mul]. rewrite skipn_O.
    rewrite <- (firstn_skipn ((nb - 1) * w) (map frontend.val bs)) at 2.
    rewrite bits_value_app, length_firstn, length_map, Nat.min_l by lia.
    rewrite skipn_map. do 3 f_equal. lia.
  - cbn [newInternalElement Limbs]. rewrite length_app, Hl1. simpl. lia.
Qed.

Lemma value_ValueOf f (x : Z) :
  0 <= x < 2 ^ Z.of_nat (BitsPerLimb (fParams f) * NbLimbs (fParams f)) ->
  value f (ValueOf (fParams f) x) = x.
Proof.
  intros Hx. unfold value, ValueOf. cbn [Limbs].
  rewrite map_map. cbn [frontend.val]. rewrite map_id, recompose_decompose.
  now apply Z.mod_small.
Qed.

(** C1.  For a limb layout that holds the modulus (limbs of at least one bit
    that fit the native field, NbLimbs limbs covering the bit length of the
    modulus) and every [x] below the modulus, [ToBitsCanonical] on the
    witness bound to [x] returns BitLen(modulus) bits, one fewer when the
    modulus is an exact power of two, and [FromBits] on these bits returns
    an element of value [x]; neither panics and every constraint emitted on
    the way is satisfied. *)
Theorem FromBits_ToBitsCanonical_roundtrip (f : Field) (x : Z) (s : Builder)
  (Hw : (0 < BitsPerLimb (fParams f))%nat)
  (Hq : 2 ^ Z.of_nat (BitsPerLimb (fParams f)) <= q f)
  (Hp : 1 < Modulus (fParams f))
  (Hfit : (BitLen (Modulus (fParams f))
           <= BitsPerLimb (fParams f) * NbLimbs (fParams f))%nat)
  (Hx : 0 <= x < Modulus (fParams f))
  (Hred : exists ca cs,
      ReduceStrict f (ValueOf (fParams f) x) s = Done (ca, cs ++ s) /\
      sat (q f) cs = true /\
      overflow ca = 0%nat /\ wellFormed f ca /\
      length (Limbs ca) = NbLimbs (fParams f) /\
      value f ca = value f (ValueOf (fParams f) x) mod Modulus (fParams f))
  (Henf : forall y s0, wellFormed f y ->
      exists ce, enforceWidthConditional f y s0 = Done (tt, ce ++ s0) /\
                 sat (q f) ce = true) :
  exists bts cs1 r cs2,
    ToBitsCanonical f (ValueOf (fParams f) x) s = Done (bts, cs1 ++ s) /\
    (isPowerOfTwo (Modulus (fParams f)) ->
     length bts = (BitLen (Modulus (fParams f)) - 1)%nat) /\
    (~ isPowerOfTwo (Modulus (fParams f)) ->
     length bts = BitLen (Modulus (fParams f))) /\
    FromBits f bts (cs1 ++ s) = Done (r, cs2 ++ cs1 ++ s) /\
    value f r = x /\
    sat (q f) (cs2 ++ cs1) = true.
Proof.
  set (w := BitsPerLimb (fParams f)) in *.
  set (m := Modulus (fParams f)) in *.
  destruct Hred as (ca & cs0 & Hrs & Hsat0 & Hov & Hwf & Hlen & Hval).
  destruct (canonicalBits_spec m ltac:(lia)) as (Hpow & Hnpow & Hle & Hnb).
  pose proof (BitLen_bounds m ltac:(lia)) as Hbl.
  assert (Hcap : 2 ^ Z.of_nat (BitLen m) <= 2 ^ Z.of_nat (w * NbLimbs (fParams f)))
    by (apply Z.pow_le_mono_r; lia).
  rewrite value_ValueOf, Z.mod_small in Hval by (fold w; lia).
  destruct (ToBits_value f ca (cs0 ++ s) Hov Hq Hwf (Henf ca _ Hwf))
    as (bts0 & cs & Hrun & Hsat & Hbits & Hbv & Hbl0).
  fold w in Hbl0.
  assert (Hl0 : length bts0 = (w * NbLimbs (fParams f))%nat).
  { rewrite Hbl0. destruct (constantValue f ca); [reflexivity | now rewrite Hlen]. }
  set (nb := canonicalBits m) in *.
  assert (Hnb0 : (0 < nb)%nat).
  { destruct nb; [| lia]. simpl in Hle. lia. }
  assert (Hsl : ToBitsCanonical f (ValueOf (fParams f) x) s
                = Done (firstn nb bts0, (cs ++ cs0) ++ s)).
  { unfold ToBitsCanonical. fold m. fold (canonicalBits m). fold nb.
    rewrite (bind_done _ _ _ _ _ Hrs), (bind_done _ _ _ _ _ Hrun).
    rewrite slice_run by lia.
    rewrite Nat.sub_0_r, skipn_O. now rewrite <- app_assoc. }
  assert (Hfb : Forall isBit (map frontend.val (firstn nb bts0))).
  { rewrite <- firstn_map, <- (skipn_O (map frontend.val bts0)).
    now apply Forall_isBit_sub. }
  assert (Hfl : length (firstn nb bts0) = nb)
    by (rewrite length_firstn; lia).
  destruct (FromBits_value f (firstn nb bts0) ((cs ++ cs0) ++ s) Hw Hq
              ltac:(lia) Hfb) as (r & cs2 & Hrun2 & Hsat2 & Hv2 & _ & _).
  exists (firstn nb bts0), (cs ++ cs0), r, cs2.
  split; [exact Hsl |].
  split; [intros H; rewrite Hfl; now apply Hpow |].
  split; [intros H; rewrite Hfl; now apply Hnpow |].
  split; [rewrite Hrun2; now rewrite <- !app_assoc |].
  split.
  - rewrite Hv2, <- firstn_map, bits_value_firstn, Hbv, Hval by exact Hbits.
    apply Z.mod_small. lia.
  - now rewrite !sat_app, Hsat2, Hsat, Hsat0.
Qed.

Lemma wellFormed_canonical (x : Z) :
  wellFormed exampleField (canonical secp256k1Fp x).
Proof.
  split.
  - unfold canonical. cbn [Limbs]. rewrite map_map. cbn [frontend.val].
    rewrite map_id. apply decompose_inRange.
  - intros Hc. exfalso. apply Hc. reflexivity.
Qed.

(** The round trip of 5 through secp256k1's base field. *)
Lemma roundtrip_witness :
  exists bts cs1 r cs2,
    ToBitsCanonical exampleField (ValueOf secp256k1Fp 5) [] = Done (bts, cs1 ++ []) /\
    (isPowerOfTwo (Modulus secp256k1Fp) -> length bts = 255%nat) /\
    (~ isPowerOfTwo (Modulus secp256k1Fp) -> length bts = 256%nat) /\
    FromBits exampleField bts (cs1 ++ []) = Done (r, cs2 ++ cs1 ++ []) /\
    value exampleField r = 5 /\
    sat (q exampleField) (cs2 ++ cs1) = true.
Proof.
  refine (FromBits_ToBitsCanonical_roundtrip exampleField 5 [] _ _ _ _ _ _ _).
  - vm_compute. lia.
  - vm_compute. congruence.
  - reflexivity.
  - vm_compute. lia.
  - split; [lia | reflexivity].
  - exists (canonical secp256k1Fp 5), []. split; [reflexivity |].
    split; [reflexivity |]. split; [reflexivity |].
    split; [apply wellFormed_canonical |].
    split; [reflexivity | vm_compute; reflexivity].
  - intros y s0 [Hr _]. now apply solverEnforceWidth_sat.
Defined.

(** *** The code on small inputs *)

(** A toy layout: modulus 13 on two limbs of three bits over the native
    field of 97 elements; with [maxOverflow = 0] the two limbs are tested
    one by one. *)
Definition toyField : Field :=
  {| q := 97; fParams := {| Modulus := 13; NbLimbs := 2; BitsPerLimb := 3 |};
     maxOverflow := 0;
     enforceWidthConditional :=
       solverEnforceWidth {| Modulus := 13; NbLimbs := 2; BitsPerLimb := 3 |};
     Reduce := fun a => ret a;
     ReduceStrict := solverReduce {| Modulus := 13; NbLimbs := 2; BitsPerLimb := 3 |};
     Sub := solverSub {| Modulus := 13; NbLimbs := 2; BitsPerLimb := 3 |} |}.

Example IsZero_toy_thirteen :
  IsZero toyField (ValueOf (fParams toyField) 13) []
  = Done (frontend.Wire 1, [CBool 1; CBool 0]).
Proof. reflexivity. Qed.

Example IsZero_toy_five :
  IsZero toyField (ValueOf (fParams toyField) 5) []
  = Done (frontend.Wire 0, [CBool 0; CBool 0]).
Proof. reflexivity. Qed.

Example ToBits_with_overflow :
  ToBits toyField
         {| Limbs := [frontend.Wire 9; frontend.Wire 3]; overflow := 1;
            internal := true; modReduced := false |} []
  = Done (map frontend.Wire [1; 0; 0; 0; 0; 1; 0],
          [CBool 0; CEq 4 4; CBool 1; CEq 9 9]).
Proof. reflexivity. Qed.

(** 7 <= 6 is refused, and so is 6 <= 5 when 5 sits on a single limb. *)
Example leq_seven_six_unsat :
  match AssertIsLessOrEqual exampleField (ValueOf secp256k1Fp 7) six [] with
  | Done (_, cs) => sat (q exampleField) cs
  | Panic _ => true
  end = false.
Proof. vm_compute. reflexivity. Qed.

Example leq_across_lengths :
  match AssertIsLessOrEqual exampleField oneLimb six [],
        AssertIsLessOrEqual exampleField six oneLimb [] with
  | Done (_, cs1), Done (_, cs2) =>
      (sat (q exampleField) cs1, sat (q exampleField) cs2)
  | _, _ => (false, true)
  end = (true, false).
Proof. vm_compute. reflexivity. Qed.

Example leq_overflow_panics :
  AssertIsLessOrEqual exampleField
    {| Limbs := Limbs five; overflow := 1; internal := true; modReduced := false |}
    six []
  = Panic "inputs must have 0 overflow".
Proof. reflexivity. Qed.

(** Two different constants abort the build. *)
Example AssertIsEqual_constants_differ :
  AssertIsEqual exampleField (constElement [5; 0; 0; 0]) (constElement [6]) []
  = Panic "ba != bb".
Proof. reflexivity. Qed.

(** With no bits at all FromBits panics: the limb count is zero and the
    unsigned [nbLimbs-1] wraps around. *)
Example FromBits_no_bits_panics (f : Field) (s : Builder) :
  exists msg, FromBits f [] s = Panic msg.
Proof.
  unfold FromBits.
  destruct (Nat.eqb_spec (BitsPerLimb (fParams f)) 0) as [E | E].
  - eexists. reflexivity.
  - cbn [length].
    replace ((0 + BitsPerLimb (fParams f) - 1) / BitsPerLimb (fParams f))%nat
      with 0%nat by (symmetry; apply Nat.div_small; lia).
    eexists. reflexivity.
Qed.

End EmulatedFacts.

(** ** Final exponentiation and the twist equation *)

Module PairingFacts.
Import fields_bn254 sw_bn254 BuilderFacts.

(** Zero in Fp2 and in Fp6: every coordinate is a multiple of p. *)
Definition e2zero (x : E2) : bool := (A0 x mod p =? 0) && (A1 x mod p =? 0).

Definition e6zero (x : E6) : bool :=
  e2zero (B0 x) && e2zero (B1 x) && e2zero (B2 x).

Lemma Ext2_IsZero_yields q x :
  yields (holds q) (Ext2_IsZero x) (frontend.Wire (Z.b2z (e2zero x))).
Proof.
  unfold Ext2_IsZero, frontend.And, fpIsZero, e2zero.
  destruct (A0 x mod p =? 0), (A1 x mod p =? 0);
    (eexists [_; _]; split; [intros s; reflexivity | reflexivity]).
Qed.

Lemma And_bits_yields q (a b : bool) :
  yields (holds q)
         (frontend.And (frontend.Wire (Z.b2z a)) (frontend.Wire (Z.b2z b)))
         (frontend.Wire (Z.b2z (a && b))).
Proof.
  destruct a, b; (eexists [_; _]; split; [intros s; reflexivity | reflexivity]).
Qed.

Lemma Ext6_IsZero_yields q x :
  yields (holds q) (Ext6_IsZero x) (frontend.Wire (Z.b2z (e6zero x))).
Proof.
  unfold Ext6_IsZero, e6zero.
  eapply yields_bind; [apply Ext2_IsZero_yields |].
  eapply yields_bind; [apply Ext2_IsZero_yields |].
  eapply yields_bind; [apply Ext2_IsZero_yields |].
  eapply yields_bind; [apply And_bits_yields |].
  apply And_bits_yields.
Qed.

Lemma fpSelect_yields q (b : bool) x y :
  yields (holds q) (fpSelect (frontend.Wire (Z.b2z b)) x y) (if b then x else y).
Proof.
  destruct b; (eexists [_]; split; [intros s; reflexivity | reflexivity]).
Qed.

Lemma Ext2_Select_yields q (b : bool) x y :
  yields (holds q) (Ext2_Select (frontend.Wire (Z.b2z b)) x y) (if b then x else y).
Proof.
  unfold Ext2_Select.
  eapply yields_bind; [apply fpSelect_yields |].
  eapply yields_bind; [apply fpSelect_yields |].
  destruct b, x, y; apply yields_ret.
Qed.

Lemma Ext6_Select_yields q (b : bool) x y :
  yields (holds q) (Ext6_Select (frontend.Wire (Z.b2z b)) x y) (if b then x else y).
Proof.
  unfold Ext6_Select.
  eapply yields_bind; [apply Ext2_Select_yields |].
  eapply yields_bind; [apply Ext2_Select_yields |].
  eapply yields_bind; [apply Ext2_Select_yields |].
  destruct b, x, y; apply yields_ret.
Qed.

Lemma Ext12_Select_yields q (b : bool) x y :
  yields (holds q) (Ext12_Select (frontend.Wire (Z.b2z b)) x y) (if b then x else y).
Proof.
  unfold Ext12_Select.
  eapply yields_bind; [apply Ext6_Select_yields |].
  eapply yields_bind; [apply Ext6_Select_yields |].
  destruct b, x, y; apply yields_ret.
Qed.

Lemma deref_yields pc (h : heap) e v :
  h !! e = Some v -> yields pc (deref h e) v.
Proof. intros H. unfold deref. rewrite H. apply yields_ret. Qed.

(** What [torusChain] returns on [ev]: the pair [(t0, t2)]. *)
Definition chainValues (pr : Pairing) (ev : GTEl) : E6 * E6 :=
  match torusChain pr ev [] with
  | Done (v, _) => v
  | Panic _ => (Ext6_Zero, Ext6_Zero)
  end.

Lemma torusChain_yields pr ev :
  yields (own_holds (q pr)) (torusChain pr ev) (chainValues pr ev).
Proof.
  assert (H : exists v, yields (own_holds (q pr)) (torusChain pr ev) v).
  { eexists. unfold torusChain.
    repeat (eapply yields_bind; [apply yields_call |]).
    apply yields_ret. }
  destruct H as (v & cs & Hrun & Hcs).
  exists cs. split; [| exact Hcs].
  unfold chainValues. now rewrite (Hrun []).
Qed.

(** The selector of the safe variant, from the two zero tests. *)
Lemma selector_value q (z1 z2 : bool) :
  1 < q ->
  frontend.Mul q
    (frontend.Sub q (frontend.Const 1) (frontend.Wire (Z.b2z z1)) [])
    (frontend.Sub q (frontend.Const 1) (frontend.Wire (Z.b2z z2)) [])
  = frontend.Wire (Z.b2z (negb z1 && negb z2)).
Proof.
  intros Hq. unfold frontend.Mul, frontend.Sub. simpl.
  destruct z1, z2; simpl;
    rewrite ?Z.mod_0_l, ?Z.mod_1_l by lia; simpl;
    rewrite ?Z.mod_0_l, ?Z.mod_1_l by lia; reflexivity.
Qed.

(** The value the safe variant stores in [e.C1.B0.A0]: the select on the
    degeneracy selector between the constant one and the old coordinate. *)
Definition patched (ev : GTEl) : GTEl :=
  set_C1_B0_A0 ev (if e6zero (C1 ev) then fpOne else A0 (B0 (C1 ev))).

Lemma patched_nondegenerate ev : e6zero (C1 ev) = false -> patched ev = ev.
Proof.
  intros H. unfold patched. rewrite H.
  destruct ev as [c0 [[a0 a1] b1 b2]]. reflexivity.
Qed.

Lemma patched_degenerate ev : e6zero (C1 ev) = true -> patched ev <> ev.
Proof.
  intros H Heq. unfold patched in Heq. rewrite H in Heq.
  destruct ev as [c0 [[a0 a1] b1 b2]].
  unfold e6zero, e2zero in H. simpl in H.
  injection Heq as Ha. unfold fpOne in Ha. subst a0.
  vm_compute in H. discriminate.
Qed.

(** The result of the safe variant, from the values of the chain. *)
Definition safeResult (pr : Pairing) (ev : GTEl) : GTEl :=
  let ev' := patched ev in
  let '(t0, t2) := chainValues pr ev' in
  let z2 := e6zero (fst (Ext6_Add pr t0 t2)) in
  let t0' := if z2 then Ext6_One else t0 in
  if negb (e6zero (C1 ev)) && negb z2
  then fst (DecompressTorus pr (fst (MulTorus pr t2 t0')))
  else Ext12_One.

(** The result of the unsafe variant. *)
Definition unsafeResult (pr : Pairing) (ev : GTEl) : GTEl :=
  let '(t0, t2) := chainValues pr ev in
  fst (DecompressTorus pr (fst (MulTorus pr t2 t0))).

Lemma finalExponentiation_safe pr e h ev :
  1 < q pr -> h !! e = Some ev ->
  yields (own_holds (q pr)) (finalExponentiation pr e false h)
         (fresh (dom (<[e := patched ev]> h)),
          <[fresh (dom (<[e := patched ev]> h)) := safeResult pr ev]>
            (<[e := patched ev]> h)).
Proof.
  intros Hq He. unfold finalExponentiation.
  eapply yields_bind.
  { eapply yields_bind; [apply deref_yields, He |].
    eapply yields_bind; [apply yields_own, Ext6_IsZero_yields |].
    eapply yields_bind; [apply yields_own, fpSelect_yields |].
    apply yields_ret. }
  cbn iota beta.
  eapply yields_bind; [apply deref_yields, lookup_insert_eq |].
  fold (patched ev).
  eapply yields_bind; [apply torusChain_yields |].
  unfold safeResult.
  destruct (chainValues pr (patched ev)) as [t0 t2].
  eapply yields_bind.
  { eapply yields_bind; [apply yields_call |].
    eapply yields_bind; [apply yields_own, Ext6_IsZero_yields |].
    eapply yields_bind; [apply yields_own, Ext6_Select_yields |].
    rewrite (selector_value _ _ _ Hq).
    eapply yields_bind; [apply yields_call |].
    eapply yields_bind; [apply yields_call |].
    apply yields_own, Ext12_Select_yields. }
  apply yields_ret.
Qed.

Lemma finalExponentiation_unsafe pr e h ev :
  h !! e = Some ev ->
  yields (own_holds (q pr)) (finalExponentiation pr e true h)
         (fresh (dom h), <[fresh (dom h) := unsafeResult pr ev]> h).
Proof.
  intros He. unfold finalExponentiation.
  eapply yields_bind; [apply yields_ret |].
  cbn iota beta.
  eapply yields_bind; [apply deref_yields, He |].
  eapply yields_bind; [apply torusChain_yields |].
  unfold unsafeResult.
  destruct (chainValues pr ev) as [t0 t2].
  eapply yields_bind.
  { eapply yields_bind; [apply yields_call |]. apply yields_call. }
  apply yields_ret.
Qed.

Lemma fresh_not_in (h : heap) e v : h !! e = Some v -> fresh (dom h) <> e.
Proof.
  intros He Heq.
  pose proof (is_fresh (dom h)) as Hf. rewrite Heq in Hf.
  apply Hf. apply elem_of_dom. eauto.
Qed.

(** C10.  The safe variant writes to its argument: after
    [FinalExponentiation] the caller's element has, in [C1.B0.A0], the select
    on the degeneracy selector between one and the old coordinate, so a
    degenerate input (C1 = 0) is no longer what the caller passed.  The
    unsafe variant leaves the element, and every other element of the
    caller, as it was; both return a fresh element. *)
Theorem finalExponentiation_safe_overwrites_input pr (e : loc) (h : heap)
        (s : Builder) (ev : GTEl)
  (Hq : 1 < q pr) (He : h !! e = Some ev) :
  (exists r h' cs,
      FinalExponentiation pr e h s = Done ((r, h'), cs ++ s) /\
      r <> e /\
      h' !! e = Some (set_C1_B0_A0 ev (if e6zero (C1 ev) then fpOne
                                       else A0 (B0 (C1 ev)))) /\
      (e6zero (C1 ev) = true -> h' !! e <> h !! e)) /\
  (exists r h' cs,
      FinalExponentiationUnsafe pr e h s = Done ((r, h'), cs ++ s) /\
      r <> e /\
      h' !! e = h !! e /\
      (forall l, l <> r -> h' !! l = h !! l)).
Proof.
  split.
  - destruct (finalExponentiation_safe pr e h ev Hq He) as (cs & Hrun & _).
    eexists _, _, cs. split; [apply Hrun |].
    assert (Hr : fresh (dom (<[e := patched ev]> h)) <> e).
    { apply (fresh_not_in _ _ (patched ev)). apply lookup_insert_eq. }
    split; [exact Hr |].
    rewrite lookup_insert_ne by exact Hr.
    rewrite lookup_insert_eq. split; [reflexivity |].
    intros Hz. rewrite He. intros [= Heq].
    now apply (patched_degenerate ev Hz).
  - destruct (finalExponentiation_unsafe pr e h ev He) as (cs & Hrun & _).
    eexists _, _, cs. split; [apply Hrun |].
    assert (Hr : fresh (dom h) <> e) by apply (fresh_not_in _ _ _ He).
    split; [exact Hr |]. split.
    + now rewrite lookup_insert_ne.
    + intros l Hl. now rewrite lookup_insert_ne.
Qed.

(** *** The twist equation *)

Definition xOf (Q : G2Affine) : E2 := X (P Q).
Definition yOf (Q : G2Affine) : E2 := Y (P Q).

(** The sentinel for the point at infinity: both coordinates are zero in
    Fp2. *)
Definition isInfinity (Q : G2Affine) : Prop :=
  A0 (xOf Q) mod p = 0 /\ A1 (xOf Q) mod p = 0 /\
  A0 (yOf Q) mod p = 0 /\ A1 (yOf Q) mod p = 0.

(** Y^2 = X^3 + b in Fp[u]/(u^2+1), coordinate by coordinate: with
    X = x0 + x1 u and Y = y0 + y1 u,
    y0^2 - y1^2 = x0^3 - 3 x0 x1^2 + b0 and
    2 y0 y1 = 3 x0^2 x1 - x1^3 + b1 modulo p. *)
Definition onTwist (b : E2) (Q : G2Affine) : Prop :=
  let x0 := A0 (xOf Q) in let x1 := A1 (xOf Q) in
  let y0 := A0 (yOf Q) in let y1 := A1 (yOf Q) in
  (y0 * y0 - y1 * y1) mod p = (x0 * x0 * x0 - 3 * x0 * x1 * x1 + A0 b) mod p /\
  (2 * y0 * y1) mod p = (3 * x0 * x0 * x1 - x1 * x1 * x1 + A1 b) mod p.

Lemma p_pos : 0 < p.
Proof. reflexivity. Qed.

Lemma mod_lin_sub (a b x y c : Z) :
  (a mod p * x - b mod p * y + c) mod p = (a * x - b * y + c) mod p.
Proof.
  rewrite (Z.mod_eq a p), (Z.mod_eq b p) by (pose proof p_pos; lia).
  replace ((a - p * (a / p)) * x - (b - p * (b / p)) * y + c)
    with (a * x - b * y + c + (- (a / p) * x + (b / p) * y) * p) by ring.
  apply Z.mod_add. pose proof p_pos; lia.
Qed.

Lemma mod_lin_add (a b x y c : Z) :
  (a mod p * x + b mod p * y + c) mod p = (a * x + b * y + c) mod p.
Proof.
  rewrite (Z.mod_eq a p), (Z.mod_eq b p) by (pose proof p_pos; lia).
  replace ((a - p * (a / p)) * x + (b - p * (b / p)) * y + c)
    with (a * x + b * y + c + (- (a / p) * x - (b / p) * y) * p) by ring.
  apply Z.mod_add. pose proof p_pos; lia.
Qed.

(** The two sides of the equation as [computeTwistEquation] builds them,
    for the constant [b] that the select leaves. *)
Lemma twist_sides (b : E2) (Q : G2Affine) :
  let left := Ext2_Square (yOf Q) in
  let right := Ext2_Add (Ext2_Mul (Ext2_Square (xOf Q)) (xOf Q)) b in
  ((A0 right - A0 left) mod p = 0 /\ (A1 right - A1 left) mod p = 0) <->
  onTwist b Q.
Proof.
  cbv zeta. unfold onTwist.
  destruct (xOf Q) as [x0 x1], (yOf Q) as [y0 y1]. cbn [A0 A1].
  rewrite <- !Z.cong_iff_0.
  unfold Ext2_Add, Ext2_Mul, Ext2_Square. cbn [A0 A1].
  rewrite !Z.mod_mod by (pose proof p_pos; lia).
  rewrite !Zplus_mod_idemp_l.
  rewrite mod_lin_sub, mod_lin_add.
  replace ((x0 + x1) * (x0 - x1) * x0 - 2 * (x0 * x1) * x1 + A0 b)
    with (x0 * x0 * x0 - 3 * x0 * x1 * x1 + A0 b) by ring.
  replace ((x0 + x1) * (x0 - x1) * x1 + 2 * (x0 * x1) * x0 + A1 b)
    with (3 * x0 * x0 * x1 - x1 * x1 * x1 + A1 b) by ring.
  replace ((y0 + y1) * (y0 - y1)) with (y0 * y0 - y1 * y1) by ring.
  replace (2 * (y0 * y1)) with (2 * y0 * y1) by ring.
  split; intros [H0 H1]; split; congruence.
Qed.

Lemma e2zero_spec (x : E2) :
  e2zero x = true <-> A0 x mod p = 0 /\ A1 x mod p = 0.
Proof. unfold e2zero. rewrite andb_true_iff, !Z.eqb_eq. reflexivity. Qed.

Lemma infinity_passes (Q : G2Affine) : isInfinity Q -> onTwist Ext2_Zero Q.
Proof.
  unfold isInfinity, onTwist. cbv zeta.
  destruct (xOf Q) as [x0 x1], (yOf Q) as [y0 y1]. cbn [A0 A1 Ext2_Zero fpZero].
  intros (Hx0 & Hx1 & Hy0 & Hy1).
  apply Z.mod_divide in Hx0, Hx1, Hy0, Hy1; try (pose proof p_pos; lia).
  destruct Hx0 as [a ->], Hx1 as [b ->], Hy0 as [c ->], Hy1 as [d ->].
  split.
  - transitivity 0; [| symmetry]; apply Z.mod_divide;
      try (pose proof p_pos; lia).
    + exists (c * c * p - d * d * p). ring.
    + exists (a * a * a * p * p - 3 * a * b * b * p * p). unfold fpZero. ring.
  - transitivity 0; [| symmetry]; apply Z.mod_divide;
      try (pose proof p_pos; lia).
    + exists (2 * c * d * p). ring.
    + exists (3 * a * a * b * p * p - b * b * b * p * p). unfold fpZero. ring.
Qed.

(** The curve constant is not a square root of anything at the origin: the
    origin does not satisfy the equation with the true constant. *)
Lemma infinity_off_twist (Q : G2Affine) :
  isInfinity Q -> ~ onTwist bTwistConst Q.
Proof.
  unfold isInfinity, onTwist. cbv zeta.
  destruct (xOf Q) as [x0 x1], (yOf Q) as [y0 y1]. cbn [A0 A1].
  intros (Hx0 & Hx1 & Hy0 & Hy1) [H0 _].
  apply Z.mod_divide in Hx0, Hx1, Hy0, Hy1; try (pose proof p_pos; lia).
  destruct Hx0 as [a ->], Hx1 as [b ->], Hy0 as [c ->], Hy1 as [d ->].
  replace (c * p * (c * p) - d * p * (d * p))
    with (0 + (c * c * p - d * d * p) * p) in H0 by ring.
  replace (a * p * (a * p) * (a * p) - 3 * (a * p) * (b * p) * (b * p)
           + A0 bTwistConst)
    with (A0 bTwistConst
          + (a * a * a * p * p - 3 * a * b * b * p * p) * p) in H0 by ring.
  rewrite !Z.mod_add in H0 by (pose proof p_pos; lia).
  vm_compute in H0. discriminate.
Qed.

(** C9.  The constant of NewPairing is 3/(9+u).  [AssertIsOnTwist] never
    panics, and the constraints it emits are satisfied exactly when Q is the
    sentinel (0,0), for which the constant is replaced by zero and the
    equation reads 0 = 0, or Q satisfies Y^2 = X^3 + 3/(9+u); the sentinel
    itself does not satisfy the equation with the true constant. *)
Theorem AssertIsOnTwist_iff_on_twist_or_infinity pr (Q : G2Affine)
        (s : Builder)
  (Hb : bTwist pr = bTwistConst) :
  Ext2_Mul {| A0 := 9; A1 := 1 |} bTwistConst = {| A0 := 3; A1 := 0 |} /\
  (isInfinity Q -> ~ onTwist bTwistConst Q) /\
  exists cs,
    AssertIsOnTwist pr Q s = Done (tt, cs ++ s) /\
    (sat (q pr) cs = true <-> isInfinity Q \/ onTwist bTwistConst Q).
Proof.
  split; [vm_compute; reflexivity |].
  split; [apply infinity_off_twist |].
  set (sel := e2zero (xOf Q) && e2zero (yOf Q)).
  set (b := if sel then Ext2_Zero else bTwistConst).
  assert (Hc : yields (holds (q pr)) (computeTwistEquation pr Q)
                 (Ext2_Square (yOf Q),
                  Ext2_Add (Ext2_Mul (Ext2_Square (xOf Q)) (xOf Q)) b)).
  { unfold computeTwistEquation.
    eapply yields_bind; [apply Ext2_IsZero_yields |].
    eapply yields_bind; [apply Ext2_IsZero_yields |].
    eapply yields_bind; [apply And_bits_yields |].
    eapply yields_bind; [apply Ext2_Select_yields |].
    rewrite Hb. apply yields_ret. }
  destruct Hc as (cs & Hrun & Hcs).
  set (left := Ext2_Square (yOf Q)) in *.
  set (right := Ext2_Add (Ext2_Mul (Ext2_Square (xOf Q)) (xOf Q)) b) in *.
  exists ([CZeroMod (A1 right - A1 left) p; CZeroMod (A0 right - A0 left) p] ++ cs).
  split.
  - unfold AssertIsOnTwist. rewrite (bind_done _ _ _ _ _ (Hrun s)).
    reflexivity.
  - rewrite sat_app. unfold sat at 2. rewrite Hcs, andb_true_r.
    cbn [sat forallb holds]. rewrite andb_true_r, andb_true_iff, !Z.eqb_eq.
    pose proof (twist_sides b Q) as Hts. cbv zeta in Hts.
    subst left right.
    transitivity (onTwist b Q); [tauto |]. clear Hts.
    subst b. destruct sel eqn:Hsel.
    + assert (Hinf : isInfinity Q).
      { subst sel. apply andb_true_iff in Hsel. destruct Hsel as [Hx Hy].
        apply e2zero_spec in Hx, Hy. unfold isInfinity. tauto. }
      split; [intros _; now left | intros _; now apply infinity_passes].
    + assert (Hinf : ~ isInfinity Q).
      { intros (Hx0 & Hx1 & Hy0 & Hy1).
        assert (e2zero (xOf Q) = true) by (apply e2zero_spec; tauto).
        assert (e2zero (yOf Q) = true) by (apply e2zero_spec; tauto).
        subst sel. rewrite H, H0 in Hsel. discriminate. }
      tauto.
Qed.

(** *** An instance for the examples *)

Definition e6map2 (g : Z -> Z -> Z) (x y : E6) : E6 :=
  let g2 a b := {| A0 := g (A0 a) (A0 b) mod p; A1 := g (A1 a) (A1 b) mod p |} in
  {| B0 := g2 (B0 x) (B0 y); B1 := g2 (B1 x) (B1 y); B2 := g2 (B2 x) (B2 y) |}.

(** A pairing whose collaborators are simple total functions: sums and
    differences in Fp6 coordinate by coordinate, identities elsewhere. *)
Definition samplePairing : Pairing :=
  {| q := 21888242871839275222246405745257275088548364400416034343698204186575808495617;
     bTwist := bTwistConst;
     curveF_Inverse := fun x => (x, true);
     curveF_Mul := fun x y => ((x * y) mod p, true);
     curveF_Neg := fun x => ((- x) mod p, true);
     Ext6_DivUnchecked := fun x y => (e6map2 Z.sub x y, true);
     Ext6_Neg := fun x => (e6map2 Z.sub Ext6_Zero x, true);
     Ext6_Add := fun x y => (e6map2 Z.add x y, true);
     FrobeniusTorus := fun x => (x, true);
     FrobeniusSquareTorus := fun x => (x, true);
     FrobeniusCubeTorus := fun x => (x, true);
     MulTorus := fun x y => (e6map2 Z.add x y, true);
     ExptTorus := fun x => (x, true);
     InverseTorus := fun x => (e6map2 Z.sub Ext6_Zero x, true);
     SquareTorus := fun x => (e6map2 Z.add x x, true);
     DecompressTorus := fun x => ({| C0 := x; C1 := Ext6_One |}, true);
     Square := fun x => (x, true);
     MulByElement := fun x _ => (x, true);
     Mul034By034 := fun a b c d => ((a, b, c, d, a), true);
     Mul01234By034 := fun _ _ _ => (Ext12_One, true);
     MulBy034 := fun x _ _ => (x, true);
     MulBy01234 := fun x _ => (x, true);
     computeLines := fun Q => (fun _ _ => {| R0 := X Q; R1 := Y Q |}, true) |}.

Definition two12 : GTEl :=
  {| C0 := Ext6_One;
     C1 := {| B0 := {| A0 := 2; A1 := 0 |}; B1 := Ext2_Zero; B2 := Ext2_Zero |} |}.

Lemma finalExponentiation_overwrite_witness :
  exists r h' cs,
    FinalExponentiation samplePairing 0%nat {[ 0%nat := Ext12_One ]} [] =
      Done ((r, h'), cs ++ []) /\
    r <> 0%nat /\
    h' !! 0%nat = Some {| C0 := Ext6_One; C1 := Ext6_One |} /\
    (true = true -> h' !! 0%nat <> ({[ 0%nat := Ext12_One ]} : heap) !! 0%nat).
Proof.
  exact (proj1 (finalExponentiation_safe_overwrites_input samplePairing 0%nat
                  {[ 0%nat := Ext12_One ]} [] Ext12_One eq_refl
                  (lookup_singleton_eq 0%nat Ext12_One))).
Defined.

(** The origin passes, and so does no point off the curve such as (1, 0). *)
Lemma AssertIsOnTwist_witness :
  exists cs,
    AssertIsOnTwist samplePairing
      {| P := {| X := Ext2_Zero; Y := Ext2_Zero |}; Lines := None |} [] =
      Done (tt, cs ++ []) /\
    (sat (q samplePairing) cs = true <->
     isInfinity {| P := {| X := Ext2_Zero; Y := Ext2_Zero |}; Lines := None |} \/
     onTwist bTwistConst
             {| P := {| X := Ext2_Zero; Y := Ext2_Zero |}; Lines := None |}).
Proof.
  exact (proj2 (proj2 (AssertIsOnTwist_iff_on_twist_or_infinity samplePairing
           {| P := {| X := Ext2_Zero; Y := Ext2_Zero |}; Lines := None |} []
           eq_refl))).
Defined.

End PairingFacts.

(* ------------------------------------------------------------------------- *)
(** ** std/math/emulated: the other methods of the two files

    [Field.enforceWidth], [Field.AssertIsInRange] and
    [Field.AssertIsDifferent]. *)

Module emulatedChecks.
Import emulated.

(** Modelled from the spec: the range checker behind [f.checker] is not among
    the sources.  It is the "bit-range check" gate of the constraint system:
    [v] fits in [nbBits] bits. *)
Definition Check (v : frontend.Var) (nbBits : Z) : M unit :=
  emit (CWidth (frontend.val v) (Z.to_nat nbBits)).

(** Field.enforceWidth.  [%] is Go's remainder (it truncates towards zero and
    panics on a zero divisor). *)
Definition enforceWidth (f : Field) (a : Element) (modWidth : bool) : M unit :=
  let bpl := BitsPerLimb (fParams f) in
  (match constantValue f a with
   | Some _ =>
       if (modWidth && negb (length (Limbs a) =? NbLimbs (fParams f))%nat)%bool
       then panic "constant limb width doesn't match parametrized field"
       else ret tt
   | None => ret tt
   end) ;;;
  (if (modWidth && negb (length (Limbs a) =? NbLimbs (fParams f))%nat)%bool
   then panic "enforcing modulus width element with inexact number of limbs"
   else ret tt) ;;;
  foldM (fun (_ : unit) i =>
           limbNbBits <-
             (if (modWidth && (i =? length (Limbs a) - 1)%nat)%bool
              then
                (* take only required bits from the most significant limb *)
                if (bpl =? 0)%nat then panic "integer divide by zero"
                else ret (Z.rem (Z.of_nat (BitLen (Modulus (fParams f))) - 1)
                                (Z.of_nat bpl) + 1)
              else ret (Z.of_nat bpl)) ;;
           l <- index (Limbs a) i ;;
           Check l limbNbBits)
        (seq 0 (length (Limbs a))) tt.

(** Modelled from the spec: Field.modulusPrev is not among the sources.
    "asserts a <= modulus - 1": the constant element of value [modulus - 1]
    on NbLimbs limbs. *)
Definition modulusPrev (f : Field) : Element :=
  {| Limbs := map frontend.Const
                (decompose (BitsPerLimb (fParams f)) (NbLimbs (fParams f))
                           (Modulus (fParams f) - 1));
     overflow := 0; internal := true; modReduced := true |}.

(** [a.modReduced = true] on the element the caller holds. *)
Definition markReduced (a : Element) : Element :=
  {| Limbs := Limbs a; overflow := overflow a; internal := internal a;
     modReduced := true |}.

(** Field.AssertIsInRange.  The element is passed by pointer and its flag is
    set in place: the method returns the element as the caller sees it
    afterwards. *)
Definition AssertIsInRange (f : Field) (a : Element) : M Element :=
  (* short path - this element is already enforced to be less than the modulus *)
  if modReduced a then ret a else
  AssertIsLessOrEqual f a (modulusPrev f) ;;;
  ret (markReduced a).


End emulatedChecks.

(* ------------------------------------------------------------------------- *)
(** ** Width checks, range assertion and inequality *)

Module EmulatedChecksFacts.
Import emulated emulatedChecks BuilderFacts EmulatedFacts.

Lemma holds_CWidth q0 (v : Z) (k : nat) :
  holds q0 (CWidth v k) = true <-> inRange k v.
Proof.
  unfold inRange. simpl. rewrite andb_true_iff, Z.leb_le, Z.ltb_lt. tauto.
Qed.

(** The width [enforceWidth] checks limb [i] against. *)
Definition widthAt (f : Field) (a : Element) (modWidth : bool) (i : nat) : nat :=
  if (modWidth && (i =? length (Limbs a) - 1)%nat)%bool
  then Z.to_nat (Z.rem (Z.of_nat (BitLen (Modulus (fParams f))) - 1)
                       (Z.of_nat (BitsPerLimb (fParams f))) + 1)
  else BitsPerLimb (fParams f).

Lemma enforceWidth_loop (f : Field) (a : Element) (modWidth : bool) :
  (modWidth = true -> (0 < BitsPerLimb (fParams f))%nat) ->
  forall m k s, (k + m <= length (Limbs a))%nat ->
    exists cs,
      foldM (fun (_ : unit) i =>
               limbNbBits <-
                 (if (modWidth && (i =? length (Limbs a) - 1)%nat)%bool
                  then
                    if (BitsPerLimb (fParams f) =? 0)%nat
                    then panic "integer divide by zero"
                    else ret (Z.rem (Z.of_nat (BitLen (Modulus (fParams f))) - 1)
                                    (Z.of_nat (BitsPerLimb (fParams f))) + 1)
                  else ret (Z.of_nat (BitsPerLimb (fParams f)))) ;;
               l <- index (Limbs a) i ;;
               Check l limbNbBits)
            (seq k m) tt s = Done (tt, cs ++ s) /\
      length cs = m /\
      (sat (q f) cs = true <->
       forall i l, (k <= i < k + m)%nat ->
                   nth_error (map frontend.val (Limbs a)) i = Some l ->
                   inRange (widthAt f a modWidth i) l).
Proof.
  intros Hw. induction m as [| m IH]; intros k s Hk.
  - exists []. split; [reflexivity |]. split; [reflexivity |].
    split; [intros _ i l Hi; lia | reflexivity].
  - destruct (nth_error (Limbs a) k) as [x |] eqn:Ex;
      [| apply nth_error_None in Ex; lia].
    destruct (IH (S k) (CWidth (frontend.val x) (widthAt f a modWidth k) :: s)
                ltac:(lia)) as (cs & Hrun & Hlen & Hsat).
    exists (cs ++ [CWidth (frontend.val x) (widthAt f a modWidth k)]).
    split; [| split].
    + cbn [seq foldM]. unfold bind at 1. unfold bind at 1.
      assert (Hstep : exists wz,
        (if (modWidth && (k =? length (Limbs a) - 1)%nat)%bool
         then
           if (BitsPerLimb (fParams f) =? 0)%nat
           then panic "integer divide by zero"
           else ret (Z.rem (Z.of_nat (BitLen (Modulus (fParams f))) - 1)
                           (Z.of_nat (BitsPerLimb (fParams f))) + 1)
         else ret (Z.of_nat (BitsPerLimb (fParams f)))) s = Done (wz, s) /\
        Z.to_nat wz = widthAt f a modWidth k).
      { unfold widthAt.
        destruct (modWidth && (k =? length (Limbs a) - 1)%nat)%bool eqn:E.
        - apply andb_true_iff in E. destruct E as [-> _].
          destruct (Nat.eqb_spec (BitsPerLimb (fParams f)) 0) as [E0 | _];
            [specialize (Hw eq_refl); lia |].
          eexists. split; reflexivity.
        - eexists. split; [reflexivity | apply Nat2Z.id]. }
      destruct Hstep as (wz & -> & Hwz).
      unfold bind at 1. rewrite (index_run _ _ _ s Ex).
      change (Check x wz s)
        with (Done (tt, CWidth (frontend.val x) (Z.to_nat wz) :: s)).
      cbv iota beta. rewrite Hwz, Hrun. now rewrite <- app_assoc.
    + rewrite length_app, Hlen. simpl. lia.
    + rewrite sat_app, andb_true_iff, Hsat. cbn [sat forallb].
      rewrite andb_true_r, holds_CWidth.
      split.
      * intros [Hrest Hx] i l Hi Hl.
        destruct (Nat.eq_dec i k) as [-> | Hne].
        -- rewrite nth_error_map, Ex in Hl. inversion Hl. subst. exact Hx.
        -- apply Hrest; [lia | exact Hl].
      * intros H. split.
        -- intros i l Hi Hl. apply H; [lia | exact Hl].
        -- apply H; [lia |]. now rewrite nth_error_map, Ex.
Qed.

Lemma Forall_nth_error_iff {A} (P : A -> Prop) (xs : list A) :
  Forall P xs <-> forall i x, nth_error xs i = Some x -> P x.
Proof.
  rewrite List.Forall_forall. split.
  - intros H i x Hx. apply H. eapply nth_error_In, Hx.
  - intros H x Hx. apply In_nth_error in Hx. destruct Hx as [i Hi]. eauto.
Qed.

(** X1.  Without the modulus-width flag [enforceWidth] never panics,
    whatever the element (a constant, or one with a number of limbs that is
    not the field's): it calls the range checker once for every limb, and
    the checks hold exactly when every limb fits in [bitsPerLimb] bits. *)
Theorem enforceWidth_checks_every_limb (f : Field) (a : Element) (s : Builder) :
  exists cs,
    enforceWidth f a false s = Done (tt, cs ++ s) /\
    length cs = length (Limbs a) /\
    (sat (q f) cs = true <->
     Forall (inRange (BitsPerLimb (fParams f))) (map frontend.val (Limbs a))).
Proof.
  destruct (enforceWidth_loop f a false ltac:(discriminate)
              (length (Limbs a)) 0%nat s ltac:(lia))
    as (cs & Hrun & Hlen & Hsat).
  exists cs. split; [| split; [exact Hlen |]].
  - unfold enforceWidth. cbn [andb].
    destruct (constantValue f a); cbn [bind ret]; exact Hrun.
  - rewrite Hsat, Forall_nth_error_iff. unfold widthAt. cbn [andb].
    split.
    + intros H i l Hl. apply (H i l); [| exact Hl].
      assert (i < length (map frontend.val (Limbs a)))%nat
        by (apply nth_error_Some; congruence).
      rewrite length_map in *. lia.
    + intros H i l _ Hl. now apply (H i l).
Qed.

(** The width of the most significant limb of an element as wide as the
    modulus. *)
Definition topBits (f : Field) : nat :=
  ((BitLen (Modulus (fParams f)) - 1) mod BitsPerLimb (fParams f) + 1)%nat.

Lemma widthAt_top (f : Field) (a : Element) (i : nat) :
  (0 < BitsPerLimb (fParams f))%nat -> 0 < Modulus (fParams f) ->
  widthAt f a true i
  = if (i =? length (Limbs a) - 1)%nat then topBits f else BitsPerLimb (fParams f).
Proof.
  intros Hw Hp. unfold widthAt, topBits. cbn [andb].
  destruct (i =? length (Limbs a) - 1)%nat; [| reflexivity].
  pose proof (BitLen_bounds _ Hp) as Hb.
  assert (0 < BitLen (Modulus (fParams f)))%nat.
  { destruct (BitLen (Modulus (fParams f))); [simpl in Hb; lia | lia]. }
  rewrite Z.rem_mod_nonneg by lia.
  rewrite <- (Nat2Z.inj_sub _ 1) by lia.
  rewrite <- Nat2Z.inj_mod. lia.
Qed.

(** X2.  With the modulus-width flag [enforceWidth] panics exactly when the
    element is not on NbLimbs limbs, with one message for a constant and
    another for a variable.  Otherwise it calls the range checker once for
    every limb, also of a constant, and the checks hold exactly when every
    limb but the last fits in [bitsPerLimb] bits and the last one in
    [((BitLen(modulus) - 1) mod bitsPerLimb) + 1] bits. *)
Theorem enforceWidth_modulus_width (f : Field) (a : Element) (s : Builder)
  (Hw : (0 < BitsPerLimb (fParams f))%nat)
  (Hp : 0 < Modulus (fParams f)) :
  if (length (Limbs a) =? NbLimbs (fParams f))%nat
  then exists cs,
      enforceWidth f a true s = Done (tt, cs ++ s) /\
      length cs = NbLimbs (fParams f) /\
      (sat (q f) cs = true <->
       forall i l, nth_error (map frontend.val (Limbs a)) i = Some l ->
                   inRange (if (i =? NbLimbs (fParams f) - 1)%nat
                            then topBits f else BitsPerLimb (fParams f)) l)
  else enforceWidth f a true s =
       Panic (match constantValue f a with
              | Some _ => "constant limb width doesn't match parametrized field"
              | None => "enforcing modulus width element with inexact number of limbs"
              end).
Proof.
  unfold enforceWidth. cbn [andb].
  destruct (Nat.eqb_spec (length (Limbs a)) (NbLimbs (fParams f))) as [E | E];
    cbn [negb].
  - destruct (enforceWidth_loop f a true ltac:(auto)
                (length (Limbs a)) 0%nat s ltac:(lia))
      as (cs & Hrun & Hlen & Hsat).
    exists cs. split; [| split; [congruence |]].
    + destruct (constantValue f a); cbn [bind ret]; exact Hrun.
    + rewrite Hsat. rewrite <- E. split.
      * intros H i l Hl. rewrite <- (widthAt_top f a i Hw Hp).
        apply (H i l); [| exact Hl].
        assert (i < length (map frontend.val (Limbs a)))%nat
          by (apply nth_error_Some; congruence).
        rewrite length_map in *. lia.
      * intros H i l _ Hl. rewrite (widthAt_top f a i Hw Hp). now apply (H i l).
  - destruct (constantValue f a); reflexivity.
Qed.

Lemma nth_error_split_last {A} (xs : list A) (x : A) :
  nth_error xs (length xs - 1) = Some x ->
  xs = firstn (length xs - 1) xs ++ [x].
Proof.
  intros H.
  rewrite <- (firstn_skipn (length xs - 1) xs) at 1. f_equal.
  rewrite (skipn_cons_nth _ _ _ H). f_equal.
  apply skipn_all2.
  assert (length xs - 1 < length xs)%nat by (apply nth_error_Some; congruence).
  lia.
Qed.

(** X3.  When NbLimbs is the least number of limbs that holds the modulus, an
    element that passes [enforceWidth] with the modulus-width flag has a
    value below [2^BitLen(modulus)], hence below twice the modulus: it is the
    canonical representative or that plus the modulus. *)
Theorem enforceWidth_modulus_width_bounds_value (f : Field) (a : Element)
        (s : Builder) (cs : list Constraint)
  (Hw : (0 < BitsPerLimb (fParams f))%nat)
  (Hp : 0 < Modulus (fParams f))
  (Hmin : ((NbLimbs (fParams f) - 1) * BitsPerLimb (fParams f)
           < BitLen (Modulus (fParams f))
           <= NbLimbs (fParams f) * BitsPerLimb (fParams f))%nat)
  (Hrun : enforceWidth f a true s = Done (tt, cs ++ s))
  (Hsat : sat (q f) cs = true) :
  0 <= value f a < 2 ^ Z.of_nat (BitLen (Modulus (fParams f))) /\
  value f a < 2 * Modulus (fParams f).
Proof.
  set (w := BitsPerLimb (fParams f)) in *.
  set (n := NbLimbs (fParams f)) in *.
  set (B := BitLen (Modulus (fParams f))) in *.
  assert (Hlen : length (Limbs a) = n).
  { unfold enforceWidth in Hrun. cbn [andb] in Hrun. fold n in Hrun.
    destruct (Nat.eqb_spec (length (Limbs a)) n) as [E | E]; [exact E |].
    destruct (constantValue f a); discriminate. }
  destruct (enforceWidth_loop f a true ltac:(auto)
              (length (Limbs a)) 0%nat s ltac:(lia))
    as (cs' & Hrun' & _ & Hsat').
  assert (Hcs : cs' = cs).
  { unfold enforceWidth in Hrun. cbn [andb] in Hrun. fold n in Hrun.
    rewrite Hlen, Nat.eqb_refl in Hrun. cbn [negb] in Hrun.
    rewrite <- Hlen in Hrun.
    assert (E : Done (tt, cs' ++ s) = Done (tt, cs ++ s)).
    { rewrite <- Hrun', <- Hrun.
      destruct (constantValue f a); reflexivity. }
    inversion E as [E']. now apply app_inv_tail in E'. }
  subst cs'. rewrite Hsat' in Hsat. clear Hsat' Hrun' Hrun.
  assert (Hn : (0 < n)%nat) by lia.
  set (vals := map frontend.val (Limbs a)) in *.
  assert (Hvl : length vals = n) by (unfold vals; now rewrite length_map).
  destruct (nth_error vals (n - 1)) as [top |] eqn:Etop;
    [| apply nth_error_None in Etop; lia].
  pose proof Etop as Esplit. rewrite <- Hvl in Esplit.
  apply nth_error_split_last in Esplit. rewrite Hvl in Esplit.
  assert (Htop : inRange (topBits f) top).
  { pose proof (Hsat (n - 1)%nat top ltac:(lia) Etop) as H.
    rewrite (widthAt_top f a _ Hw Hp), Hlen, Nat.eqb_refl in H. exact H. }
  assert (Hinit : Forall (inRange w) (firstn (n - 1) vals)).
  { apply Forall_nth_error_iff. intros i l Hl.
    assert (Hi : (i < n - 1)%nat).
    { assert (i < length (firstn (n - 1) vals))%nat
        by (apply nth_error_Some; congruence).
      rewrite length_firstn in *. lia. }
    rewrite nth_error_firstn in Hl.
    destruct (Nat.ltb_spec i (n - 1)); [| lia].
    pose proof (Hsat i l ltac:(lia) Hl) as Hil.
    rewrite (widthAt_top f a _ Hw Hp), Hlen in Hil.
    destruct (Nat.eqb_spec i (n - 1)); [lia | exact Hil]. }
  assert (Htb : (topBits f + (n - 1) * w = B)%nat).
  { unfold topBits. fold w B.
    assert (E : ((B - 1) mod w = B - 1 - (n - 1) * w)%nat).
    { symmetry. apply Nat.mod_unique with (q := (n - 1)%nat); nia. }
    rewrite E. nia. }
  unfold value. fold w vals. rewrite Esplit, recompose_app.
  cbn [recompose]. rewrite Z.mul_0_r, Z.add_0_r.
  pose proof (recompose_nonneg w _ Hinit) as H0.
  pose proof (recompose_lt w _ Hinit) as H1.
  rewrite length_firstn, Hvl, Nat.min_l in * by lia.
  pose proof (pow2_pos (w * (n - 1))) as Hpw.
  unfold inRange in Htop.
  assert (HB : 2 ^ Z.of_nat B
               = 2 ^ Z.of_nat (w * (n - 1)) * 2 ^ Z.of_nat (topBits f)).
  { rewrite <- Z.pow_add_r by apply Nat2Z.is_nonneg. f_equal.
    rewrite <- Htb, (Nat.mul_comm (n - 1) w). lia. }
  pose proof (BitLen_bounds _ Hp) as Hbl. fold B in Hbl.
  assert (HB0 : (0 < B)%nat) by nia.
  assert (HB2 : 2 ^ Z.of_nat B = 2 * 2 ^ (Z.of_nat B - 1)).
  { rewrite <- Z.pow_succ_r by lia. f_equal. lia. }
  split; [split |]; nia.
Qed.

(** The toy layout with the width checks of this file: modulus 13 on two
    limbs of three bits, so that the top limb holds one bit. *)
Lemma enforceWidth_modulus_width_witness :
  exists cs,
    enforceWidth toyField (ValueOf (fParams toyField) 13) true [] = Done (tt, cs ++ []) /\
    length cs = 2%nat /\
    (sat 97 cs = true <->
     forall i l, nth_error [5; 1] i = Some l ->
                 inRange (if (i =? 1)%nat then topBits toyField else 3%nat) l).
Proof.
  exact (enforceWidth_modulus_width toyField (ValueOf (fParams toyField) 13) []
           ltac:(vm_compute; lia) ltac:(reflexivity)).
Defined.

Lemma enforceWidth_bounds_witness :
  0 <= value toyField (ValueOf (fParams toyField) 13) < 2 ^ Z.of_nat 4 /\
  value toyField (ValueOf (fParams toyField) 13) < 2 * 13.
Proof.
  refine (enforceWidth_modulus_width_bounds_value toyField
            (ValueOf (fParams toyField) 13) [] [CWidth 1 1; CWidth 5 3]
            _ _ _ _ _).
  - vm_compute. lia.
  - reflexivity.
  - vm_compute. lia.
  - reflexivity.
  - reflexivity.
Defined.

(** *** AssertIsInRange *)

Lemma AssertIsLessOrEqual_run (f : Field) (e a : Element) (s : Builder) :
  2 ^ Z.of_nat (BitsPerLimb (fParams f)) <= q f -> 1 < q f ->
  overflow e = 0%nat -> overflow a = 0%nat ->
  wellFormed f e -> wellFormed f a ->
  (forall x s0, wellFormed f x ->
     exists ce, enforceWidthConditional f x s0 = Done (tt, ce ++ s0) /\
                sat (q f) ce = true) ->
  exists cs,
    AssertIsLessOrEqual f e a s = Done (tt, cs ++ s) /\
    (sat (q f) cs = true <-> value f e <= value f a).
Proof.
  intros Hq Hq1 Hoe Hoa He Ha Henf.
  unfold AssertIsLessOrEqual.
  destruct (Nat.ltb_spec 0 (overflow e + overflow a)) as [Hov | Hov]; [lia |].
  destruct (ToBits_value f e s Hoe Hq He (Henf e s He))
    as (eb & cs1 & Hrun1 & Hsat1 & Hbe & Hve & _).
  destruct (ToBits_value f a (cs1 ++ s) Hoa Hq Ha (Henf a _ Ha))
    as (ab & cs2 & Hrun2 & Hsat2 & Hba & Hva & _).
  rewrite (bind_done _ _ _ _ _ Hrun1), (bind_done _ _ _ _ _ Hrun2).
  assert (Hfin : forall eb' ab',
             length eb' = length ab' ->
             Forall isBit (map frontend.val eb') ->
             Forall isBit (map frontend.val ab') ->
             bits_value (map frontend.val eb') = value f e ->
             bits_value (map frontend.val ab') = value f a ->
             exists cs,
               leqLoop f eb' ab' (length eb') (frontend.Const 1) (cs2 ++ cs1 ++ s)
               = Done (tt, cs ++ s) /\
               (sat (q f) cs = true <-> value f e <= value f a)).
  { intros eb' ab' Hlen Hbe' Hba' Hve' Hva'.
    destruct (leqLoop_run f eb' ab' Hq1 Hbe' Hba' (length eb') (frontend.Const 1)
                (cs2 ++ cs1 ++ s) true ltac:(lia) ltac:(lia) eq_refl)
      as (cs & Hrun & Hsat).
    exists (cs ++ cs2 ++ cs1). split.
    - rewrite Hrun. now rewrite <- !app_assoc.
    - rewrite !sat_app, Hsat1, Hsat2, !andb_true_r, Hsat.
      rewrite <- (length_map frontend.val eb') at 1.
      rewrite Hlen, <- (length_map frontend.val ab').
      rewrite !firstn_all, Hve', Hva'.
      split; [intros [H | H]; [discriminate | exact H] | now right]. }
  destruct (Nat.ltb_spec (length ab) (length eb)) as [Hlt | Hge].
  - unfold ff. destruct (Nat.leb_spec (length ab) (length eb)) as [_ | ?]; [| lia].
    cbn [bind ret].
    apply Hfin; auto using pad_bits.
    + rewrite length_app, repeat_length. lia.
    + now rewrite pad_value.
  - unfold ff. destruct (Nat.leb_spec (length eb) (length ab)) as [_ | ?]; [| lia].
    cbn [bind ret].
    apply Hfin; auto using pad_bits.
    + rewrite length_app, repeat_length. lia.
    + now rewrite pad_value.
Qed.

Lemma modulusPrev_value (f : Field) :
  0 < Modulus (fParams f)
    <= 2 ^ Z.of_nat (BitsPerLimb (fParams f) * NbLimbs (fParams f)) ->
  value f (modulusPrev f) = Modulus (fParams f) - 1.
Proof.
  intros Hp. unfold value, modulusPrev. cbn [Limbs].
  rewrite map_map. cbn [frontend.val]. rewrite map_id, recompose_decompose.
  apply Z.mod_small. lia.
Qed.

Lemma modulusPrev_wellFormed (f : Field) : wellFormed f (modulusPrev f).
Proof.
  split.
  - unfold modulusPrev. cbn [Limbs]. rewrite map_map. cbn [frontend.val].
    rewrite map_id. apply decompose_inRange.
  - intros _. unfold value, modulusPrev. cbn [Limbs].
    rewrite map_map. cbn [frontend.val]. rewrite map_id, recompose_decompose.
    apply Z.mod_pos_bound, pow2_pos.
Qed.

(** X4.  [AssertIsInRange] does nothing on an element already marked
    [modReduced]: no constraint, and the element as it was.  On any other
    element it panics when the element has overflow, and otherwise marks the
    element [modReduced], keeps its limbs, and emits constraints that are
    satisfied exactly when the value is below the modulus. *)
Theorem AssertIsInRange_iff_below_modulus (f : Field) (a : Element) (s : Builder)
  (Hq : 2 ^ Z.of_nat (BitsPerLimb (fParams f)) <= q f)
  (Hq1 : 1 < q f)
  (Hp : 0 < Modulus (fParams f)
        <= 2 ^ Z.of_nat (BitsPerLimb (fParams f) * NbLimbs (fParams f)))
  (Ha : wellFormed f a)
  (Henf : forall x s0, wellFormed f x ->
          exists ce, enforceWidthConditional f x s0 = Done (tt, ce ++ s0) /\
                     sat (q f) ce = true) :
  if modReduced a then AssertIsInRange f a s = Done (a, s)
  else if (0 <? overflow a)%nat
  then AssertIsInRange f a s = Panic "inputs must have 0 overflow"
  else exists cs,
      AssertIsInRange f a s = Done (markReduced a, cs ++ s) /\
      Limbs (markReduced a) = Limbs a /\ modReduced (markReduced a) = true /\
      (sat (q f) cs = true <-> value f a < Modulus (fParams f)).
Proof.
  unfold AssertIsInRange.
  destruct (modReduced a); [reflexivity |].
  destruct (Nat.ltb_spec 0 (overflow a)) as [Hov | Hov].
  - unfold AssertIsLessOrEqual, bind.
    destruct (Nat.ltb_spec 0 (overflow a + overflow (modulusPrev f)));
      [reflexivity | lia].
  - destruct (AssertIsLessOrEqual_run f a (modulusPrev f) s Hq Hq1
                ltac:(lia) eq_refl Ha (modulusPrev_wellFormed f) Henf)
      as (cs & Hrun & Hsat).
    exists cs. rewrite (bind_done _ _ _ _ _ Hrun).
    split; [reflexivity |]. split; [reflexivity |]. split; [reflexivity |].
    rewrite Hsat, (modulusPrev_value f Hp). lia.
Qed.

(** 5 is below the modulus of secp256k1's base field. *)
Lemma AssertIsInRange_witness :
  exists cs,
    AssertIsInRange exampleField five [] = Done (markReduced five, cs ++ []) /\
    Limbs (markReduced five) = Limbs five /\
    modReduced (markReduced five) = true /\
    (sat (q exampleField) cs = true <->
     value exampleField five < Modulus (fParams exampleField)).
Proof.
  refine (AssertIsInRange_iff_below_modulus exampleField five [] _ _ _ _ _).
  - vm_compute. congruence.
  - reflexivity.
  - split; [reflexivity | vm_compute; congruence].
  - apply wellFormed_ValueOf_small. lia.
  - intros x s0 [Hr _]. now apply solverEnforceWidth_sat.
Defined.

(** *** AssertIsDifferent *)

Section DifferentFacts.
Variable f : Field.
Let w := BitsPerLimb (fParams f).
Let n := NbLimbs (fParams f).
Let p := Modulus (fParams f).
Hypothesis Hq : 2 ^ Z.of_nat (w + maxOverflow f) < q f.
Hypothesis Hn : (0 < n)%nat.
Hypothesis Hp : 0 < p < 2 ^ Z.of_nat (w * n).



End DifferentFacts.


End EmulatedChecksFacts.

(* ------------------------------------------------------------------------- *)
(** ** Bits of an element with overflow, and bits packed into an element *)

Module EmulatedBitsFacts.
Import emulated BuilderFacts EmulatedFacts.

Lemma digits_app (v : Z) (a b : nat) :
  digits v (a + b) = digits v a ++ digits (v / 2 ^ Z.of_nat a) b.
Proof.
  revert v. induction a as [| a IH]; intros v.
  - simpl. now rewrite Z.div_1_r.
  - cbn [Nat.add]. rewrite !digits_succ, IH. cbn [app]. do 2 f_equal.
    rewrite Nat2Z.inj_succ, Z.pow_succ_r by lia.
    pose proof (pow2_pos a).
    rewrite Z.div_div by lia. reflexivity.
Qed.

Lemma mod_pow2_fits (v : Z) (k : nat) :
  0 <= v -> (v mod 2 ^ Z.of_nat k = v <-> v < 2 ^ Z.of_nat k).
Proof.
  intros Hv. pose proof (pow2_pos k) as Hk. split; intros H.
  - pose proof (Z.mod_pos_bound v (2 ^ Z.of_nat k) Hk). lia.
  - apply Z.mod_small. lia.
Qed.

(** One round of the loop of ToBits, on values: the digits are those of the
    limb plus the incoming carry, the outgoing carry is what the digits
    above [bitsPerLimb] spell, and the round's constraints hold exactly when
    the sum fits the digits it is given. *)
Lemma toBitsStep_value f a carry full lb limb s :
  let w := BitsPerLimb (fParams f) in
  let o := overflow a in
  2 ^ Z.of_nat (w + o) <= q f ->
  0 <= frontend.val limb -> 0 <= frontend.val carry < 2 ^ Z.of_nat o ->
  frontend.val limb + frontend.val carry < q f ->
  exists carry' ds cs,
    toBitsStep f a (carry, full, lb) limb s =
      Done ((carry', full ++ firstn w ds, ds), cs ++ s) /\
    map frontend.val ds = digits (frontend.val limb + frontend.val carry) (w + o) /\
    0 <= frontend.val carry' < 2 ^ Z.of_nat o /\
    bits_value (skipn w (map frontend.val ds)) = frontend.val carry' /\
    (sat (q f) cs = true <->
     frontend.val limb + frontend.val carry < 2 ^ Z.of_nat (w + o)) /\
    (sat (q f) cs = true ->
     bits_value (firstn w (map frontend.val ds))
     + 2 ^ Z.of_nat w * frontend.val carry'
     = frontend.val limb + frontend.val carry).
Proof.
  intros w o Hq Hl Hc Hsum.
  set (v := frontend.val limb + frontend.val carry) in *.
  assert (Hv0 : 0 <= v) by (unfold v; lia).
  pose proof (pow2_pos w) as Hw. pose proof (pow2_pos o) as Ho.
  pose proof (pow2_pos (w + o)) as Hwo.
  assert (Hpow : 2 ^ Z.of_nat (w + o) = 2 ^ Z.of_nat w * 2 ^ Z.of_nat o).
  { rewrite Nat2Z.inj_add, Z.pow_add_r by lia. reflexivity. }
  unfold toBitsStep. fold w o.
  destruct (ToBinary_run (frontend.Add (q f) limb carry) (w + o) s)
    as (ds & Hrun & Hds & Hlen).
  rewrite val_Add in Hrun, Hds. fold v in Hrun, Hds.
  rewrite (Z.mod_small v) in Hrun, Hds by lia.
  rewrite (bind_done _ _ _ _ _ Hrun).
  rewrite (bind_done _ _ _ _ _ (slice_run ds 0 w _ ltac:(lia) ltac:(lia))).
  rewrite Nat.sub_0_r, skipn_O.
  assert (Hhigh : skipn w (map frontend.val ds) = digits (v / 2 ^ Z.of_nat w) o).
  { rewrite Hds, digits_app, skipn_app, length_digits, Nat.sub_diag.
    rewrite skipn_all2 by (rewrite length_digits; lia). reflexivity. }
  assert (Hlow : firstn w (map frontend.val ds) = digits v w).
  { rewrite Hds, digits_app, firstn_app, length_digits, Nat.sub_diag.
    rewrite firstn_all2 by (rewrite length_digits; lia).
    cbn [firstn]. now rewrite app_nil_r. }
  assert (Hceq : holds (q f) (CEq (bits_value (map frontend.val ds)) v) = true
                 <-> v < 2 ^ Z.of_nat (w + o)).
  { cbn [holds]. rewrite Z.eqb_eq, Hds, bits_value_digits.
    pose proof (Z.mod_pos_bound v (2 ^ Z.of_nat (w + o)) Hwo).
    rewrite (Z.mod_small (v mod _) (q f)), (Z.mod_small v (q f)) by lia.
    apply mod_pow2_fits. lia. }
  assert (Hdiv : v < 2 ^ Z.of_nat (w + o) -> v / 2 ^ Z.of_nat w < 2 ^ Z.of_nat o).
  { intros Hv. apply Z.div_lt_upper_bound; lia. }
  destruct (Nat.ltb_spec 0 o) as [Hov | Hov].
  - rewrite (bind_done _ _ _ _ _ (slice_run ds w (length ds) _ ltac:(lia) ltac:(lia))).
    rewrite firstn_all2 by (rewrite length_skipn; lia).
    destruct (FromBinary_run (q f) (skipn w ds)
                (CEq (bits_value (map frontend.val ds)) v :: s))
      as (cs & Hfb & Hsatfb).
    rewrite (bind_done _ _ _ _ _ Hfb).
    assert (Hbh : Forall isBit (map frontend.val (skipn w ds))).
    { rewrite <- skipn_map, Hhigh. apply digits_are_bits. }
    specialize (Hsatfb Hbh (q f)).
    assert (Hcv : bits_value (map frontend.val (skipn w ds)) mod q f
                  = (v / 2 ^ Z.of_nat w) mod 2 ^ Z.of_nat o).
    { rewrite <- skipn_map, Hhigh, bits_value_digits.
      pose proof (Z.mod_pos_bound (v / 2 ^ Z.of_nat w) (2 ^ Z.of_nat o) Ho).
      apply Z.mod_small. nia. }
    eexists _, ds, (cs ++ [CEq (bits_value (map frontend.val ds)) v]).
    split; [unfold ret; now rewrite <- app_assoc |].
    split; [exact Hds |].
    rewrite val_packed, Hcv.
    split; [apply Z.mod_pos_bound, Ho |].
    split; [rewrite Hhigh; apply bits_value_digits |].
    rewrite sat_app, Hsatfb. cbn [sat forallb andb]. rewrite andb_true_r.
    split; [exact Hceq |].
    intros Hs. apply Hceq in Hs.
    rewrite Hlow, bits_value_digits, (Z.mod_small (v / _)).
    + symmetry. rewrite Z.add_comm. apply Z.div_mod. lia.
    + split; [apply Z.div_pos; lia | now apply Hdiv].
  - assert (o = 0%nat) as Eo by lia.
    exists carry, ds, [CEq (bits_value (map frontend.val ds)) v].
    split; [reflexivity |]. split; [exact Hds |]. split; [exact Hc |].
    rewrite Eo in Hc. simpl in Hc.
    assert (Ec : frontend.val carry = 0) by lia.
    split.
    { rewrite Hhigh, Eo, Ec. reflexivity. }
    cbn [sat forallb]. rewrite andb_true_r.
    split; [exact Hceq |].
    intros Hs. apply Hceq in Hs. rewrite Eo, Nat.add_0_r in Hs.
    rewrite Hlow, bits_value_digits, Ec, Z.mul_0_r, Z.add_0_r.
    apply Z.mod_small. lia.
Qed.

Lemma toBits_fold_value f a ls :
  let w := BitsPerLimb (fParams f) in
  let o := overflow a in
  2 ^ Z.of_nat (w + o + 1) <= q f ->
  Forall (fun l => 0 <= l < 2 ^ Z.of_nat (w + o)) (map frontend.val ls) ->
  forall carry full lb s,
    0 <= frontend.val carry < 2 ^ Z.of_nat o ->
    exists carry' full' lb' cs out,
      foldM (toBitsStep f a) ls (carry, full, lb) s =
        Done ((carry', full', lb'), cs ++ s) /\
      map frontend.val full' = map frontend.val full ++ out /\
      Forall isBit out /\
      length out = (w * length ls)%nat /\
      0 <= frontend.val carry' < 2 ^ Z.of_nat o /\
      (ls <> [] ->
       length lb' = (w + o)%nat /\
       Forall isBit (map frontend.val lb') /\
       bits_value (skipn w (map frontend.val lb')) = frontend.val carry') /\
      (sat (q f) cs = true ->
       bits_value out + 2 ^ Z.of_nat (w * length ls) * frontend.val carry'
       = frontend.val carry + recompose w (map frontend.val ls)) /\
      (Forall (fun l => l <= 2 ^ Z.of_nat (w + o) - 2 ^ Z.of_nat o)
              (map frontend.val ls) ->
       sat (q f) cs = true).
Proof.
  intros w o Hq.
  pose proof (pow2_pos w) as Hw. pose proof (pow2_pos o) as Ho.
  pose proof (pow2_pos (w + o)) as Hwo.
  assert (Hpow : 2 ^ Z.of_nat (w + o) = 2 ^ Z.of_nat w * 2 ^ Z.of_nat o).
  { rewrite Nat2Z.inj_add, Z.pow_add_r by lia. reflexivity. }
  assert (Hpow1 : 2 ^ Z.of_nat (w + o + 1) = 2 * 2 ^ Z.of_nat (w + o)).
  { rewrite (Nat2Z.inj_add _ 1), Z.pow_add_r by lia. simpl (2 ^ Z.of_nat 1). lia. }
  induction ls as [| l ls IH]; intros Hr carry full lb s Hc.
  - exists carry, full, lb, [], []. simpl. rewrite app_nil_r, Nat.mul_0_r.
    repeat split; auto; try lia; try congruence.
  - simpl in Hr. inversion Hr as [| ? ? Hl Hls]; subst.
    destruct (toBitsStep_value f a carry full lb l s ltac:(fold w o; lia)
                ltac:(lia) Hc ltac:(fold w o; nia))
      as (carry1 & ds & cs1 & Hstep & Hds & Hc1 & Hhigh & Hsat1 & Hval1).
    fold w o in Hstep, Hds, Hc1, Hhigh, Hsat1, Hval1.
    destruct (IH Hls carry1 (full ++ firstn w ds) ds (cs1 ++ s) Hc1)
      as (carry' & full' & lb' & cs & out & Hrun & Hfull & Hbits & Hlen & Hc'
          & Hlast & Hval & Hsuff).
    assert (Hdl : length ds = (w + o)%nat).
    { rewrite <- (length_map frontend.val), Hds. apply length_digits. }
    assert (Hdb : Forall isBit (map frontend.val ds)).
    { rewrite Hds. apply digits_are_bits. }
    exists carry', full', lb', (cs ++ cs1), (firstn w (map frontend.val ds) ++ out).
    assert (Hfl : length (firstn w (map frontend.val ds)) = w).
    { rewrite length_firstn, length_map. lia. }
    split.
    { simpl. rewrite (bind_done _ _ _ _ _ Hstep), Hrun. now rewrite app_assoc. }
    split.
    { rewrite Hfull, map_app, <- app_assoc, firstn_map. reflexivity. }
    split.
    { apply Forall_app. split; [| exact Hbits].
      rewrite <- (skipn_O (map frontend.val ds)). now apply Forall_isBit_sub. }
    split.
    { rewrite length_app, Hfl, Hlen. simpl. lia. }
    split; [exact Hc' |].
    split.
    { intros _. destruct ls as [| l' ls'].
      - simpl in Hrun. inversion Hrun. subst. auto.
      - apply Hlast. discriminate. }
    split.
    { rewrite sat_app, andb_true_iff. intros [Hs Hs1].
      specialize (Hval Hs). specialize (Hval1 Hs1).
      rewrite bits_value_app, Hfl. cbn [map recompose length].
      replace (Z.of_nat (w * S (length ls)))
        with (Z.of_nat w + Z.of_nat (w * length ls)) by lia.
      rewrite Z.pow_add_r by lia. fold w.
      transitivity (bits_value (firstn w (map frontend.val ds))
                    + 2 ^ Z.of_nat w
                      * (bits_value out
                         + 2 ^ Z.of_nat (w * length ls) * frontend.val carry'));
        [ring |].
      rewrite Hval. lia. }
    intros Hsm. simpl in Hsm. inversion Hsm as [| ? ? Hl' Hls']; subst.
    rewrite sat_app, (Hsuff Hls'). cbn [andb]. apply Hsat1. lia.
Qed.

(** X6.  On an element that is not a constant and whose limbs stay within
    the declared overflow, [ToBits] returns digits that are all 0 or 1, and
    whenever the constraints it emits are satisfied these digits spell the
    value of the element: the carry of each limb is threaded into the next
    one and the last carry makes the top [overflow] bits.  The constraints
    are satisfiable as soon as every limb leaves room for an incoming carry. *)
Theorem ToBits_recomposes_value (f : Field) (a : Element) (s s1 : Builder)
  (Henf : enforceWidthConditional f a s = Done (tt, s1))
  (Hc : constantValue f a = None)
  (Hq : 2 ^ Z.of_nat (BitsPerLimb (fParams f) + overflow a + 1) <= q f)
  (Hl : Forall (fun l => 0 <= l < 2 ^ Z.of_nat (BitsPerLimb (fParams f) + overflow a))
               (map frontend.val (Limbs a))) :
  exists bts cs,
    ToBits f a s = Done (bts, cs ++ s1) /\
    Forall isBit (map frontend.val bts) /\
    (sat (q f) cs = true -> bits_value (map frontend.val bts) = value f a) /\
    (Forall (fun l => l <= 2 ^ Z.of_nat (BitsPerLimb (fParams f) + overflow a)
                           - 2 ^ Z.of_nat (overflow a))
            (map frontend.val (Limbs a)) ->
     sat (q f) cs = true).
Proof.
  set (w := BitsPerLimb (fParams f)) in *.
  unfold ToBits. fold w. rewrite (bind_done _ _ _ _ _ Henf), Hc.
  pose proof (pow2_pos (overflow a)) as Ho.
  destruct (toBits_fold_value f a (Limbs a) Hq Hl (frontend.Const 0) [] [] s1
              ltac:(simpl; lia))
    as (carry' & full' & lb' & cs & out & Hrun & Hfull & Hbits & Hlen & Hc'
        & Hlast & Hval & Hsuff).
  fold w in Hlen, Hlast, Hval, Hsuff.
  assert (Hne : Limbs a <> []).
  { intros E. rewrite (constLimbs_nil_is_const f a E) in Hc. discriminate. }
  destruct (Hlast Hne) as (Hll & Hlb & Htop).
  rewrite (bind_done _ _ _ _ _ Hrun). cbn iota beta.
  rewrite (bind_done _ _ _ _ _
             (slice_run lb' w (w + overflow a) _ ltac:(lia) ltac:(lia))).
  replace (w + overflow a - w)%nat with (overflow a) by lia.
  rewrite firstn_all2 by (rewrite length_skipn; lia).
  exists (full' ++ skipn w lb'), cs. split; [reflexivity |].
  simpl in Hfull.
  rewrite map_app, Hfull, <- skipn_map.
  split; [| split; [| exact Hsuff]].
  - apply Forall_app. split; [exact Hbits |].
    rewrite <- (firstn_all (skipn w (map frontend.val lb'))).
    now apply Forall_isBit_sub.
  - intros Hs. rewrite bits_value_app, Hlen, Htop, (Hval Hs).
    cbn [frontend.val]. unfold value. fold w. lia.
Qed.

(** The element on the limbs 9 and 3 with one bit of overflow. *)
Lemma ToBits_recomposes_witness :
  exists bts cs,
    ToBits toyField
      {| Limbs := [frontend.Wire 9; frontend.Wire 3]; overflow := 1;
         internal := true; modReduced := false |} [] = Done (bts, cs ++ []) /\
    Forall isBit (map frontend.val bts) /\
    (sat 97 cs = true -> bits_value (map frontend.val bts) = 9 + 8 * (3 + 8 * 0)) /\
    (Forall (fun l => l <= 2 ^ Z.of_nat 4 - 2 ^ Z.of_nat 1) [9; 3] ->
     sat 97 cs = true).
Proof.
  refine (ToBits_recomposes_value toyField
            {| Limbs := [frontend.Wire 9; frontend.Wire 3]; overflow := 1;
               internal := true; modReduced := false |} [] [] _ _ _ _).
  - reflexivity.
  - reflexivity.
  - vm_compute. congruence.
  - repeat constructor; vm_compute; congruence.
Defined.

(** *** FromBits *)

Lemma holds_CBool q0 (v : Z) : holds q0 (CBool v) = true <-> isBit v.
Proof.
  unfold isBit. simpl. rewrite orb_true_iff, !Z.eqb_eq. tauto.
Qed.

Lemma FromBinary_sat (q0 : Z) (bs : list frontend.Var) (s : Builder) :
  exists cs,
    bits.FromBinary q0 bs s = Done (bits.packed q0 bs, cs ++ s) /\
    (forall q', sat q' cs = true <-> Forall isBit (map frontend.val bs)).
Proof.
  unfold bits.FromBinary.
  assert (H : forall s0, exists cs,
             foldM (fun (_ : unit) b => emit (CBool (frontend.val b))) bs tt s0 =
               Done (tt, cs ++ s0) /\
             (forall q', sat q' cs = true <-> Forall isBit (map frontend.val bs))).
  { induction bs as [| b bs IH]; intros s0.
    - exists []. split; [reflexivity |]. intros q'. simpl. split; auto.
    - destruct (IH (CBool (frontend.val b) :: s0)) as (cs & Hrun & Hsat).
      exists (cs ++ [CBool (frontend.val b)]). split.
      + simpl. unfold bind at 1, emit at 1. rewrite Hrun.
        now rewrite <- app_assoc.
      + intros q'. rewrite sat_app, andb_true_iff, Hsat.
        cbn [sat forallb map]. rewrite andb_true_r, holds_CBool.
        split.
        * intros [H1 H2]. now constructor.
        * intros H. inversion H; subst. auto. }
  destruct (H s) as (cs & Hrun & Hsat).
  exists cs. split; [| exact Hsat].
  now rewrite (bind_done _ _ _ _ _ Hrun).
Qed.

Lemma isConstant_packed q0 (bs : list frontend.Var) :
  frontend.isConstant (bits.packed q0 bs) = forallb frontend.isConstant bs.
Proof. unfold bits.packed. cbv zeta. now destruct (forallb _ bs). Qed.

Lemma constLimbs_none (ls : list frontend.Var) :
  constLimbs ls = None <-> forallb frontend.isConstant ls = false.
Proof.
  induction ls as [| l ls [I1 I2]]; simpl.
  - split; discriminate.
  - destruct l, (constLimbs ls), (forallb frontend.isConstant ls); simpl;
      split; intros H; try reflexivity; try discriminate;
      try (specialize (I1 eq_refl); discriminate);
      try (specialize (I2 eq_refl); discriminate).
Qed.

Lemma FromBits_chunks_sat q0 (w : nat) (bs : list frontend.Var) (m : nat) :
  forall k s, ((k + m) * w <= length bs)%nat ->
    exists limbs cs,
      mapM (fun i => chunk <- slice bs (i * w) ((i + 1) * w) ;;
                     bits.FromBinary q0 chunk) (seq k m) s
      = Done (limbs, cs ++ s) /\
      length limbs = m /\
      forallb frontend.isConstant limbs
      = forallb frontend.isConstant (firstn (m * w) (skipn (k * w) bs)) /\
      (sat q0 cs = true <->
       Forall isBit (firstn (m * w) (skipn (k * w) (map frontend.val bs)))) /\
      (2 ^ Z.of_nat w <= q0 -> Forall isBit (map frontend.val bs) ->
       Forall (inRange w) (map frontend.val limbs)).
Proof.
  induction m as [| m IH]; intros k s Hk.
  - exists [], []. repeat split; auto; constructor.
  - cbn [seq mapM].
    assert (Hsl : slice bs (k * w) ((k + 1) * w) s
                  = Done (firstn w (skipn (k * w) bs), s)).
    { rewrite slice_run by nia. do 3 f_equal. lia. }
    destruct (FromBinary_sat q0 (firstn w (skipn (k * w) bs)) s)
      as (cs1 & Hfb & Hsat1).
    destruct (IH (S k) (cs1 ++ s) ltac:(lia))
      as (limbs & cs & Hrun & Hlen & Hconst & Hsat & Hrange).
    eexists (_ :: limbs), (cs ++ cs1). split.
    { unfold bind at 1. unfold bind at 1. rewrite Hsl, Hfb.
      unfold bind at 1. rewrite Hrun. unfold ret.
      now rewrite <- app_assoc. }
    split; [simpl; now rewrite Hlen |].
    split.
    { cbn [forallb]. rewrite isConstant_packed, Hconst.
      replace (S m * w)%nat with (w + m * w)%nat by lia.
      rewrite firstn_add, skipn_skipn, forallb_app.
      replace (w + k * w)%nat with (S k * w)%nat by lia.
      reflexivity. }
    split.
    + rewrite sat_app, andb_true_iff, Hsat, Hsat1.
      replace (S m * w)%nat with (w + m * w)%nat by lia.
      rewrite firstn_add, skipn_skipn, Forall_app.
      rewrite <- firstn_map, <- skipn_map.
      replace (w + k * w)%nat with (S k * w)%nat by lia.
      tauto.
    + intros Hq Hbits. cbn [map].
      constructor; [| now apply Hrange].
      assert (Hchunk : Forall isBit
                         (map frontend.val (firstn w (skipn (k * w) bs)))).
      { rewrite <- firstn_map, <- skipn_map. now apply Forall_isBit_sub. }
      pose proof (bits_value_bounds _ Hchunk) as Hb.
      assert (Hcl : length (map frontend.val (firstn w (skipn (k * w) bs))) = w).
      { rewrite length_map, length_firstn, length_skipn. nia. }
      rewrite Hcl in Hb. unfold inRange.
      rewrite val_packed, Z.mod_small by lia. exact Hb.
Qed.

(** The number of limbs FromBits makes of [len] bits. *)
Definition limbCount (f : Field) (len : nat) : nat :=
  ((len + BitsPerLimb (fParams f) - 1) / BitsPerLimb (fParams f))%nat.

Lemma FromBits_run f (bs : list frontend.Var) (s : Builder) :
  let w := BitsPerLimb (fParams f) in
  (0 < w)%nat -> (0 < length bs)%nat ->
  exists r cs,
    FromBits f bs s = Done (r, cs ++ s) /\
    overflow r = 0%nat /\
    length (Limbs r) = limbCount f (length bs) /\
    forallb frontend.isConstant (Limbs r) = forallb frontend.isConstant bs /\
    (sat (q f) cs = true <-> Forall isBit (map frontend.val bs)) /\
    (2 ^ Z.of_nat w <= q f -> Forall isBit (map frontend.val bs) ->
     value f r = bits_value (map frontend.val bs) /\
     Forall (inRange w) (map frontend.val (Limbs r))).
Proof.
  intros w Hw Hlen. unfold limbCount. fold w.
  set (nb := ((length bs + w - 1) / w)%nat).
  assert (Hdm : (length bs + w - 1 = w * nb + (length bs + w - 1) mod w)%nat)
    by apply Nat.div_mod_eq.
  assert (Hr : ((length bs + w - 1) mod w < w)%nat)
    by (apply Nat.mod_upper_bound; lia).
  assert (Hnb : (0 < nb)%nat).
  { destruct nb; [| lia]. rewrite Nat.mul_0_r in Hdm. lia. }
  assert (Hfit : ((nb - 1) * w < length bs)%nat) by nia.
  assert (Htop : (length bs <= nb * w)%nat) by nia.
  destruct (FromBits_chunks_sat (q f) w bs (nb - 1) 0 s ltac:(simpl; lia))
    as (limbs & cs1 & Hrun1 & Hl1 & Hconst1 & Hsat1 & Hrange1).
  destruct (FromBinary_sat (q f) (skipn ((nb - 1) * w) bs) (cs1 ++ s))
    as (cs2 & Hfb & Hsat2).
  set (top := bits.packed (q f) (skipn ((nb - 1) * w) bs)) in *.
  assert (Hmain : FromBits f bs s
                  = Done (newInternalElement (limbs ++ [top]) 0,
                          (cs2 ++ cs1) ++ s)).
  { unfold FromBits. fold w. fold nb.
    destruct (Nat.eqb_spec w 0) as [? | _]; [lia |].
    destruct (Nat.eqb_spec nb 0) as [? | _]; [lia |].
    rewrite (bind_done _ _ _ _ _ Hrun1).
    rewrite (bind_done _ _ _ _ _
               (slice_run bs ((nb - 1) * w) (length bs) _ ltac:(lia) ltac:(lia))).
    rewrite firstn_all2 by (rewrite length_skipn; lia).
    rewrite (bind_done _ _ _ _ _ Hfb).
    unfold ret. now rewrite <- app_assoc. }
  eexists _, (cs2 ++ cs1). split; [exact Hmain |].
  split; [reflexivity |].
  split; [cbn [newInternalElement Limbs]; rewrite length_app, Hl1; simpl; lia |].
  split.
  { cbn [newInternalElement Limbs]. rewrite forallb_app, Hconst1.
    cbn [forallb Nat.mul]. unfold top.
    rewrite isConstant_packed, andb_true_r, skipn_O, <- forallb_app.
    now rewrite firstn_skipn. }
  split.
  - rewrite sat_app, andb_true_iff, Hsat2, Hsat1. cbn [Nat.mul]. rewrite skipn_O.
    rewrite <- (firstn_skipn ((nb - 1) * w) (map frontend.val bs)) at 2.
    rewrite Forall_app, skipn_map. tauto.
  - intros Hq Hbits.
    destruct (FromBits_value f bs s Hw Hq Hlen Hbits)
      as (r & cs & Hrun & _ & Hv & _).
    rewrite Hmain in Hrun. inversion Hrun as [[Hr' Hcs]]. clear Hrun.
    split; [now rewrite Hr' |].
    cbn [newInternalElement Limbs]. rewrite map_app. apply Forall_app.
    split; [now apply Hrange1 |].
    cbn [map]. constructor; [| constructor].
    assert (Hlast : Forall isBit (map frontend.val (skipn ((nb - 1) * w) bs))).
    { rewrite <- skipn_map, <- (firstn_all (skipn _ _)).
      now apply Forall_isBit_sub. }
    pose proof (bits_value_bounds _ Hlast) as Hb.
    rewrite length_map, length_skipn in Hb.
    assert (Hk : (length bs - (nb - 1) * w <= w)%nat).
    { assert (E : (nb * w = (nb - 1) * w + w)%nat).
      { replace nb with (S (nb - 1)) at 1 by lia. simpl. lia. }
      lia. }
    assert (2 ^ Z.of_nat (length bs - (nb - 1) * w) <= 2 ^ Z.of_nat w)
      by (apply Z.pow_le_mono_r; lia).
    unfold inRange, top. rewrite val_packed, Z.mod_small by lia. lia.
Qed.

(** X7.  On at least one bit [FromBits] does not panic: it returns an
    element on ceil(len / bitsPerLimb) limbs with no overflow, and the
    constraints it emits are satisfied exactly when every input is 0 or 1
    (nothing else is checked).  When they are, and a limb fits the native
    field, the value of the element is the integer the bits spell and every
    limb is within [bitsPerLimb] bits. *)
Theorem FromBits_packs_bits (f : Field) (bs : list frontend.Var) (s : Builder)
  (Hw : (0 < BitsPerLimb (fParams f))%nat)
  (Hlen : (0 < length bs)%nat) :
  exists r cs,
    FromBits f bs s = Done (r, cs ++ s) /\
    overflow r = 0%nat /\
    length (Limbs r) = limbCount f (length bs) /\
    (sat (q f) cs = true <-> Forall isBit (map frontend.val bs)) /\
    (2 ^ Z.of_nat (BitsPerLimb (fParams f)) <= q f ->
     Forall isBit (map frontend.val bs) ->
     value f r = bits_value (map frontend.val bs) /\
     Forall (inRange (BitsPerLimb (fParams f))) (map frontend.val (Limbs r))).
Proof.
  destruct (FromBits_run f bs s Hw Hlen)
    as (r & cs & Hrun & Hov & Hnl & _ & Hsat & Hval).
  exists r, cs. repeat split; auto; now apply Hsat || now apply Hval.
Qed.

(** Five bits go to two limbs of three bits. *)
Lemma FromBits_packs_witness :
  exists r cs,
    FromBits toyField (map frontend.Wire [1; 0; 1; 1; 0]) [] = Done (r, cs ++ []) /\
    overflow r = 0%nat /\
    length (Limbs r) = 2%nat /\
    (sat 97 cs = true <-> Forall isBit [1; 0; 1; 1; 0]) /\
    (2 ^ Z.of_nat 3 <= 97 -> Forall isBit [1; 0; 1; 1; 0] ->
     value toyField r = 13 /\
     Forall (inRange 3) (map frontend.val (Limbs r))).
Proof.
  refine (FromBits_packs_bits toyField (map frontend.Wire [1; 0; 1; 1; 0]) [] _ _).
  - vm_compute. lia.
  - vm_compute. lia.
Defined.

(** *** ToBits after FromBits *)

Lemma bits_value_inj (xs ys : list Z) :
  Forall isBit xs -> Forall isBit ys -> length xs = length ys ->
  bits_value xs = bits_value ys -> xs = ys.
Proof.
  intros Hx. revert ys. induction Hx as [| x xs Hx0 _ IH]; intros ys Hy Hlen Hv.
  - destruct ys; [reflexivity | discriminate].
  - destruct ys as [| y ys]; [discriminate |].
    inversion Hy as [| ? ? Hy0 Hys]; subst.
    simpl in Hv, Hlen.
    assert (x = y /\ bits_value xs = bits_value ys) as [-> Hv'].
    { destruct Hx0 as [-> | ->], Hy0 as [-> | ->]; lia. }
    f_equal. apply IH; auto.
Qed.

(** The number of limbs [ToBits] reads of what [FromBits] made of [bs]: those
    of the element when some bit is a variable, those of the field when
    every bit is a constant. *)
Definition limbsRead (f : Field) (bs : list frontend.Var) : nat :=
  if forallb frontend.isConstant bs then NbLimbs (fParams f)
  else limbCount f (length bs).

(** X8.  [ToBits] run on what [FromBits] made of a non-empty list of bits
    returns the bits themselves, padded with zeros at the most significant
    end up to a whole number of limbs: the ceil(len / bitsPerLimb) limbs of
    the element when some bit is a variable, and the NbLimbs limbs of the
    field when every bit is a constant and the bits fit them (the element is
    then a constant, of which [ToBits] reads NbLimbs limbs whatever the
    element has).  Neither panics and every constraint emitted holds. *)
Theorem ToBits_FromBits_pads (f : Field) (bs : list frontend.Var) (s : Builder)
  (Hw : (0 < BitsPerLimb (fParams f))%nat)
  (Hq : 2 ^ Z.of_nat (BitsPerLimb (fParams f)) <= q f)
  (Hlen : (0 < length bs)%nat)
  (Hbits : Forall isBit (map frontend.val bs))
  (Hfit : forallb frontend.isConstant bs = true ->
          (length bs <= BitsPerLimb (fParams f) * NbLimbs (fParams f))%nat)
  (Henf : forall x s0, wellFormed f x ->
          exists ce, enforceWidthConditional f x s0 = Done (tt, ce ++ s0) /\
                     sat (q f) ce = true) :
  exists r cs1 bts cs2,
    FromBits f bs s = Done (r, cs1 ++ s) /\
    ToBits f r (cs1 ++ s) = Done (bts, cs2 ++ cs1 ++ s) /\
    sat (q f) (cs2 ++ cs1) = true /\
    length bts = (BitsPerLimb (fParams f) * limbsRead f bs)%nat /\
    map frontend.val bts
    = map frontend.val bs
      ++ repeat 0 (BitsPerLimb (fParams f) * limbsRead f bs - length bs).
Proof.
  set (w := BitsPerLimb (fParams f)) in *.
  destruct (FromBits_run f bs s Hw Hlen)
    as (r & cs1 & Hrun1 & Hov & Hnl & Hconst & Hsat1 & Hval).
  fold w in Hval. destruct (Hval Hq Hbits) as [Hv Hrange].
  assert (Hkind : match constantValue f r with
                  | Some _ => NbLimbs (fParams f)
                  | None => length (Limbs r)
                  end = limbsRead f bs).
  { unfold constantValue, limbsRead. rewrite <- Hconst, Hnl.
    destruct (constLimbs (Limbs r)) eqn:E; cbn [option_map].
    - destruct (forallb frontend.isConstant (Limbs r)) eqn:F; [reflexivity |].
      apply constLimbs_none in F. congruence.
    - apply constLimbs_none in E. now rewrite E. }
  assert (Hcap : (length bs <= w * limbsRead f bs)%nat).
  { unfold limbsRead. destruct (forallb frontend.isConstant bs) eqn:F.
    - now apply Hfit.
    - unfold limbCount. fold w.
      pose proof (Nat.div_mod_eq (length bs + w - 1) w) as Hdm.
      pose proof (Nat.mod_upper_bound (length bs + w - 1) w ltac:(lia)). lia. }
  assert (Hwf : wellFormed f r).
  { split; [exact Hrange |]. intros Hc. rewrite Hv.
    pose proof (bits_value_bounds _ Hbits) as Hb. rewrite length_map in Hb.
    assert (Hall : forallb frontend.isConstant bs = true).
    { rewrite <- Hconst. destruct (forallb frontend.isConstant (Limbs r)) eqn:F;
        [reflexivity |].
      apply constLimbs_none in F. unfold constantValue in Hc.
      rewrite F in Hc. now elim Hc. }
    specialize (Hfit Hall). fold w in Hfit.
    assert (2 ^ Z.of_nat (length bs) <= 2 ^ Z.of_nat (w * NbLimbs (fParams f)))
      by (apply Z.pow_le_mono_r; lia).
    fold w. lia. }
  destruct (ToBits_value f r (cs1 ++ s) Hov Hq Hwf (Henf r _ Hwf))
    as (bts & cs2 & Hrun2 & Hsat2 & Hb2 & Hv2 & Hl2).
  fold w in Hl2. rewrite Hkind in Hl2.
  exists r, cs1, bts, cs2.
  split; [exact Hrun1 |]. split; [exact Hrun2 |].
  split; [rewrite sat_app, Hsat2; now apply Hsat1 |].
  split; [exact Hl2 |].
  apply bits_value_inj.
  - exact Hb2.
  - apply Forall_app. split; [exact Hbits |].
    apply List.Forall_forall. intros b Hb. apply repeat_spec in Hb. now left.
  - rewrite length_app, repeat_length, !length_map. lia.
  - rewrite bits_value_app, bits_value_repeat0, Hv2, Hv. lia.
Qed.

(** Two constant bits make one constant limb, of which [ToBits] reads the
    two limbs of the field: six bits. *)
Lemma ToBits_FromBits_witness :
  exists r cs1 bts cs2,
    FromBits toyField (map frontend.Const [1; 1]) [] = Done (r, cs1 ++ []) /\
    ToBits toyField r (cs1 ++ []) = Done (bts, cs2 ++ cs1 ++ []) /\
    sat 97 (cs2 ++ cs1) = true /\
    length bts = 6%nat /\
    map frontend.val bts = [1; 1] ++ repeat 0 4.
Proof.
  refine (ToBits_FromBits_pads toyField (map frontend.Const [1; 1]) []
            _ _ _ _ _ _).
  - vm_compute. lia.
  - vm_compute. congruence.
  - vm_compute. lia.
  - simpl. repeat (apply List.Forall_cons; [unfold isBit; lia |]).
    apply List.Forall_nil.
  - intros _. vm_compute. lia.
  - intros x s0 [Hr _]. now apply solverEnforceWidth_sat.
Defined.

(** Five variable bits make two limbs, of which [ToBits] reads both. *)
Example ToBits_FromBits_variable :
  match FromBits toyField (map frontend.Wire [1; 0; 1; 1; 0]) [] with
  | Done (r, cs) =>
      match ToBits toyField r cs with
      | Done (bts, _) => map frontend.val bts
      | Panic _ => []
      end
  | Panic _ => []
  end = [1; 0; 1; 1; 0; 0].
Proof. reflexivity. Qed.

(** *** ToBitsCanonical on any element *)

(** X9.  Whatever the representation of [a] (limbs above the modulus,
    overflow), [ToBitsCanonical] returns the binary digits of the residue of
    its value modulo the modulus, BitLen(modulus) of them and one fewer for
    a power of two: two elements congruent modulo the modulus get the same
    bits. *)
Theorem ToBitsCanonical_digits_of_residue (f : Field) (a : Element) (s : Builder)
  (Hq : 2 ^ Z.of_nat (BitsPerLimb (fParams f)) <= q f)
  (Hp : 0 < Modulus (fParams f))
  (Hfit : (BitLen (Modulus (fParams f))
           <= BitsPerLimb (fParams f) * NbLimbs (fParams f))%nat)
  (Hred : exists ca cs,
      ReduceStrict f a s = Done (ca, cs ++ s) /\
      overflow ca = 0%nat /\ wellFormed f ca /\
      length (Limbs ca) = NbLimbs (fParams f) /\
      value f ca = value f a mod Modulus (fParams f))
  (Henf : forall y s0, wellFormed f y ->
      exists ce, enforceWidthConditional f y s0 = Done (tt, ce ++ s0) /\
                 sat (q f) ce = true) :
  exists bts cs,
    ToBitsCanonical f a s = Done (bts, cs ++ s) /\
    map frontend.val bts
    = digits (value f a mod Modulus (fParams f))
             (canonicalBits (Modulus (fParams f))) /\
    bits_value (map frontend.val bts) = value f a mod Modulus (fParams f).
Proof.
  set (w := BitsPerLimb (fParams f)) in *.
  set (m := Modulus (fParams f)) in *.
  destruct Hred as (ca & cs0 & Hrs & Hov & Hwf & Hlen & Hval).
  destruct (canonicalBits_spec m Hp) as (_ & _ & Hle & Hnb).
  destruct (ToBits_value f ca (cs0 ++ s) Hov Hq Hwf (Henf ca _ Hwf))
    as (bts0 & cs & Hrun & _ & Hbits & Hbv & Hbl0).
  fold w in Hbl0.
  assert (Hl0 : length bts0 = (w * NbLimbs (fParams f))%nat).
  { rewrite Hbl0. destruct (constantValue f ca); [reflexivity | now rewrite Hlen]. }
  set (nb := canonicalBits m) in *.
  exists (firstn nb bts0), (cs ++ cs0). split.
  - unfold ToBitsCanonical. fold m. fold (canonicalBits m). fold nb.
    rewrite (bind_done _ _ _ _ _ Hrs), (bind_done _ _ _ _ _ Hrun).
    rewrite slice_run by lia.
    rewrite Nat.sub_0_r, skipn_O. now rewrite <- app_assoc.
  - pose proof (Z.mod_pos_bound (value f a) m Hp) as Hb.
    assert (Hd : map frontend.val (firstn nb bts0)
                 = digits (value f a mod m) nb);
      [| split; [exact Hd |];
         rewrite Hd, bits_value_digits; apply Z.mod_small; lia].
    apply bits_value_inj.
    + rewrite <- firstn_map, <- (skipn_O (map frontend.val bts0)).
      now apply Forall_isBit_sub.
    + apply digits_are_bits.
    + rewrite length_map, length_firstn, length_digits. lia.
    + rewrite <- firstn_map, bits_value_firstn, Hbv, Hval, bits_value_digits
        by exact Hbits.
      reflexivity.
Qed.

(** 20 on two limbs of three bits is 7 modulo 13. *)
Lemma ToBitsCanonical_residue_witness :
  exists bts cs,
    ToBitsCanonical toyField (ValueOf (fParams toyField) 20) [] = Done (bts, cs ++ []) /\
    map frontend.val bts = digits (20 mod 13) 4 /\
    bits_value (map frontend.val bts) = 20 mod 13.
Proof.
  refine (ToBitsCanonical_digits_of_residue toyField
            (ValueOf (fParams toyField) 20) [] _ _ _ _ _).
  - vm_compute. congruence.
  - reflexivity.
  - vm_compute. lia.
  - eexists _, []. split; [reflexivity |].
    split; [reflexivity |]. split.
    + split.
      * repeat (apply List.Forall_cons; [vm_compute; split; congruence |]).
        apply List.Forall_nil.
      * intros _. reflexivity.
    + split; reflexivity.
  - intros y s0 [Hr _]. now apply solverEnforceWidth_sat.
Defined.

End EmulatedBitsFacts.

(* ------------------------------------------------------------------------- *)
(** ** std/algebra/emulated/sw_bn254: the other methods of the file

    [Pairing.IsOnTwist], [Pairing.Pair], [Pairing.PairingCheck],
    [Pairing.MillerLoopAndMul], [Pairing.computeG2ShortVector],
    [Pairing.AssertIsOnG2], [Pairing.IsOnG2], the affine steps
    [Pairing.doubleAndAddStep], [Pairing.doubleStep], [Pairing.addStep],
    [Pairing.lineCompute], and [Pairing.millerLoopAndFinalExpResult] with its
    two wrappers. *)

Module sw_bn254_rest.
Import fields_bn254 sw_bn254.

(** Modelled from the spec: the other operations of the quadratic extension
    Fp[u]/(u^2+1) that the sources call, coordinate by coordinate. *)
Definition Ext2_Sub (x y : E2) : E2 :=
  {| A0 := (A0 x - A0 y) mod p; A1 := (A1 x - A1 y) mod p |}.

Definition Ext2_Neg (x : E2) : E2 :=
  {| A0 := (- A0 x) mod p; A1 := (- A1 x) mod p |}.

Definition Ext2_MulByConstElement (x : E2) (c : Z) : E2 :=
  {| A0 := (A0 x * c) mod p; A1 := (A1 x * c) mod p |}.

(** Modelled from the spec: Ext2.DivUnchecked ("DivUnchecked returns i1 /
    i2", through the hint facility): the quotient is whatever the hint
    [divE2Hint] returns, bound by the assertion that the quotient times the
    divisor is the dividend. *)
Definition Ext2_DivUnchecked (divE2Hint : E2 -> E2 -> E2) (x y : E2) : M E2 :=
  let div := divE2Hint x y in
  Ext2_AssertIsEqual x (Ext2_Mul div y) ;;;
  ret div.

(** The methods of the embedded Ext12 and of curveF that the methods below
    call and the sources do not define. *)
Record Ext12Calls : Type := {
  Mul : E12 -> E12 -> W E12;
  Conjugate : E12 -> W E12;
  DivUnchecked : E12 -> E12 -> W E12;
  Frobenius : E12 -> W E12;
  FrobeniusSquare : E12 -> W E12;
  FrobeniusCube : E12 -> W E12;
  Inverse : E12 -> W E12;
  AssertFinalExponentiationIsOne : E12 -> W unit;
  IsEqual : E12 -> E12 -> W frontend.Var;
  AssertIsEqual : E12 -> E12 -> W unit;
  (* curveF.NewHint(millerLoopAndCheckFinalExpHint, 18, inputs...) *)
  NewHint : list baseEl -> WithError (list baseEl)
}.

(** The methods of [pr.g2] (type G2), none of which is among the sources. *)
Record G2 : Type := {
  scalarMulBySeed : G2Affine -> W G2Affine;
  psi : G2Affine -> W G2Affine;
  phi : G2Affine -> W G2Affine;
  double : G2Affine -> W G2Affine;
  sub : G2Affine -> G2Affine -> W G2Affine;
  g2_AssertIsEqual : G2Affine -> G2Affine -> W unit;
  g2_IsEqual : G2Affine -> G2Affine -> W frontend.Var
}.

(** Pairing.IsOnTwist *)
Definition IsOnTwist (pr : Pairing) (Q : G2Affine) : M frontend.Var :=
  lr <- computeTwistEquation pr Q ;;
  let diff := Ext2_Sub (fst lr) (snd lr) in
  Ext2_IsZero diff.

(** Pairing.Pair.  The Miller loop returns a new GT element: it is stored at
    a fresh address, which [finalExponentiation] is given.  Returns the
    result, the slice [Q] with the lines cached by the call, and the store. *)
Definition Pair (pr : Pairing) (P : list G1Affine) (Q : list G2Affine)
           (h : heap) : M (WithError loc * list G2Affine * heap) :=
  rq <- MillerLoop pr P Q ;;
  match fst rq with
  | Error msg => ret (Error ("miller loop: " ++ msg)%string, snd rq, h)
  | OkNil res =>
      let e := fresh (dom h) in
      rh <- finalExponentiation pr e (length P =? 1)%nat (<[e := res]> h) ;;
      ret (OkNil (fst rh), snd rq, snd rh)
  end.

(** Pairing.PairingCheck; returns the error, nil as [OkNil tt]. *)
Definition PairingCheck (pr : Pairing) (ex : Ext12Calls) (P : list G1Affine)
           (Q : list G2Affine) : M (WithError unit * list G2Affine) :=
  rq <- MillerLoop pr P Q ;;
  match fst rq with
  | Error msg => ret (Error msg, snd rq)
  | OkNil f =>
      (* f = f^(p^6-1)(p^2+1) *)
      buf <- call (Conjugate ex f) ;;
      buf <- call (DivUnchecked ex buf f) ;;
      f <- call (FrobeniusSquare ex buf) ;;
      f <- call (Mul ex f buf) ;;
      call (AssertFinalExponentiationIsOne ex f) ;;;
      ret (OkNil tt, snd rq)
  end.

(** Pairing.MillerLoopAndMul; [Q] comes back with its lines cached. *)
Definition MillerLoopAndMul (pr : Pairing) (ex : Ext12Calls) (P : G1Affine)
           (Q : G2Affine) (previous : GTEl) : M (WithError GTEl * list G2Affine) :=
  rq <- MillerLoop pr [P] [Q] ;;
  match fst rq with
  | Error msg => ret (Error ("miller loop: " ++ msg)%string, snd rq)
  | OkNil res =>
      res <- call (Mul ex res previous) ;;
      ret (OkNil res, snd rq)
  end.

(** Pairing.computeG2ShortVector *)
Definition computeG2ShortVector (g2 : G2) (Q : G2Affine) : M G2Affine :=
  xQ <- call (scalarMulBySeed g2 Q) ;;
  psixQ <- call (psi g2 xQ) ;;
  psi2xQ <- call (phi g2 xQ) ;;
  psi3xxQ <- call (double g2 psi2xQ) ;;
  psi3xxQ <- call (psi g2 psi3xxQ) ;;
  _Q <- call (sub g2 psi2xQ psi3xxQ) ;;
  _Q <- call (sub g2 _Q psixQ) ;;
  call (sub g2 _Q xQ).

(** Pairing.AssertIsOnG2 *)
Definition AssertIsOnG2 (pr : Pairing) (g2 : G2) (Q : G2Affine) : M unit :=
  (* 1- Check Q is on the curve *)
  AssertIsOnTwist pr Q ;;;
  (* 2- Check Q has the right subgroup order *)
  _Q <- computeG2ShortVector g2 Q ;;
  call (g2_AssertIsEqual g2 Q _Q).

(** Pairing.IsOnG2 *)
Definition IsOnG2 (pr : Pairing) (g2 : G2) (Q : G2Affine) : M frontend.Var :=
  isOnCurve <- IsOnTwist pr Q ;;
  _Q <- computeG2ShortVector g2 Q ;;
  isInSubgroup <- call (g2_IsEqual g2 Q _Q) ;;
  frontend.And isOnCurve isInSubgroup.

Section Steps.
Variable divE2Hint : E2 -> E2 -> E2.

(** The line of slope [l] through [p1]: [R0 = l], [R1 = l * x1 - y1]. *)
Definition lineThrough (l : E2) (p1 : g2AffP) : lineEvaluation :=
  {| R0 := l; R1 := Ext2_Sub (Ext2_Mul l (X p1)) (Y p1) |}.

(** Pairing.doubleAndAddStep *)
Definition doubleAndAddStep (p1 p2 : g2AffP) (isSub : bool)
  : M (g2AffP * lineEvaluation * lineEvaluation) :=
  (* compute l1 = (y1-y2)/(x1-x2) or l1 = (y1+y2)/(x1-x2) if isSub is true *)
  let n := if isSub then Ext2_Add (Y p1) (Y p2) else Ext2_Sub (Y p1) (Y p2) in
  let d := Ext2_Sub (X p1) (X p2) in
  l1 <- Ext2_DivUnchecked divE2Hint n d ;;
  (* compute x3 = l1^2-x1-x2 *)
  let x3 := Ext2_Square l1 in
  let x3 := Ext2_Sub x3 (Ext2_Add (X p1) (X p2)) in
  (* compute line1 *)
  let line1 := lineThrough l1 p1 in
  (* compute l2 = -l1-2y1/(x3-x1) *)
  let n := Ext2_MulByConstElement (Y p1) 2 in
  let d := Ext2_Sub x3 (X p1) in
  l2 <- Ext2_DivUnchecked divE2Hint n d ;;
  let l2 := Ext2_Add l2 l1 in
  let l2 := Ext2_Neg l2 in
  (* compute x4 = l2^2-x1-x3 *)
  let x4 := Ext2_Square l2 in
  let x4 := Ext2_Sub x4 (Ext2_Add (X p1) x3) in
  (* compute y4 = l2(x1 - x4)-y1 *)
  let y4 := Ext2_Sub (X p1) x4 in
  let y4 := Ext2_Mul l2 y4 in
  let y4 := Ext2_Sub y4 (Y p1) in
  (* compute line2 *)
  let line2 := lineThrough l2 p1 in
  ret ({| X := x4; Y := y4 |}, line1, line2).

(** Pairing.doubleStep *)
Definition doubleStep (p1 : g2AffP) : M (g2AffP * lineEvaluation) :=
  (* l = 3x^2/2y *)
  let n := Ext2_Square (X p1) in
  let n := Ext2_MulByConstElement n 3 in
  let d := Ext2_MulByConstElement (Y p1) 2 in
  l <- Ext2_DivUnchecked divE2Hint n d ;;
  (* xr = l^2-2x *)
  let xr := Ext2_Square l in
  let xr := Ext2_Sub xr (Ext2_MulByConstElement (X p1) 2) in
  (* yr = l(x-xr)-y *)
  let yr := Ext2_Sub (X p1) xr in
  let yr := Ext2_Mul l yr in
  let yr := Ext2_Sub yr (Y p1) in
  ret ({| X := xr; Y := yr |}, lineThrough l p1).

(** Pairing.addStep *)
Definition addStep (p1 p2 : g2AffP) : M (g2AffP * lineEvaluation) :=
  (* compute l = (y2-y1)/(x2-x1) *)
  let p2ypy := Ext2_Sub (Y p2) (Y p1) in
  let p2xpx := Ext2_Sub (X p2) (X p1) in
  l <- Ext2_DivUnchecked divE2Hint p2ypy p2xpx ;;
  (* xr = l^2-x1-x2 *)
  let xr := Ext2_Square l in
  let xr := Ext2_Sub xr (Ext2_Add (X p1) (X p2)) in
  (* yr = l(x1-xr) - y1 *)
  let pxrx := Ext2_Sub (X p1) xr in
  let lpxrx := Ext2_Mul l pxrx in
  let yr := Ext2_Sub lpxrx (Y p1) in
  ret ({| X := xr; Y := yr |}, lineThrough l p1).

(** Pairing.lineCompute *)
Definition lineCompute (p1 p2 : g2AffP) : M lineEvaluation :=
  let qypy := Ext2_Add (Y p1) (Y p2) in
  let qxpx := Ext2_Sub (X p1) (X p2) in
  l <- Ext2_DivUnchecked divE2Hint qypy qxpx ;;
  ret (lineThrough l p1).

End Steps.

(** The two lines of [lines] at [i], evaluated at P: the four MulByElement
    calls of the cases 1 and -1. *)
Definition linesAt (pr : Pairing) (lines : lineEvaluations)
           (xNegOverY yInv : baseEl) (i : nat) : M E2x5 :=
  a <- call (MulByElement pr (R0 (lines 0%nat i)) xNegOverY) ;;
  b <- call (MulByElement pr (R1 (lines 0%nat i)) yInv) ;;
  c <- call (MulByElement pr (R0 (lines 1%nat i)) xNegOverY) ;;
  d <- call (MulByElement pr (R1 (lines 1%nat i)) yInv) ;;
  call (Mul034By034 pr a b c d).

(** The body of [for i := 64; i >= 0; i--] in millerLoopAndFinalExpResult. *)
Definition hintedStep (pr : Pairing) (ex : Ext12Calls) (lines : lineEvaluations)
           (xNegOverY yInv : baseEl) (residueWitness residueWitnessInv : E12)
           (i : nat) (res : E12) : M E12 :=
  res <- call (Square pr res) ;;
  let c := nth i loopCounter 0 in
  if c =? 0 then
    a <- call (MulByElement pr (R0 (lines 0%nat i)) xNegOverY) ;;
    b <- call (MulByElement pr (R1 (lines 0%nat i)) yInv) ;;
    call (MulBy034 pr res a b)
  else if c =? 1 then
    (* multiply by residueWitnessInv when bit=1 *)
    res <- call (Mul ex res residueWitnessInv) ;;
    prodLines <- linesAt pr lines xNegOverY yInv i ;;
    call (MulBy01234 pr res prodLines)
  else if c =? -1 then
    (* multiply by residueWitness when bit=-1 *)
    res <- call (Mul ex res residueWitness) ;;
    prodLines <- linesAt pr lines xNegOverY yInv i ;;
    call (MulBy01234 pr res prodLines)
  else panic "invalid loop counter value".

(** [for i := m-1; i >= 0; i--]. *)
Fixpoint hintedIter (pr : Pairing) (ex : Ext12Calls) (lines : lineEvaluations)
         (xNegOverY yInv : baseEl) (residueWitness residueWitnessInv : E12)
         (m : nat) (res : E12) : M E12 :=
  match m with
  | O => ret res
  | S i =>
      res <- hintedStep pr ex lines xNegOverY yInv residueWitness
                        residueWitnessInv i res ;;
      hintedIter pr ex lines xNegOverY yInv residueWitness residueWitnessInv i res
  end.

(** The 18 inputs of the hint: P, Q and the coordinates of [previous]. *)
Definition hintInputs (P : G1Affine) (Q : G2Affine) (previous : GTEl)
  : list baseEl :=
  [ G1X P; G1Y P;
    A0 (X (sw_bn254.P Q)); A1 (X (sw_bn254.P Q));
    A0 (Y (sw_bn254.P Q)); A1 (Y (sw_bn254.P Q));
    A0 (B0 (C0 previous)); A1 (B0 (C0 previous));
    A0 (B1 (C0 previous)); A1 (B1 (C0 previous));
    A0 (B2 (C0 previous)); A1 (B2 (C0 previous));
    A0 (B0 (C1 previous)); A1 (B0 (C1 previous));
    A0 (B1 (C1 previous)); A1 (B1 (C1 previous));
    A0 (B2 (C1 previous)); A1 (B2 (C1 previous)) ].

(** Pairing.millerLoopAndFinalExpResult; [Q] comes back with its lines
    cached.  [hint[k]] panics past the end of the slice the hint returned. *)
Definition millerLoopAndFinalExpResult (pr : Pairing) (ex : Ext12Calls)
           (P : G1Affine) (Q : G2Affine) (previous : GTEl)
  : M (GTEl * G2Affine) :=
  match NewHint ex (hintInputs P Q previous) with
  | Error msg =>
      (* err is non-nil only for invalid number of inputs *)
      panic msg
  | OkNil hint =>
      hs <- mapM (index hint) (seq 0 18) ;;
      let hk k := nth k hs 0 in
      let residueWitness :=
        {| C0 := {| B0 := {| A0 := hk 0%nat; A1 := hk 1%nat |};
                    B1 := {| A0 := hk 2%nat; A1 := hk 3%nat |};
                    B2 := {| A0 := hk 4%nat; A1 := hk 5%nat |} |};
           C1 := {| B0 := {| A0 := hk 6%nat; A1 := hk 7%nat |};
                    B1 := {| A0 := hk 8%nat; A1 := hk 9%nat |};
                    B2 := {| A0 := hk 10%nat; A1 := hk 11%nat |} |} |} in
      (* constrain cubicNonResiduePower to be in Fp6 *)
      let cubicNonResiduePower :=
        {| C0 := {| B0 := {| A0 := hk 12%nat; A1 := hk 13%nat |};
                    B1 := {| A0 := hk 14%nat; A1 := hk 15%nat |};
                    B2 := {| A0 := hk 16%nat; A1 := hk 17%nat |} |};
           C1 := Ext6_Zero |} in
      (* residueWitnessInv = 1 / residueWitness *)
      residueWitnessInv <- call (Inverse ex residueWitness) ;;
      ql <- match Lines Q with
            | None =>
                Qlines <- call (computeLines pr (sw_bn254.P Q)) ;;
                ret ({| P := sw_bn254.P Q; Lines := Some Qlines |}, Qlines)
            | Some ls => ret (Q, ls)
            end ;;
      let lines := snd ql in
      (* precomputations *)
      yInv <- call (curveF_Inverse pr (G1Y P)) ;;
      xNegOverY <- call (curveF_Mul pr (G1X P) yInv) ;;
      xNegOverY <- call (curveF_Neg pr xNegOverY) ;;
      (* init Miller loop accumulator to residueWitnessInv *)
      res <- hintedIter pr ex lines xNegOverY yInv residueWitness
                        residueWitnessInv 65 residueWitnessInv ;;
      prodLines <- linesAt pr lines xNegOverY yInv 65 ;;
      res <- call (MulBy01234 pr res prodLines) ;;
      (* multiply by previous multi-Miller function *)
      res <- call (Mul ex res previous) ;;
      t2 <- call (Mul ex cubicNonResiduePower res) ;;
      t1 <- call (FrobeniusCube ex residueWitnessInv) ;;
      t0 <- call (FrobeniusSquare ex residueWitnessInv) ;;
      t1 <- call (DivUnchecked ex t1 t0) ;;
      t0 <- call (Frobenius ex residueWitnessInv) ;;
      t1 <- call (Mul ex t1 t0) ;;
      t2 <- call (Mul ex t2 t1) ;;
      ret (t2, fst ql)
  end.

(** Pairing.IsMillerLoopAndFinalExpOne *)
Definition IsMillerLoopAndFinalExpOne (pr : Pairing) (ex : Ext12Calls)
           (P : G1Affine) (Q : G2Affine) (previous : GTEl)
  : M (frontend.Var * G2Affine) :=
  tq <- millerLoopAndFinalExpResult pr ex P Q previous ;;
  res <- call (IsEqual ex (fst tq) Ext12_One) ;;
  ret (res, snd tq).

(** Pairing.AssertMillerLoopAndFinalExpIsOne *)
Definition AssertMillerLoopAndFinalExpIsOne (pr : Pairing) (ex : Ext12Calls)
           (P : G1Affine) (Q : G2Affine) (previous : GTEl) : M G2Affine :=
  tq <- millerLoopAndFinalExpResult pr ex P Q previous ;;
  call (AssertIsEqual ex (fst tq) Ext12_One) ;;;
  ret (snd tq).

End sw_bn254_rest.

(* ------------------------------------------------------------------------- *)
(** ** Membership tests, the pairing entry points and the affine steps *)

Module PairingRestFacts.
Import fields_bn254 sw_bn254 sw_bn254_rest BuilderFacts MillerFacts PairingFacts.

(** *** IsOnTwist and the G2 membership tests *)

(** The constant the select of [computeTwistEquation] leaves. *)
Definition twistConstant (pr : Pairing) (Q : G2Affine) : E2 :=
  if e2zero (xOf Q) && e2zero (yOf Q) then Ext2_Zero else bTwist pr.

Lemma computeTwistEquation_yields pr (Q : G2Affine) :
  yields (holds (q pr)) (computeTwistEquation pr Q)
         (Ext2_Square (yOf Q),
          Ext2_Add (Ext2_Mul (Ext2_Square (xOf Q)) (xOf Q)) (twistConstant pr Q)).
Proof.
  unfold computeTwistEquation, twistConstant.
  eapply yields_bind; [apply Ext2_IsZero_yields |].
  eapply yields_bind; [apply Ext2_IsZero_yields |].
  eapply yields_bind; [apply And_bits_yields |].
  eapply yields_bind; [apply Ext2_Select_yields |].
  apply yields_ret.
Qed.

Lemma twistConstant_cases pr (Q : G2Affine) :
  bTwist pr = bTwistConst ->
  (onTwist (twistConstant pr Q) Q <-> isInfinity Q \/ onTwist bTwistConst Q).
Proof.
  intros Hb. unfold twistConstant. rewrite Hb.
  destruct (e2zero (xOf Q) && e2zero (yOf Q)) eqn:Hsel.
  - assert (Hinf : isInfinity Q).
    { apply andb_true_iff in Hsel. destruct Hsel as [Hx Hy].
      apply e2zero_spec in Hx, Hy. unfold isInfinity. tauto. }
    split; [intros _; now left | intros _; now apply infinity_passes].
  - assert (Hinf : ~ isInfinity Q).
    { intros (Hx0 & Hx1 & Hy0 & Hy1).
      assert (Ex : e2zero (xOf Q) = true) by (apply e2zero_spec; tauto).
      assert (Ey : e2zero (yOf Q) = true) by (apply e2zero_spec; tauto).
      rewrite Ex, Ey in Hsel. discriminate. }
    tauto.
Qed.

Lemma mod_opp_zero (a b : Z) : (a - b) mod p = 0 <-> (b - a) mod p = 0.
Proof.
  pose proof p_pos. rewrite !Z.mod_divide by lia.
  replace (b - a) with (- (a - b)) by ring.
  now rewrite Z.divide_opp_r.
Qed.

Lemma e2zero_Sub (l r : E2) :
  e2zero (Ext2_Sub l r) = true <->
  (A0 r - A0 l) mod p = 0 /\ (A1 r - A1 l) mod p = 0.
Proof.
  rewrite e2zero_spec. unfold Ext2_Sub. cbn [A0 A1].
  pose proof p_pos. rewrite !Z.mod_mod by lia.
  rewrite (mod_opp_zero (A0 l)), (mod_opp_zero (A1 l)). reflexivity.
Qed.

Lemma IsOnTwist_run pr (Q : G2Affine) :
  bTwist pr = bTwistConst ->
  exists r cs,
    (forall s, IsOnTwist pr Q s = Done (r, cs ++ s)) /\
    sat (q pr) cs = true /\
    (frontend.val r = 0 \/ frontend.val r = 1) /\
    (frontend.val r = 1 <-> isInfinity Q \/ onTwist bTwistConst Q).
Proof.
  intros Hb.
  set (left := Ext2_Square (yOf Q)).
  set (right := Ext2_Add (Ext2_Mul (Ext2_Square (xOf Q)) (xOf Q))
                         (twistConstant pr Q)).
  assert (Hy : yields (holds (q pr)) (IsOnTwist pr Q)
                 (frontend.Wire (Z.b2z (e2zero (Ext2_Sub left right))))).
  { unfold IsOnTwist.
    eapply yields_bind; [apply computeTwistEquation_yields |].
    apply Ext2_IsZero_yields. }
  destruct Hy as (cs & Hrun & Hcs).
  exists (frontend.Wire (Z.b2z (e2zero (Ext2_Sub left right)))), cs.
  split; [apply Hrun |]. split; [exact Hcs |].
  cbn [frontend.val].
  split; [destruct (e2zero _); auto |].
  rewrite <- (twistConstant_cases pr Q Hb).
  pose proof (twist_sides (twistConstant pr Q) Q) as Hts. cbv zeta in Hts.
  fold left right in Hts. rewrite <- Hts, <- e2zero_Sub.
  destruct (e2zero _); simpl; split; congruence.
Qed.

(** X10.  [IsOnTwist] never panics and never makes the circuit
    unsatisfiable: every constraint it emits holds, and the boolean it
    returns is 1 exactly when Q is the sentinel (0,0) or satisfies
    Y^2 = X^3 + 3/(9+u), and 0 otherwise: the cases in which
    [AssertIsOnTwist] is satisfied. *)
Theorem IsOnTwist_iff_on_twist_or_infinity pr (Q : G2Affine) (s : Builder)
  (Hb : bTwist pr = bTwistConst) :
  exists r cs,
    IsOnTwist pr Q s = Done (r, cs ++ s) /\
    sat (q pr) cs = true /\
    (frontend.val r = 0 \/ frontend.val r = 1) /\
    (frontend.val r = 1 <-> isInfinity Q \/ onTwist bTwistConst Q).
Proof.
  destruct (IsOnTwist_run pr Q Hb) as (r & cs & Hrun & H).
  exists r, cs. split; [apply Hrun | exact H].
Qed.

(** The origin is accepted. *)
Lemma IsOnTwist_witness :
  exists r cs,
    IsOnTwist samplePairing
      {| P := {| X := Ext2_Zero; Y := Ext2_Zero |}; Lines := None |} []
    = Done (r, cs ++ []) /\
    sat (q samplePairing) cs = true /\
    (frontend.val r = 0 \/ frontend.val r = 1) /\
    (frontend.val r = 1 <->
     isInfinity {| P := {| X := Ext2_Zero; Y := Ext2_Zero |}; Lines := None |} \/
     onTwist bTwistConst
             {| P := {| X := Ext2_Zero; Y := Ext2_Zero |}; Lines := None |}).
Proof.
  exact (IsOnTwist_iff_on_twist_or_infinity samplePairing
           {| P := {| X := Ext2_Zero; Y := Ext2_Zero |}; Lines := None |} []
           eq_refl).
Defined.

Lemma AssertIsOnTwist_run pr (Q : G2Affine) :
  bTwist pr = bTwistConst ->
  exists cs,
    (forall s, AssertIsOnTwist pr Q s = Done (tt, cs ++ s)) /\
    collab_sat cs = true /\
    (sat (q pr) cs = true <-> isInfinity Q \/ onTwist bTwistConst Q).
Proof.
  intros Hb.
  destruct (computeTwistEquation_yields pr Q) as (cs & Hrun & Hcs).
  set (left := Ext2_Square (yOf Q)) in *.
  set (right := Ext2_Add (Ext2_Mul (Ext2_Square (xOf Q)) (xOf Q))
                         (twistConstant pr Q)) in *.
  exists ([CZeroMod (A1 right - A1 left) p; CZeroMod (A0 right - A0 left) p] ++ cs).
  split; [| split].
  - intros s. unfold AssertIsOnTwist. rewrite (bind_done _ _ _ _ _ (Hrun s)).
    reflexivity.
  - assert (Hsat : sat (q pr) cs = true) by exact Hcs.
    rewrite sat_own_collab in Hsat. apply andb_true_iff in Hsat.
    unfold collab_sat in *. rewrite forallb_app. simpl. tauto.
  - rewrite sat_app. unfold sat at 2. rewrite Hcs, andb_true_r.
    cbn [sat forallb holds]. rewrite andb_true_r, andb_true_iff, !Z.eqb_eq.
    pose proof (twist_sides (twistConstant pr Q) Q) as Hts. cbv zeta in Hts.
    fold left right in Hts.
    rewrite <- (twistConstant_cases pr Q Hb). tauto.
Qed.

Lemma computeG2ShortVector_yields q0 g2 (Q : G2Affine) :
  exists _Q, yields (own_holds q0) (computeG2ShortVector g2 Q) _Q.
Proof.
  eexists. unfold computeG2ShortVector.
  repeat (eapply yields_bind; [apply yields_call |]).
  apply yields_call.
Qed.

Lemma own_sat_app q0 (s1 s2 : Builder) :
  own_sat q0 (s1 ++ s2) = own_sat q0 s1 && own_sat q0 s2.
Proof. unfold own_sat. apply forallb_app. Qed.

Lemma collab_sat_app (s1 s2 : Builder) :
  collab_sat (s1 ++ s2) = collab_sat s1 && collab_sat s2.
Proof. unfold collab_sat. apply forallb_app. Qed.

(** X11.  Both G2 membership tests contain the curve test.  The constraints
    of [AssertIsOnG2] are satisfied exactly when Q is on the twist (or the
    sentinel) and the constraints of the subgroup check are; [IsOnG2]
    never panics and returns 1 only for a point that is on the twist (or the
    sentinel): it does not rely on the caller having checked the curve
    equation. *)
Theorem G2_membership_checks_the_twist pr g2 (Q : G2Affine) (s : Builder)
  (Hb : bTwist pr = bTwistConst) :
  (exists cs,
     AssertIsOnG2 pr g2 Q s = Done (tt, cs ++ s) /\
     (sat (q pr) cs = true <->
      (isInfinity Q \/ onTwist bTwistConst Q) /\ collab_sat cs = true)) /\
  (exists r cs,
     IsOnG2 pr g2 Q s = Done (r, cs ++ s) /\
     (frontend.val r = 1 -> isInfinity Q \/ onTwist bTwistConst Q)).
Proof.
  destruct (computeG2ShortVector_yields (q pr) g2 Q) as (_Q & cv & Hv & Hcv).
  split.
  - destruct (AssertIsOnTwist_run pr Q Hb) as (ct & Ht & Hcol & Hsat).
    exists ([CCollab (snd (g2_AssertIsEqual g2 Q _Q))] ++ cv ++ ct). split.
    + unfold AssertIsOnG2.
      rewrite (bind_done _ _ _ _ _ (Ht s)), (bind_done _ _ _ _ _ (Hv _)).
      destruct (g2_AssertIsEqual g2 Q _Q) as [[] ok].
      unfold call, emit, bind, ret. cbn [fst snd]. now rewrite <- !app_assoc.
    + rewrite !sat_app, !collab_sat_app, Hcol, andb_true_r.
      fold (own_sat (q pr) cv) in Hcv.
      rewrite (sat_own_collab _ cv), Hcv. cbn [andb].
      rewrite !andb_true_iff, Hsat.
      cbn [sat collab_sat forallb holds]. rewrite !andb_true_r. tauto.
  - destruct (IsOnTwist_run pr Q Hb) as (r & ct & Ht & _ & Hbit & Hr).
    eexists _, ([_; _; CCollab (snd (g2_IsEqual g2 Q _Q))] ++ cv ++ ct). split.
    + unfold IsOnG2.
      rewrite (bind_done _ _ _ _ _ (Ht s)), (bind_done _ _ _ _ _ (Hv _)).
      unfold call, emit, bind, ret, frontend.And, emit, bind, ret.
      now rewrite <- !app_assoc.
    + intros H1. apply Hr.
      assert (Hl : forall a b, frontend.val (frontend.lift2 Z.land a b)
                               = Z.land (frontend.val a) (frontend.val b))
        by (intros [a | a] [b | b]; reflexivity).
      rewrite Hl in H1. destruct Hbit as [E | E]; [| exact E].
      rewrite E in H1. simpl in H1. discriminate.
Qed.

(** Collaborators that do nothing, for the examples. *)
Definition sampleG2 : G2 :=
  {| scalarMulBySeed := fun Q => (Q, true);
     psi := fun Q => (Q, true);
     phi := fun Q => (Q, true);
     double := fun Q => (Q, true);
     sub := fun Q _ => (Q, true);
     g2_AssertIsEqual := fun _ _ => (tt, true);
     g2_IsEqual := fun _ _ => (frontend.Wire 1, true) |}.

Definition sampleExt12 : Ext12Calls :=
  {| Mul := fun x _ => (x, true);
     Conjugate := fun x => (x, true);
     DivUnchecked := fun x _ => (x, true);
     Frobenius := fun x => (x, true);
     FrobeniusSquare := fun x => (x, true);
     FrobeniusCube := fun x => (x, true);
     Inverse := fun x => (x, true);
     AssertFinalExponentiationIsOne := fun _ => (tt, true);
     IsEqual := fun _ _ => (frontend.Wire 1, true);
     AssertIsEqual := fun _ _ => (tt, true);
     NewHint := fun ins => OkNil ins |}.

Definition origin : G2Affine :=
  {| P := {| X := Ext2_Zero; Y := Ext2_Zero |}; Lines := None |}.

Lemma G2_membership_witness :
  (exists cs,
     AssertIsOnG2 samplePairing sampleG2 origin [] = Done (tt, cs ++ []) /\
     (sat (q samplePairing) cs = true <->
      (isInfinity origin \/ onTwist bTwistConst origin) /\ collab_sat cs = true)) /\
  (exists r cs,
     IsOnG2 samplePairing sampleG2 origin [] = Done (r, cs ++ []) /\
     (frontend.val r = 1 -> isInfinity origin \/ onTwist bTwistConst origin)).
Proof.
  exact (G2_membership_checks_the_twist samplePairing sampleG2 origin [] eq_refl).
Defined.

(** *** The cache of lines and the entry points *)

(** The lines the Miller loop uses for a point: the cached ones, or those
    [computeLines] returns. *)
Definition linesOf (pr : Pairing) (Qi : G2Affine) : lineEvaluations :=
  match Lines Qi with
  | Some ls => ls
  | None => fst (computeLines pr (P Qi))
  end.

(** The point as the Miller loop leaves it. *)
Definition cached (pr : Pairing) (Qi : G2Affine) : G2Affine :=
  match Lines Qi with
  | Some _ => Qi
  | None => {| P := P Qi; Lines := Some (fst (computeLines pr (P Qi))) |}
  end.

Definition uncached (Q : list G2Affine) : list G2Affine :=
  List.filter (fun Qi => match Lines Qi with None => true | Some _ => false end) Q.

Lemma cacheLines_run pr (Q : list G2Affine) (s : Builder) :
  exists cl,
    mapM (fun Qi =>
            match Lines Qi with
            | None =>
                Qlines <- call (computeLines pr (sw_bn254.P Qi)) ;;
                ret ({| P := sw_bn254.P Qi; Lines := Some Qlines |}, Qlines)
            | Some ls => ret (Qi, ls)
            end) Q s
    = Done (map (fun Qi => (cached pr Qi, linesOf pr Qi)) Q, cl ++ s) /\
    cl = rev (map (fun Qi => CCollab (snd (computeLines pr (P Qi)))) (uncached Q)).
Proof.
  revert s. induction Q as [| Qi Q IH]; intros s.
  - exists []. split; reflexivity.
  - cbn [mapM map]. unfold cached at 1, linesOf at 1, uncached. cbn [List.filter].
    destruct (Lines Qi) as [ls |] eqn:E.
    + destruct (IH s) as (cl & Hrun & Hcl).
      exists cl. split; [| exact Hcl].
      assert (H1 : ret (Qi, ls) s = Done ((Qi, ls), s)) by reflexivity.
      rewrite (bind_done _ _ _ _ _ H1), (bind_done _ _ _ _ _ Hrun).
      reflexivity.
    + destruct (IH (CCollab (snd (computeLines pr (P Qi))) :: s))
        as (cl & Hrun & Hcl).
      exists (cl ++ [CCollab (snd (computeLines pr (P Qi)))]). split.
      * assert (H1 : (Qlines <- call (computeLines pr (sw_bn254.P Qi)) ;;
                      ret ({| P := sw_bn254.P Qi; Lines := Some Qlines |}, Qlines)) s
                     = Done (({| P := sw_bn254.P Qi;
                                 Lines := Some (fst (computeLines pr (P Qi))) |},
                              fst (computeLines pr (P Qi))),
                             CCollab (snd (computeLines pr (P Qi))) :: s))
          by reflexivity.
        rewrite (bind_done _ _ _ _ _ H1), (bind_done _ _ _ _ _ Hrun).
        unfold ret. now rewrite <- app_assoc.
      * cbn [map rev]. now rewrite Hcl.
Qed.

Lemma MillerLoop_run pr (P : list G1Affine) (Q : list G2Affine) (s : Builder) :
  length P <> 0%nat -> length P = length Q ->
  exists res cl cs,
    MillerLoop pr P Q s = Done ((OkNil res, map (cached pr) Q), cs ++ cl ++ s) /\
    millerLoopLines pr P (map (linesOf pr) Q) (cl ++ s)
    = Done (OkNil res, cs ++ cl ++ s) /\
    cl = rev (map (fun Qi => CCollab (snd (computeLines pr (sw_bn254.P Qi))))
                  (uncached Q)).
Proof.
  intros Hn Hl. unfold MillerLoop.
  destruct (Nat.eqb_spec (length P) 0) as [E | _]; [contradiction |].
  destruct (Nat.eqb_spec (length P) (length Q)) as [_ | E]; [| contradiction].
  cbn [orb negb].
  destruct (cacheLines_run pr Q s) as (cl & Hrun & Hcl).
  rewrite (bind_done _ _ _ _ _ Hrun).
  rewrite !map_map. cbn [fst snd].
  destruct (returns_millerLoopLines pr P (map (linesOf pr) Q) Hn
              ltac:(now rewrite length_map) (cl ++ s)) as (r & cs & Hml & Hok).
  destruct r as [res | msg]; [| contradiction].
  exists res, cl, cs.
  rewrite (bind_done _ _ _ _ _ Hml). repeat split; auto.
Qed.

Lemma cached_idem pr (Qi : G2Affine) : cached pr (cached pr Qi) = cached pr Qi.
Proof. unfold cached. destruct (Lines Qi) eqn:E; simpl; now rewrite ?E. Qed.

Lemma fresh_lookup (H : heap) : H !! fresh (dom H) = None.
Proof. apply not_elem_of_dom, is_fresh. Qed.

(** X13.  [Pair] reports invalid sizes as the Miller loop's error wrapped in
    "miller loop: ", with nothing emitted and the store untouched.  On valid
    sizes it never panics: it runs the final exponentiation on the output of
    the Miller loop, the unsafe variant exactly when there is one pair and
    the safe one otherwise, and returns a fresh element; although the safe
    variant writes to its argument, no element the caller holds changes,
    since the argument is the Miller loop's own output. *)
Theorem Pair_wraps_error_and_keeps_store pr (P : list G1Affine)
        (Q : list G2Affine) (h : heap) (s : Builder)
  (Hq : 1 < q pr) :
  if ((length P =? 0)%nat || negb (length P =? length Q)%nat)%bool
  then Pair pr P Q h s
       = Done ((Error "miller loop: invalid inputs sizes", Q, h), s)
  else exists res cm r h' cs,
      MillerLoop pr P Q s = Done ((OkNil res, map (cached pr) Q), cm ++ s) /\
      Pair pr P Q h s = Done ((OkNil r, map (cached pr) Q, h'), cs ++ cm ++ s) /\
      h !! r = None /\
      h' !! r = Some (if (length P =? 1)%nat then unsafeResult pr res
                      else safeResult pr res) /\
      (forall l v, h !! l = Some v -> h' !! l = Some v).
Proof.
  destruct ((length P =? 0)%nat || negb (length P =? length Q)%nat)%bool eqn:G.
  - unfold Pair, MillerLoop. rewrite G. reflexivity.
  - apply orb_false_iff in G. destruct G as [G0 G1].
    apply Nat.eqb_neq in G0. apply negb_false_iff, Nat.eqb_eq in G1.
    destruct (MillerLoop_run pr P Q s G0 G1) as (res & cl & cm & Hml & _ & _).
    set (e := fresh (dom h)).
    assert (He : h !! e = None) by apply fresh_lookup.
    assert (Hframe : forall l v, h !! l = Some v -> l <> e).
    { intros l v Hl ->. congruence. }
    exists res, (cm ++ cl).
    unfold Pair. rewrite (bind_done _ _ _ _ _ Hml). cbn [fst snd]. fold e.
    destruct (length P =? 1)%nat.
    + destruct (finalExponentiation_unsafe pr e (<[e := res]> h) res
                  (lookup_insert_eq _ _ _)) as (cs & Hrun & _).
      set (r := fresh (dom (<[e := res]> h))) in *.
      assert (Hr : (<[e := res]> h) !! r = None) by apply fresh_lookup.
      assert (Hre : r <> e).
      { intros E. rewrite E, lookup_insert_eq in Hr. discriminate. }
      eexists r, _, cs. split; [now rewrite <- app_assoc |].
      split; [rewrite (bind_done _ _ _ _ _ (Hrun _)); cbn [fst snd];
              unfold ret; now rewrite <- !app_assoc |].
      split; [now rewrite lookup_insert_ne in Hr by auto |].
      split; [apply lookup_insert_eq |].
      intros l v Hl.
      assert (r <> l).
      { intros E. rewrite <- E in Hl. rewrite lookup_insert_ne in Hr by auto.
        congruence. }
      assert (e <> l) by (intros E; now apply (Hframe l v Hl)).
      rewrite !lookup_insert_ne by assumption. exact Hl.
    + destruct (finalExponentiation_safe pr e (<[e := res]> h) res Hq
                  (lookup_insert_eq _ _ _)) as (cs & Hrun & _).
      set (h1 := <[e := patched res]> (<[e := res]> h)) in *.
      set (r := fresh (dom h1)) in *.
      assert (Hr : h1 !! r = None) by apply fresh_lookup.
      assert (Hre : r <> e).
      { intros E. unfold h1 in Hr. rewrite E, lookup_insert_eq in Hr.
        discriminate. }
      eexists r, _, cs. split; [now rewrite <- app_assoc |].
      split; [rewrite (bind_done _ _ _ _ _ (Hrun _)); cbn [fst snd];
              unfold ret; now rewrite <- !app_assoc |].
      unfold h1 in Hr. rewrite !lookup_insert_ne in Hr by auto.
      split; [exact Hr |].
      split; [apply lookup_insert_eq |].
      intros l v Hl.
      assert (r <> l) by (intros E; congruence).
      assert (e <> l) by (intros E; now apply (Hframe l v Hl)).
      unfold h1. rewrite !lookup_insert_ne by assumption. exact Hl.
Qed.

Lemma Pair_witness :
  exists res cm r h' cs,
    MillerLoop samplePairing [{| G1X := 1; G1Y := 2 |}] [origin] []
    = Done ((OkNil res, map (cached samplePairing) [origin]), cm ++ []) /\
    Pair samplePairing [{| G1X := 1; G1Y := 2 |}] [origin] ∅ []
    = Done ((OkNil r, map (cached samplePairing) [origin], h'), cs ++ cm ++ []) /\
    (∅ : heap) !! r = None /\
    h' !! r = Some (unsafeResult samplePairing res) /\
    (forall l v, (∅ : heap) !! l = Some v -> h' !! l = Some v).
Proof.
  exact (Pair_wraps_error_and_keeps_store samplePairing
           [{| G1X := 1; G1Y := 2 |}] [origin] ∅ [] eq_refl).
Defined.

(** X14.  [PairingCheck] returns the Miller loop's error as it is (no
    prefix), with nothing emitted, exactly when the sizes are invalid, and
    otherwise completes with a nil error.  [MillerLoopAndMul] cannot return
    an error: the two one-element slices it builds always pass the size
    check, so its error branch is dead. *)
Theorem PairingCheck_and_MillerLoopAndMul_errors pr ex (P : list G1Affine)
        (Q : list G2Affine) (P1 : G1Affine) (Q1 : G2Affine) (previous : GTEl)
        (s : Builder) :
  (if ((length P =? 0)%nat || negb (length P =? length Q)%nat)%bool
   then PairingCheck pr ex P Q s = Done ((Error "invalid inputs sizes", Q), s)
   else exists cs,
       PairingCheck pr ex P Q s = Done ((OkNil tt, map (cached pr) Q), cs ++ s)) /\
  (exists res cs,
     MillerLoopAndMul pr ex P1 Q1 previous s
     = Done ((OkNil res, [cached pr Q1]), cs ++ s)).
Proof.
  split.
  - destruct ((length P =? 0)%nat || negb (length P =? length Q)%nat)%bool eqn:G.
    + unfold PairingCheck, MillerLoop. rewrite G. reflexivity.
    + apply orb_false_iff in G. destruct G as [G0 G1].
      apply Nat.eqb_neq in G0. apply negb_false_iff, Nat.eqb_eq in G1.
      destruct (MillerLoop_run pr P Q s G0 G1) as (res & cl & cm & Hml & _ & _).
      unfold PairingCheck. rewrite (bind_done _ _ _ _ _ Hml). cbn [fst snd].
      eexists (_ :: _ :: _ :: _ :: _ :: cm ++ cl).
      unfold call, emit, bind, ret. cbn [fst snd].
      cbn [app]. rewrite <- !app_assoc. reflexivity.
  - destruct (MillerLoop_run pr [P1] [Q1] s ltac:(simpl; lia) eq_refl)
      as (res & cl & cm & Hml & _ & _).
    unfold MillerLoopAndMul. rewrite (bind_done _ _ _ _ _ Hml). cbn [fst snd map].
    eexists _, (_ :: cm ++ cl).
    unfold call, emit, bind, ret. cbn [fst snd app].
    rewrite <- !app_assoc. reflexivity.
Qed.

(** *** The hinted Miller loop *)

Lemma loopCounter_digit (i : nat) :
  nth i loopCounter 0 = 0 \/ nth i loopCounter 0 = 1 \/ nth i loopCounter 0 = -1.
Proof.
  assert (H : Forall (fun d => d = 0 \/ d = 1 \/ d = -1) loopCounter).
  { unfold loopCounter.
    repeat (apply List.Forall_cons; [lia |]). apply List.Forall_nil. }
  destruct (Nat.lt_ge_cases i (length loopCounter)) as [Hi | Hi].
  - rewrite List.Forall_forall in H. apply H. now apply nth_In.
  - left. now apply nth_overflow.
Qed.

Lemma linesAt_yields q0 pr lines x y i :
  exists v, yields (own_holds q0) (linesAt pr lines x y i) v.
Proof.
  eexists. unfold linesAt.
  repeat (eapply yields_bind; [apply yields_call |]).
  apply yields_call.
Qed.

Lemma hintedStep_yields q0 pr ex lines x y rw rwi i res :
  exists v, yields (own_holds q0) (hintedStep pr ex lines x y rw rwi i res) v.
Proof.
  unfold hintedStep.
  destruct (loopCounter_digit i) as [E | [E | E]]; rewrite E; cbn [Z.eqb Pos.eqb].
  - eexists. repeat (eapply yields_bind; [apply yields_call |]). apply yields_call.
  - destruct (linesAt_yields q0 pr lines x y i) as (v & Hv).
    eexists.
    eapply yields_bind; [apply yields_call |].
    eapply yields_bind; [apply yields_call |].
    eapply yields_bind; [apply Hv |]. apply yields_call.
  - destruct (linesAt_yields q0 pr lines x y i) as (v & Hv).
    eexists.
    eapply yields_bind; [apply yields_call |].
    eapply yields_bind; [apply yields_call |].
    eapply yields_bind; [apply Hv |]. apply yields_call.
Qed.

Lemma hintedIter_yields q0 pr ex lines x y rw rwi m :
  forall res,
  exists v, yields (own_holds q0) (hintedIter pr ex lines x y rw rwi m res) v.
Proof.
  induction m as [| i IH]; intros res; cbn [hintedIter].
  - eexists. apply yields_ret.
  - destruct (hintedStep_yields q0 pr ex lines x y rw rwi i res) as (v1 & H1).
    destruct (IH v1) as (v & Hv).
    exists v. eapply yields_bind; [apply H1 | apply Hv].
Qed.

(** What [m] returns from the empty builder. *)
Definition valueOf {A} (m : M A) (d : A) : A :=
  match m [] with
  | Done (v, _) => v
  | Panic _ => d
  end.

Lemma yields_run {A} pc (m : M A) (d : A) :
  (exists v, yields pc m v) -> yields pc m (valueOf m d).
Proof.
  intros (v & cs & Hrun & Hcs). exists cs. split; [| exact Hcs].
  unfold valueOf. now rewrite (Hrun []).
Qed.

Lemma mapM_index {A} (xs : list A) (m : nat) :
  forall k s, (k <= length xs)%nat ->
    mapM (index xs) (seq k m) s =
    if (k + m <=? length xs)%nat then Done (firstn m (skipn k xs), s)
    else Panic "index out of range".
Proof.
  induction m as [| m IH]; intros k s Hk.
  - cbn [seq mapM firstn]. rewrite Nat.add_0_r.
    destruct (Nat.leb_spec k (length xs)); [reflexivity | lia].
  - cbn [seq mapM]. unfold bind at 1. unfold index at 1.
    destruct (nth_error xs k) as [x |] eqn:E.
    + assert (k < length xs)%nat by (apply nth_error_Some; congruence).
      unfold ret at 1. unfold bind at 1. rewrite IH by lia.
      replace (S k + m)%nat with (k + S m)%nat by lia.
      destruct (Nat.leb_spec (k + S m) (length xs)); [| reflexivity].
      unfold ret. now rewrite (EmulatedFacts.skipn_cons_nth _ _ _ E).
    + apply nth_error_None in E.
      destruct (Nat.leb_spec (k + S m) (length xs)); [lia | reflexivity].
Qed.

(** X15.  [millerLoopAndFinalExpResult] panics with the hint's error when
    the hint fails and with an index error when the hint returns fewer than
    18 values.  Otherwise it completes, and so do its two wrappers: every
    digit of [loopCounter] it switches on is 0, 1 or -1, so the default
    branch with its panic is never taken.  It emits no constraint of its
    own, hence the circuit is satisfied exactly when the constraints of the
    tower operations it calls are; the point comes back with its lines
    cached. *)
Theorem millerLoopAndFinalExpResult_never_hits_default pr ex (P : G1Affine)
        (Q : G2Affine) (previous : GTEl) (s : Builder) :
  match NewHint ex (hintInputs P Q previous) with
  | Error msg => millerLoopAndFinalExpResult pr ex P Q previous s = Panic msg
  | OkNil hint =>
      if (18 <=? length hint)%nat
      then exists t2 cs,
          millerLoopAndFinalExpResult pr ex P Q previous s
          = Done ((t2, cached pr Q), cs ++ s) /\
          sat (q pr) cs = collab_sat cs /\
          IsMillerLoopAndFinalExpOne pr ex P Q previous s
          = Done ((fst (IsEqual ex t2 Ext12_One), cached pr Q),
                  CCollab (snd (IsEqual ex t2 Ext12_One)) :: cs ++ s) /\
          AssertMillerLoopAndFinalExpIsOne pr ex P Q previous s
          = Done (cached pr Q,
                  CCollab (snd (AssertIsEqual ex t2 Ext12_One)) :: cs ++ s)
      else millerLoopAndFinalExpResult pr ex P Q previous s
           = Panic "index out of range"
  end.
Proof.
  unfold millerLoopAndFinalExpResult at 1 2 3.
  destruct (NewHint ex (hintInputs P Q previous)) as [hint | msg] eqn:Eh;
    [| reflexivity].
  destruct (Nat.leb_spec 18 (length hint)) as [H18 | H18].
  - assert (Hy : exists t2,
               yields (own_holds (q pr))
                      (millerLoopAndFinalExpResult pr ex P Q previous)
                      (t2, cached pr Q)).
    { unfold millerLoopAndFinalExpResult. rewrite Eh.
      assert (Hm : yields (own_holds (q pr)) (mapM (index hint) (seq 0 18))
                          (firstn 18 hint)).
      { exists []. split; [| reflexivity].
        intros s0. rewrite mapM_index by lia.
        destruct (Nat.leb_spec (0 + 18) (length hint)); [reflexivity | lia]. }
      eexists.
      eapply yields_bind; [apply Hm |]. cbv zeta.
      eapply yields_bind; [apply yields_call |].
      eapply yields_bind with (a := (cached pr Q, linesOf pr Q)).
      { unfold cached, linesOf. destruct (Lines Q).
        - apply yields_ret.
        - eapply yields_bind; [apply yields_call | apply yields_ret]. }
      cbn [fst snd].
      eapply yields_bind; [apply yields_call |].
      eapply yields_bind; [apply yields_call |].
      eapply yields_bind; [apply yields_call |].
      eapply yields_bind;
        [apply (yields_run _ _ Ext12_One), hintedIter_yields |].
      eapply yields_bind;
        [apply (yields_run _ _ (Ext2_Zero, Ext2_Zero, Ext2_Zero, Ext2_Zero,
                                Ext2_Zero)), linesAt_yields |].
      repeat (eapply yields_bind; [apply yields_call |]).
      apply yields_ret. }
    destruct Hy as (t2 & cs & Hrun & Hown).
    fold (own_sat (q pr) cs) in Hown.
    unfold millerLoopAndFinalExpResult in Hrun. rewrite Eh in Hrun.
    exists t2, cs. split; [apply Hrun |].
    split; [now rewrite sat_own_collab, Hown |].
    unfold IsMillerLoopAndFinalExpOne, AssertMillerLoopAndFinalExpIsOne,
      millerLoopAndFinalExpResult.
    rewrite Eh. rewrite !(bind_done _ _ _ _ _ (Hrun s)).
    split; reflexivity.
  - unfold bind at 1. rewrite mapM_index by lia.
    destruct (Nat.leb_spec (0 + 18) (length hint)); [lia | reflexivity].
Qed.

End PairingRestFacts.

(* ------------------------------------------------------------------------- *)
(** ** The affine steps of the lines precomputation *)

Module StepFacts.
Import fields_bn254 sw_bn254 sw_bn254_rest BuilderFacts PairingFacts.

(** Congruence modulo the base-field prime. *)
Inductive cong (a b : Z) : Prop :=
| cong_intro : a mod p = b mod p -> cong a b.

Lemma cong_eq (a b : Z) : cong a b <-> a mod p = b mod p.
Proof. split; [now intros [H] | now constructor]. Qed.

#[local] Instance cong_equiv : Equivalence cong.
Proof.
  split.
  - intros a. now constructor.
  - intros a b [H]. now constructor.
  - intros a b c [H1] [H2]. constructor. congruence.
Qed.

#[local] Instance cong_add : Proper (cong ==> cong ==> cong) Z.add.
Proof.
  intros a a' [Ha] b b' [Hb]. constructor.
  now rewrite Zplus_mod, Ha, Hb, <- Zplus_mod.
Qed.

#[local] Instance cong_sub : Proper (cong ==> cong ==> cong) Z.sub.
Proof.
  intros a a' [Ha] b b' [Hb]. constructor.
  now rewrite Zminus_mod, Ha, Hb, <- Zminus_mod.
Qed.

#[local] Instance cong_mul : Proper (cong ==> cong ==> cong) Z.mul.
Proof.
  intros a a' [Ha] b b' [Hb]. constructor.
  now rewrite Zmult_mod, Ha, Hb, <- Zmult_mod.
Qed.

#[local] Instance cong_opp : Proper (cong ==> cong) Z.opp.
Proof.
  intros a a' Ha. change (cong (0 - a) (0 - a')). now rewrite Ha.
Qed.

Lemma cong_mod (a : Z) : cong (a mod p) a.
Proof. constructor. apply Z.mod_mod. pose proof p_pos. lia. Qed.

Lemma cong_zero (a : Z) : cong a 0 <-> a mod p = 0.
Proof. rewrite cong_eq. now rewrite Z.mod_0_l by (pose proof p_pos; lia). Qed.

Lemma cong_diff (a b : Z) : cong a b <-> cong (a - b) 0.
Proof.
  split; intros H.
  - rewrite H. replace (b - b) with 0 by ring. reflexivity.
  - replace a with ((a - b) + b) by ring. rewrite H. reflexivity.
Qed.

Lemma e2zero_cong (x : E2) :
  e2zero x = true <-> cong (A0 x) 0 /\ cong (A1 x) 0.
Proof. now rewrite e2zero_spec, !cong_zero. Qed.

(** Equality in Fp2 = Fp[u]/(u^2+1), on representatives. *)
Definition e2cong (x y : E2) : Prop := cong (A0 x) (A0 y) /\ cong (A1 x) (A1 y).

#[local] Instance e2cong_equiv : Equivalence e2cong.
Proof.
  split.
  - intros x. split; reflexivity.
  - intros x y [H0 H1]. split; now symmetry.
  - intros x y z [H0 H1] [G0 G1]. split; etransitivity; eauto.
Qed.

Ltac e2unfold :=
  unfold Ext2_Add, Ext2_Sub, Ext2_Mul, Ext2_Neg, Ext2_Square,
    Ext2_MulByConstElement, Ext2_Zero, Ext2_One, fpZero, fpOne;
  cbn [A0 A1].

Ltac by_ring :=
  match goal with
  | |- cong ?a ?b =>
      let E := fresh "E" in
      assert (E : @eq Z a b) by ring; rewrite E; reflexivity
  end.

(** Componentwise: strip the reductions and compare the polynomials. *)
Ltac e2poly := split; e2unfold; repeat setoid_rewrite cong_mod; by_ring.

#[local] Instance Ext2_Add_proper : Proper (e2cong ==> e2cong ==> e2cong) Ext2_Add.
Proof.
  intros x x' [Hx0 Hx1] y y' [Hy0 Hy1].
  split; e2unfold; repeat setoid_rewrite cong_mod;
    rewrite ?Hx0, ?Hx1, ?Hy0, ?Hy1; reflexivity.
Qed.

#[local] Instance Ext2_Sub_proper : Proper (e2cong ==> e2cong ==> e2cong) Ext2_Sub.
Proof.
  intros x x' [Hx0 Hx1] y y' [Hy0 Hy1].
  split; e2unfold; repeat setoid_rewrite cong_mod;
    rewrite ?Hx0, ?Hx1, ?Hy0, ?Hy1; reflexivity.
Qed.

#[local] Instance Ext2_Mul_proper : Proper (e2cong ==> e2cong ==> e2cong) Ext2_Mul.
Proof.
  intros x x' [Hx0 Hx1] y y' [Hy0 Hy1].
  split; e2unfold; repeat setoid_rewrite cong_mod;
    rewrite ?Hx0, ?Hx1, ?Hy0, ?Hy1; reflexivity.
Qed.

#[local] Instance Ext2_Neg_proper : Proper (e2cong ==> e2cong) Ext2_Neg.
Proof.
  intros x x' [Hx0 Hx1].
  split; e2unfold; repeat setoid_rewrite cong_mod;
    rewrite ?Hx0, ?Hx1; reflexivity.
Qed.

Lemma E2_ring :
  ring_theory Ext2_Zero Ext2_One Ext2_Add Ext2_Mul Ext2_Sub Ext2_Neg e2cong.
Proof.
  constructor.
  - intros [x0 x1]. e2poly.
  - intros [x0 x1] [y0 y1]. e2poly.
  - intros [x0 x1] [y0 y1] [z0 z1]. e2poly.
  - intros [x0 x1]. e2poly.
  - intros [x0 x1] [y0 y1]. e2poly.
  - intros [x0 x1] [y0 y1] [z0 z1]. e2poly.
  - intros [x0 x1] [y0 y1] [z0 z1]. e2poly.
  - intros [x0 x1] [y0 y1]. e2poly.
  - intros [x0 x1]. e2poly.
Qed.

Lemma E2_ring_ext : ring_eq_ext Ext2_Add Ext2_Mul Ext2_Neg e2cong.
Proof.
  constructor.
  - apply Ext2_Add_proper.
  - apply Ext2_Mul_proper.
  - apply Ext2_Neg_proper.
Qed.

Add Ring E2Ring : E2_ring (setoid e2cong_equiv E2_ring_ext).

Declare Scope e2_scope.
Delimit Scope e2_scope with e2.
Infix "+" := Ext2_Add : e2_scope.
Infix "-" := Ext2_Sub : e2_scope.
Infix "*" := Ext2_Mul : e2_scope.
Notation "- x" := (Ext2_Neg x) : e2_scope.
Notation "x == y" := (e2cong x y) (at level 70, no associativity) : e2_scope.

Lemma Square_Mul (x : E2) : (Ext2_Square x == x * x)%e2.
Proof. destruct x as [x0 x1]. e2poly. Qed.

Lemma MulByConst_2 (x : E2) : (Ext2_MulByConstElement x 2 == x + x)%e2.
Proof. destruct x as [x0 x1]. e2poly. Qed.

Lemma MulByConst_3 (x : E2) : (Ext2_MulByConstElement x 3 == x + (x + x))%e2.
Proof. destruct x as [x0 x1]. e2poly. Qed.

#[local] Instance Ext2_Square_proper : Proper (e2cong ==> e2cong) Ext2_Square.
Proof. intros x x' Hx. now rewrite !Square_Mul, Hx. Qed.

Lemma e2_diff (x y : E2) : (x == y <-> x - y == Ext2_Zero)%e2.
Proof.
  split; intros H.
  - rewrite H. ring.
  - transitivity ((x - y) + y)%e2; [ring | rewrite H; ring].
Qed.

Lemma e2zero_e2cong (x : E2) : e2zero x = true <-> (x == Ext2_Zero)%e2.
Proof. rewrite e2zero_spec. unfold e2cong. now rewrite !cong_zero. Qed.

(** *** Lines and points *)

(** The line [l] vanishes at the point [pt]: [y - R0 * x + R1 = 0] in Fp2. *)
Definition onLine (l : lineEvaluation) (pt : g2AffP) : Prop :=
  e2zero (Ext2_Add (Ext2_Sub (Y pt) (Ext2_Mul (R0 l) (X pt))) (R1 l)) = true.

(** The opposite of a point. *)
Definition negP (pt : g2AffP) : g2AffP :=
  {| X := X pt; Y := Ext2_Neg (Y pt) |}.

(** [pt] satisfies Y^2 = X^3 + b. *)
Definition onCurve (b : E2) (pt : g2AffP) : Prop :=
  onTwist b {| P := pt; Lines := None |}.

(** The point of abscissa [xr] that the steps return for the line of slope
    [l] through [p1]. *)
Definition thirdPoint (l : E2) (p1 : g2AffP) (xr : E2) : g2AffP :=
  {| X := xr;
     Y := Ext2_Sub (Ext2_Mul l (Ext2_Sub (X p1) xr)) (Y p1) |}.

Local Open Scope e2_scope.

Lemma onCurve_e2 (b : E2) (pt : g2AffP) :
  onCurve b pt <-> Y pt * Y pt == X pt * X pt * X pt + b.
Proof.
  unfold onCurve.
  pose proof (twist_sides b {| P := pt; Lines := None |}) as Hts.
  cbv zeta in Hts. unfold xOf, yOf in Hts. cbn [P] in Hts.
  rewrite <- Hts, <- !cong_zero, <- !cong_diff.
  change (Ext2_Add (Ext2_Mul (Ext2_Square (X pt)) (X pt)) b
          == Ext2_Square (Y pt) <-> Y pt * Y pt == X pt * X pt * X pt + b).
  rewrite !Square_Mul. split; intros H; now symmetry.
Qed.

Lemma onLine_e2 (l : lineEvaluation) (pt : g2AffP) :
  onLine l pt <-> Y pt - R0 l * X pt + R1 l == Ext2_Zero.
Proof. unfold onLine. apply e2zero_e2cong. Qed.

Lemma line_base (l : E2) (p1 : g2AffP) : onLine (lineThrough l p1) p1.
Proof. apply onLine_e2. unfold lineThrough. cbn [R0 R1]. ring. Qed.

Lemma line_third (l : E2) (p1 : g2AffP) (xr : E2) :
  onLine (lineThrough l p1) (negP (thirdPoint l p1 xr)).
Proof.
  apply onLine_e2. unfold lineThrough, negP, thirdPoint. cbn [R0 R1 X Y]. ring.
Qed.

(** The line of slope [l] through [p1] passes through [p2] exactly when [l]
    is the slope of the chord. *)
Lemma line_chord (l : E2) (p1 p2 : g2AffP) :
  l * (X p2 - X p1) == Y p2 - Y p1 <-> onLine (lineThrough l p1) p2.
Proof.
  rewrite onLine_e2. unfold lineThrough. cbn [R0 R1].
  rewrite (e2_diff (l * (X p2 - X p1))).
  split; intros H.
  - transitivity (- (l * (X p2 - X p1) - (Y p2 - Y p1))); [ring |].
    rewrite H. ring.
  - transitivity (- (Y p2 - l * X p2 + (l * X p1 - Y p1))); [ring |].
    rewrite H. ring.
Qed.

(** The same with the operands of the division in the order of
    doubleAndAddStep and lineCompute. *)
Lemma line_chord_rev (l : E2) (p1 p2 : g2AffP) :
  l * (X p1 - X p2) == Y p1 - Y p2 <-> onLine (lineThrough l p1) p2.
Proof.
  rewrite <- line_chord. rewrite (e2_diff (l * (X p1 - X p2))).
  rewrite (e2_diff (l * (X p2 - X p1))).
  split; intros H.
  - transitivity (- (l * (X p1 - X p2) - (Y p1 - Y p2))); [ring |].
    rewrite H. ring.
  - transitivity (- (l * (X p2 - X p1) - (Y p2 - Y p1))); [ring |].
    rewrite H. ring.
Qed.

Lemma line_chord_neg (l : E2) (p1 p2 : g2AffP) :
  l * (X p1 - X p2) == Y p1 + Y p2 <-> onLine (lineThrough l p1) (negP p2).
Proof.
  rewrite <- line_chord_rev. unfold negP. cbn [X Y].
  rewrite (e2_diff (l * (X p1 - X p2)) (Y p1 + Y p2)).
  rewrite (e2_diff (l * (X p1 - X p2)) (Y p1 - - Y p2)).
  split; intros H.
  - transitivity (l * (X p1 - X p2) - (Y p1 + Y p2)); [ring | exact H].
  - transitivity (l * (X p1 - X p2) - (Y p1 - - Y p2)); [ring | exact H].
Qed.

(** The chord rule stays on the curve, when the difference of the abscissas
    is invertible. *)
Lemma chord_on_curve (b : E2) (p1 p2 : g2AffP) (l t : E2) :
  onCurve b p1 -> onCurve b p2 ->
  l * (X p2 - X p1) == Y p2 - Y p1 ->
  (X p2 - X p1) * t == Ext2_One ->
  onCurve b (thirdPoint l p1 (l * l - (X p1 + X p2))).
Proof.
  rewrite !onCurve_e2. unfold thirdPoint. cbn [X Y].
  destruct p1 as [x1 y1], p2 as [x2 y2]. cbn [X Y].
  intros H1 H2 Hc Ht.
  apply e2_diff in H1, H2.
  set (xr := l * l - (x1 + x2)).
  set (c := (y1 + y1) * l - l * l * x1 - x1 * x1 + x2 * xr).
  assert (C2 : c * (x2 - x1) == Ext2_Zero).
  { transitivity ((l * (x2 - x1) + y1) * (l * (x2 - x1) + y1)
                  - x2 * x2 * x2 - y1 * y1 + x1 * x1 * x1);
      [unfold c, xr; ring |].
    rewrite Hc.
    transitivity ((y2 * y2 - (x2 * x2 * x2 + b)) - (y1 * y1 - (x1 * x1 * x1 + b)));
      [ring |].
    rewrite H1, H2. ring. }
  assert (C3 : c == Ext2_Zero).
  { transitivity (c * ((x2 - x1) * t)); [rewrite Ht; ring |].
    transitivity (c * (x2 - x1) * t); [ring |].
    rewrite C2. ring. }
  apply e2_diff.
  transitivity ((y1 * y1 - (x1 * x1 * x1 + b)) + (xr - x1) * c);
    [unfold c, xr; ring |].
  rewrite H1, C3. ring.
Qed.

(** The tangent rule stays on the curve. *)
Lemma tangent_on_curve (b : E2) (p1 : g2AffP) (l : E2) :
  onCurve b p1 ->
  l * (Y p1 + Y p1) == X p1 * X p1 + (X p1 * X p1 + X p1 * X p1) ->
  onCurve b (thirdPoint l p1 (l * l - (X p1 + X p1))).
Proof.
  rewrite !onCurve_e2. unfold thirdPoint. cbn [X Y].
  destruct p1 as [x1 y1]. cbn [X Y].
  intros H1 Hc. apply e2_diff in H1, Hc.
  set (xr := l * l - (x1 + x1)).
  apply e2_diff.
  transitivity ((y1 * y1 - (x1 * x1 * x1 + b))
                + (xr - x1) * (l * (y1 + y1) - (x1 * x1 + (x1 * x1 + x1 * x1))));
    [unfold xr; ring |].
  rewrite H1, Hc. ring.
Qed.

Lemma DivUnchecked_run hint (n d : E2) (s : Builder) :
  exists cs,
    Ext2_DivUnchecked hint n d s = Done (hint n d, cs ++ s) /\
    (forall q0, sat q0 cs = true <-> hint n d * d == n).
Proof.
  eexists [_; _]. split; [reflexivity |].
  intros q0. unfold e2cong. cbn [sat forallb holds].
  rewrite andb_true_r, andb_true_iff, !Z.eqb_eq, <- !cong_zero, <- !cong_diff.
  tauto.
Qed.

(** *** addStep *)

Lemma addStep_run hint (p1 p2 : g2AffP) (s : Builder) :
  let l := hint (Y p2 - Y p1) (X p2 - X p1) in
  exists cs,
    addStep hint p1 p2 s
    = Done ((thirdPoint l p1 (Ext2_Square l - (X p1 + X p2)), lineThrough l p1),
            cs ++ s) /\
    (forall q0, sat q0 cs = true <-> l * (X p2 - X p1) == Y p2 - Y p1).
Proof.
  intros l.
  destruct (DivUnchecked_run hint (Y p2 - Y p1) (X p2 - X p1) s)
    as (cs & Hrun & Hsat).
  exists cs. split; [| exact Hsat].
  unfold addStep. rewrite (bind_done _ _ _ _ _ Hrun). reflexivity.
Qed.

Lemma thirdPoint_proper (l : E2) (p1 : g2AffP) (b xr xr' : E2) :
  xr == xr' -> onCurve b (thirdPoint l p1 xr) -> onCurve b (thirdPoint l p1 xr').
Proof.
  rewrite !onCurve_e2. unfold thirdPoint. cbn [X Y].
  intros H. now rewrite H.
Qed.

(** X16.  [addStep] never panics.  The line it returns passes through [p1]
    and through the opposite of the point it returns, whatever the hint
    supplies as the slope; it passes through [p2] exactly when the two
    constraints of the unchecked division are satisfied. *)
Theorem addStep_line_is_chord hint (p1 p2 : g2AffP) (s : Builder) (q0 : Z) :
  exists r line cs,
    addStep hint p1 p2 s = Done ((r, line), cs ++ s) /\
    onLine line p1 /\
    onLine line (negP r) /\
    (sat q0 cs = true <-> onLine line p2).
Proof.
  destruct (addStep_run hint p1 p2 s) as (cs & Hrun & Hsat).
  eexists _, _, cs. split; [exact Hrun |].
  split; [apply line_base |]. split; [apply line_third |].
  rewrite Hsat. apply line_chord.
Qed.

(** X17.  When its constraints are satisfied, [addStep] maps two points of
    the curve Y^2 = X^3 + b whose abscissas differ by an invertible element
    to a point of the curve. *)
Theorem addStep_stays_on_curve hint (b : E2) (p1 p2 r : g2AffP)
        (line : lineEvaluation) (s : Builder) (cs : list Constraint) (q0 : Z)
  (Hrun : addStep hint p1 p2 s = Done ((r, line), cs ++ s))
  (Hsat : sat q0 cs = true)
  (H1 : onCurve b p1) (H2 : onCurve b p2)
  (Hinv : exists t, (X p2 - X p1) * t == Ext2_One) :
  onCurve b r.
Proof.
  destruct (addStep_run hint p1 p2 s) as (cs' & Hrun' & Hsat').
  rewrite Hrun' in Hrun. inversion Hrun as [[Hr Hl Hcs]].
  apply app_inv_tail in Hcs. subst cs'.
  destruct Hinv as (t & Ht).
  apply Hsat' in Hsat.
  eapply thirdPoint_proper; [| exact (chord_on_curve b p1 p2 _ t H1 H2 Hsat Ht)].
  now rewrite Square_Mul.
Qed.

(** *** doubleStep *)

Lemma doubleStep_run hint (p1 : g2AffP) (s : Builder) :
  let l := hint (Ext2_MulByConstElement (Ext2_Square (X p1)) 3)
                (Ext2_MulByConstElement (Y p1) 2) in
  exists cs,
    doubleStep hint p1 s
    = Done ((thirdPoint l p1 (Ext2_Square l - Ext2_MulByConstElement (X p1) 2),
             lineThrough l p1), cs ++ s) /\
    (forall q0, sat q0 cs = true <->
                l * (Y p1 + Y p1) == X p1 * X p1 + (X p1 * X p1 + X p1 * X p1)).
Proof.
  intros l.
  destruct (DivUnchecked_run hint (Ext2_MulByConstElement (Ext2_Square (X p1)) 3)
              (Ext2_MulByConstElement (Y p1) 2) s) as (cs & Hrun & Hsat).
  exists cs. split.
  - unfold doubleStep. rewrite (bind_done _ _ _ _ _ Hrun). reflexivity.
  - intros q0. rewrite Hsat. fold l.
    now rewrite MulByConst_2, MulByConst_3, Square_Mul.
Qed.

(** X18.  When its constraints are satisfied, [doubleStep] maps a point of
    the curve Y^2 = X^3 + b to a point of the curve; the line it returns
    passes through [p1] and through the opposite of the point returned, and
    its slope [l] is the tangent's: [2 y l = 3 x^2]. *)
Theorem doubleStep_stays_on_curve hint (b : E2) (p1 r : g2AffP)
        (line : lineEvaluation) (s : Builder) (cs : list Constraint) (q0 : Z)
  (Hrun : doubleStep hint p1 s = Done ((r, line), cs ++ s))
  (Hsat : sat q0 cs = true)
  (H1 : onCurve b p1) :
  onCurve b r /\
  onLine line p1 /\ onLine line (negP r) /\
  R0 line * (Y p1 + Y p1) == X p1 * X p1 + (X p1 * X p1 + X p1 * X p1).
Proof.
  destruct (doubleStep_run hint p1 s) as (cs' & Hrun' & Hsat').
  rewrite Hrun' in Hrun. inversion Hrun as [[Hr Hl Hcs]].
  apply app_inv_tail in Hcs. subst cs'.
  apply Hsat' in Hsat.
  split; [| split; [apply line_base | split; [apply line_third | exact Hsat]]].
  eapply thirdPoint_proper; [| exact (tangent_on_curve b p1 _ H1 Hsat)].
  rewrite (Square_Mul (hint _ _)), (MulByConst_2 (X p1)). reflexivity.
Qed.

(** *** doubleAndAddStep and lineCompute *)

(** The second operand as the step uses it: [p2], or its opposite when
    subtracting. *)
Definition signed (isSub : bool) (p2 : g2AffP) : g2AffP :=
  if isSub then negP p2 else p2.

Lemma negP_on_curve (b : E2) (pt : g2AffP) : onCurve b pt -> onCurve b (negP pt).
Proof.
  rewrite !onCurve_e2. unfold negP. cbn [X Y]. intros H.
  transitivity (Y pt * Y pt); [ring | exact H].
Qed.

Lemma signed_on_curve (b : E2) (isSub : bool) (pt : g2AffP) :
  onCurve b pt -> onCurve b (signed isSub pt).
Proof. destruct isSub; [apply negP_on_curve | auto]. Qed.

(** The slope of the first line. *)
Definition slope1 (hint : E2 -> E2 -> E2) (p1 p2 : g2AffP) (isSub : bool) : E2 :=
  hint (if isSub then Y p1 + Y p2 else Y p1 - Y p2) (X p1 - X p2).

(** The point [p1 + p2] (or [p1 - p2]) on the line of slope [l] through
    [p1]: the step computes its abscissa only. *)
Definition sumPoint (l : E2) (p1 p2 : g2AffP) : g2AffP :=
  thirdPoint l p1 (Ext2_Square l - (X p1 + X p2)).

(** The quotient of the second division and the slope of the second line. *)
Definition quotient2 (hint : E2 -> E2 -> E2) (p1 p2 : g2AffP) (isSub : bool) : E2 :=
  hint (Ext2_MulByConstElement (Y p1) 2)
       (X (sumPoint (slope1 hint p1 p2 isSub) p1 p2) - X p1).

Definition slope2 (hint : E2 -> E2 -> E2) (p1 p2 : g2AffP) (isSub : bool) : E2 :=
  - (quotient2 hint p1 p2 isSub + slope1 hint p1 p2 isSub).

Lemma doubleAndAddStep_run hint (p1 p2 : g2AffP) (isSub : bool) (s : Builder) :
  let l1 := slope1 hint p1 p2 isSub in
  let p3 := sumPoint l1 p1 p2 in
  let l2 := slope2 hint p1 p2 isSub in
  exists c1 c2,
    doubleAndAddStep hint p1 p2 isSub s
    = Done ((thirdPoint l2 p1 (Ext2_Square l2 - (X p1 + X p3)),
             lineThrough l1 p1, lineThrough l2 p1),
            c2 ++ c1 ++ s) /\
    Ext2_DivUnchecked hint (if isSub then Y p1 + Y p2 else Y p1 - Y p2)
                      (X p1 - X p2) s = Done (l1, c1 ++ s) /\
    (forall q0, sat q0 c1 = true <->
                l1 * (X p1 - X p2) == (if isSub then Y p1 + Y p2 else Y p1 - Y p2)) /\
    (forall q0, sat q0 c2 = true <->
                quotient2 hint p1 p2 isSub * (X p3 - X p1) == Y p1 + Y p1).
Proof.
  intros l1 p3 l2.
  destruct (DivUnchecked_run hint (if isSub then Y p1 + Y p2 else Y p1 - Y p2)
              (X p1 - X p2) s) as (c1 & Hrun1 & Hsat1).
  fold (slope1 hint p1 p2 isSub) in Hrun1, Hsat1. fold l1 in Hrun1, Hsat1.
  destruct (DivUnchecked_run hint (Ext2_MulByConstElement (Y p1) 2)
              (X p3 - X p1) (c1 ++ s)) as (c2 & Hrun2 & Hsat2).
  exists c1, c2. split; [| split; [exact Hrun1 | split; [exact Hsat1 |]]].
  - unfold doubleAndAddStep.
    rewrite (bind_done _ _ _ _ _ Hrun1). cbv zeta.
    change (Ext2_Sub (Ext2_Square l1) (Ext2_Add (X p1) (X p2))) with (X p3).
    rewrite (bind_done _ _ _ _ _ Hrun2). reflexivity.
  - intros q0. rewrite Hsat2.
    change (hint (Ext2_MulByConstElement (Y p1) 2) (X p3 - X p1))
      with (quotient2 hint p1 p2 isSub).
    now rewrite (MulByConst_2 (Y p1)).
Qed.

Lemma second_line (l1 t2 : E2) (p1 p2 : g2AffP) :
  t2 * (X (sumPoint l1 p1 p2) - X p1) == Y p1 + Y p1 <->
  onLine (lineThrough (- (t2 + l1)) p1) (sumPoint l1 p1 p2).
Proof.
  rewrite <- line_chord.
  set (x3 := X (sumPoint l1 p1 p2)).
  assert (Ey : Y (sumPoint l1 p1 p2) = l1 * (X p1 - x3) - Y p1) by reflexivity.
  rewrite Ey.
  rewrite (e2_diff (t2 * (x3 - X p1))).
  rewrite (e2_diff (- (t2 + l1) * (x3 - X p1))).
  split; intros H.
  - transitivity (- (t2 * (x3 - X p1) - (Y p1 + Y p1))); [ring |].
    rewrite H. ring.
  - transitivity (- (- (t2 + l1) * (x3 - X p1) - (l1 * (X p1 - x3) - Y p1 - Y p1)));
      [ring |].
    rewrite H. ring.
Qed.

Lemma first_line (l : E2) (p1 p2 : g2AffP) (isSub : bool) :
  l * (X p1 - X p2) == (if isSub then Y p1 + Y p2 else Y p1 - Y p2) <->
  onLine (lineThrough l p1) (signed isSub p2).
Proof.
  destruct isSub; [apply line_chord_neg | apply line_chord_rev].
Qed.

(** X19.  [doubleAndAddStep] never panics.  Its first line passes through
    [p1] and through the opposite of the point [p1 + p2] (or [p1 - p2])
    whose ordinate it does not compute, and through [p2] (or [-p2]) exactly
    when the constraints of the first division hold; its second line passes
    through [p1] and the opposite of the point returned, and through
    [p1 + p2] (or [p1 - p2]) exactly when the constraints of the second
    division hold. *)
Theorem doubleAndAddStep_lines hint (p1 p2 : g2AffP) (isSub : bool)
        (s : Builder) (q0 : Z) :
  exists r line1 line2 c1 c2,
    doubleAndAddStep hint p1 p2 isSub s = Done ((r, line1, line2), c2 ++ c1 ++ s) /\
    onLine line1 p1 /\
    (sat q0 c1 = true <-> onLine line1 (signed isSub p2)) /\
    onLine line1 (negP (sumPoint (R0 line1) p1 p2)) /\
    onLine line2 p1 /\
    (sat q0 c2 = true <-> onLine line2 (sumPoint (R0 line1) p1 p2)) /\
    onLine line2 (negP r).
Proof.
  destruct (doubleAndAddStep_run hint p1 p2 isSub s)
    as (c1 & c2 & Hrun & _ & Hsat1 & Hsat2).
  eexists _, _, _, c1, c2. split; [exact Hrun |].
  cbn [lineThrough R0].
  split; [apply line_base |].
  split; [rewrite Hsat1; apply first_line |].
  split; [apply line_third |].
  split; [apply line_base |].
  split; [rewrite Hsat2; apply second_line |].
  apply line_third.
Qed.

(** X20.  When its constraints are satisfied, [doubleAndAddStep] maps two
    points of the curve Y^2 = X^3 + b to a point of the curve, provided the
    two differences of abscissas it divides by are invertible. *)
Theorem doubleAndAddStep_stays_on_curve hint (b : E2) (p1 p2 r : g2AffP)
        (isSub : bool) (line1 line2 : lineEvaluation) (s : Builder)
        (cs : list Constraint) (q0 : Z)
  (Hrun : doubleAndAddStep hint p1 p2 isSub s = Done ((r, line1, line2), cs ++ s))
  (Hsat : sat q0 cs = true)
  (H1 : onCurve b p1) (H2 : onCurve b p2)
  (Hinv1 : exists t, (X p2 - X p1) * t == Ext2_One)
  (Hinv2 : exists t, (X (sumPoint (R0 line1) p1 p2) - X p1) * t == Ext2_One) :
  onCurve b r /\ onCurve b (sumPoint (R0 line1) p1 p2).
Proof.
  destruct (doubleAndAddStep_run hint p1 p2 isSub s)
    as (c1 & c2 & Hrun' & _ & Hsat1 & Hsat2).
  rewrite Hrun' in Hrun. inversion Hrun as [[Hr Hl1 Hl2 Hcs]].
  rewrite app_assoc in Hcs. apply app_inv_tail in Hcs. subst cs r line1 line2.
  clear Hrun.
  rewrite sat_app in Hsat. apply andb_true_iff in Hsat. destruct Hsat as [S2 S1].
  apply Hsat1 in S1. apply Hsat2 in S2.
  cbn [lineThrough R0] in *.
  set (l1 := slope1 hint p1 p2 isSub) in *.
  set (t2 := quotient2 hint p1 p2 isSub) in *.
  destruct Hinv1 as (t & Ht). destruct Hinv2 as (t' & Ht').
  assert (H3 : onCurve b (sumPoint l1 p1 p2)).
  { pose proof (signed_on_curve b isSub p2 H2) as H2'.
    assert (Hx : X (signed isSub p2) = X p2) by (destruct isSub; reflexivity).
    assert (Hc : l1 * (X (signed isSub p2) - X p1)
                 == Y (signed isSub p2) - Y p1).
    { apply line_chord, first_line, S1. }
    assert (Ht2 : (X (signed isSub p2) - X p1) * t == Ext2_One)
      by now rewrite Hx.
    pose proof (chord_on_curve b p1 (signed isSub p2) l1 t H1 H2' Hc Ht2) as G.
    rewrite Hx in G.
    eapply thirdPoint_proper; [| exact G].
    unfold l1. now rewrite (Square_Mul (slope1 _ _ _ _)). }
  split; [| exact H3].
  assert (Hc2 : - (t2 + l1) * (X (sumPoint l1 p1 p2) - X p1)
                == Y (sumPoint l1 p1 p2) - Y p1).
  { apply line_chord, second_line, S2. }
  pose proof (chord_on_curve b p1 (sumPoint l1 p1 p2) (- (t2 + l1)) t'
                H1 H3 Hc2 Ht') as G.
  eapply thirdPoint_proper; [| exact G].
  unfold slope2. fold t2 l1. now rewrite (Square_Mul (- (t2 + l1))).
Qed.

Lemma lineCompute_run hint (p1 p2 : g2AffP) (s : Builder) :
  exists cs,
    lineCompute hint p1 p2 s
    = Done (lineThrough (slope1 hint p1 p2 true) p1, cs ++ s) /\
    Ext2_DivUnchecked hint (Y p1 + Y p2) (X p1 - X p2) s
    = Done (slope1 hint p1 p2 true, cs ++ s) /\
    (forall q0, sat q0 cs = true <->
                slope1 hint p1 p2 true * (X p1 - X p2) == Y p1 + Y p2).
Proof.
  destruct (DivUnchecked_run hint (Y p1 + Y p2) (X p1 - X p2) s)
    as (cs & Hrun & Hsat).
  exists cs. split; [| split; [exact Hrun | exact Hsat]].
  unfold lineCompute. rewrite (bind_done _ _ _ _ _ Hrun). reflexivity.
Qed.

(** X21.  [lineCompute] never panics.  The line it returns passes through
    [p1], and through the opposite of [p2] exactly when the constraints of
    its division hold: it is the line through [p1] and [-p2], the first line
    that [doubleAndAddStep] returns when subtracting [p2], with the same
    constraints. *)
Theorem lineCompute_is_line_to_opposite hint (p1 p2 : g2AffP) (s : Builder)
        (q0 : Z) :
  exists line cs,
    lineCompute hint p1 p2 s = Done (line, cs ++ s) /\
    onLine line p1 /\
    (sat q0 cs = true <-> onLine line (negP p2)) /\
    exists r line2 c2,
      doubleAndAddStep hint p1 p2 true s = Done ((r, line, line2), c2 ++ cs ++ s).
Proof.
  destruct (lineCompute_run hint p1 p2 s) as (cs & Hrun & Hdiv & Hsat).
  destruct (doubleAndAddStep_run hint p1 p2 true s)
    as (c1 & c2 & Hrun2 & Hdiv2 & _).
  rewrite Hdiv in Hdiv2. inversion Hdiv2 as [Hcs].
  apply app_inv_tail in Hcs. subst c1.
  eexists _, cs. split; [exact Hrun |].
  split; [apply line_base |].
  split; [rewrite Hsat; apply line_chord_neg |].
  eexists _, _, c2. exact Hrun2.
Qed.

(** *** The steps on the curve Y^2 = X^3 + 1

    The points (0, 1), (2, 3) and (-1, 0) are on this curve, with
    (0, 1) + (2, 3) = (-1, 0) and 2 (2, 3) = (0, 1). *)

Definition ofZ (a : Z) : E2 := {| A0 := a mod p; A1 := 0 |}.

Definition pt (x y : Z) : g2AffP := {| X := ofZ x; Y := ofZ y |}.

(** A hint that answers the divisions of the examples: 1 for a division by
    2, 2 for a division by 6, and -2 otherwise. *)
Definition exampleHint (n d : E2) : E2 :=
  if A0 d =? 2 then ofZ 1 else if A0 d =? 6 then ofZ 2 else ofZ (-2).

Lemma ofZ_inverse (a a' : Z) :
  (a * a') mod p = 1 -> ofZ a * ofZ a' == Ext2_One.
Proof.
  intros H. split; unfold ofZ; e2unfold; repeat setoid_rewrite cong_mod;
    constructor.
  - rewrite Z.mul_0_l, Z.sub_0_r, H. reflexivity.
  - f_equal. ring.
Qed.

Lemma pt_on_curve (x y : Z) :
  (y * y) mod p = (x * x * x + 1) mod p -> onCurve (ofZ 1) (pt x y).
Proof.
  intros H. apply onCurve_e2. unfold pt, ofZ. cbn [X Y].
  split; e2unfold; repeat setoid_rewrite cong_mod; constructor.
  - replace (y * y - 0 * 0)%Z with (y * y)%Z by ring.
    replace ((x * x - 0 * 0) * x - (x * 0 + 0 * x) * 0 + 1)%Z
      with (x * x * x + 1)%Z by ring.
    exact H.
  - f_equal. ring.
Qed.

Lemma addStep_on_curve_witness : onCurve (ofZ 1) (pt (-1) 0).
Proof.
  refine (addStep_stays_on_curve exampleHint (ofZ 1) (pt 0 1) (pt 2 3)
            (pt (-1) 0) _ [] [_; _] 97 _ _ _ _ _).
  - vm_compute. reflexivity.
  - vm_compute. reflexivity.
  - apply pt_on_curve. reflexivity.
  - apply pt_on_curve. reflexivity.
  - exists (ofZ ((p + 1) / 2)).
    change (X (pt 2 3) - X (pt 0 1)) with (ofZ 2).
    apply ofZ_inverse. vm_compute. reflexivity.
Defined.

Lemma doubleStep_on_curve_witness :
  onCurve (ofZ 1) (pt 0 1) /\
  onLine (lineThrough (ofZ 2) (pt 2 3)) (pt 2 3) /\
  onLine (lineThrough (ofZ 2) (pt 2 3)) (negP (pt 0 1)) /\
  ofZ 2 * (ofZ 3 + ofZ 3) == ofZ 2 * ofZ 2 + (ofZ 2 * ofZ 2 + ofZ 2 * ofZ 2).
Proof.
  refine (doubleStep_stays_on_curve exampleHint (ofZ 1) (pt 2 3) (pt 0 1)
            (lineThrough (ofZ 2) (pt 2 3)) [] [_; _] 97 _ _ _).
  - vm_compute. reflexivity.
  - vm_compute. reflexivity.
  - apply pt_on_curve. reflexivity.
Defined.

(** 2 (2, 3) + (0, 1) = (0, -1), through (2, 3) + (0, 1) = (-1, 0). *)
Lemma doubleAndAddStep_on_curve_witness :
  onCurve (ofZ 1) (pt 0 (-1)) /\
  onCurve (ofZ 1) (sumPoint (ofZ 1) (pt 2 3) (pt 0 1)).
Proof.
  refine (doubleAndAddStep_stays_on_curve exampleHint (ofZ 1) (pt 2 3) (pt 0 1)
            (pt 0 (-1)) false (lineThrough (ofZ 1) (pt 2 3)) _ []
            [_; _; _; _] 97 _ _ _ _ _ _).
  - vm_compute. reflexivity.
  - vm_compute. reflexivity.
  - apply pt_on_curve. reflexivity.
  - apply pt_on_curve. reflexivity.
  - exists (ofZ ((p - 1) / 2)).
    change (X (pt 0 1) - X (pt 2 3)) with (ofZ (-2)).
    apply ofZ_inverse. vm_compute. reflexivity.
  - exists (ofZ 7296080957279758407415468581752425029565437052432607887563012631548408736194).
    change (X (sumPoint (R0 (lineThrough (ofZ 1) (pt 2 3))) (pt 2 3) (pt 0 1))
            - X (pt 2 3)) with (ofZ (-3)).
    apply ofZ_inverse. vm_compute. reflexivity.
Defined.

Local Close Scope e2_scope.

End StepFacts.

(* ------------------------------------------------------------------------- *)
(** ** Final exponentiation: what the two selects of the safe variant guard *)

Module FinalExpFacts.
Import fields_bn254 sw_bn254 BuilderFacts PairingFacts.

(** [runs q m a ok]: from every builder state [m] returns [a]; the
    constraints it emits itself are satisfied, and those of the
    collaborators it calls are satisfied exactly when [ok]. *)
Definition runs {A} (q : Z) (m : M A) (a : A) (ok : bool) : Prop :=
  exists cs, (forall s, m s = Done (a, cs ++ s)) /\
             own_sat q cs = true /\ collab_sat cs = ok.

Lemma runs_ret {A} q (a : A) : runs q (ret a) a true.
Proof. exists []. repeat split; reflexivity. Qed.

Lemma runs_bind {A B} q (m : M A) (k : A -> M B) a b ok1 ok2 :
  runs q m a ok1 -> runs q (k a) b ok2 -> runs q (bind m k) b (ok1 && ok2).
Proof.
  intros (cs & Hm & Ho & Hc) (cs' & Hk & Ho' & Hc').
  exists (cs' ++ cs). split; [| split].
  - intros s. rewrite (bind_done _ _ _ _ _ (Hm s)), Hk. now rewrite app_assoc.
  - unfold own_sat in *. now rewrite forallb_app, Ho, Ho'.
  - unfold collab_sat in *. rewrite forallb_app, Hc, Hc'. apply andb_comm.
Qed.

Lemma runs_call {A} q (w : W A) : runs q (call w) (fst w) (snd w).
Proof.
  exists [CCollab (snd w)]. repeat split. simpl. apply andb_true_r.
Qed.

Lemma runs_own {A} q (m : M A) a : yields (holds q) m a -> runs q m a true.
Proof.
  intros (cs & Hm & Hcs). exists cs. split; [exact Hm |].
  fold (sat q cs) in Hcs. rewrite sat_own_collab in Hcs.
  now apply andb_true_iff in Hcs.
Qed.

Lemma runs_eq {A} q (m : M A) a ok ok' :
  runs q m a ok -> ok = ok' -> runs q m a ok'.
Proof. now intros H <-. Qed.

(** Whether the constraints of the collaborators in the chain of
    [finalExponentiation] on [ev] are satisfied. *)
Definition chainOk (pr : Pairing) (ev : GTEl) : bool :=
  match torusChain pr ev [] with
  | Done (_, cs) => collab_sat cs
  | Panic _ => false
  end.

Lemma torusChain_runs pr ev :
  runs (q pr) (torusChain pr ev) (chainValues pr ev) (chainOk pr ev).
Proof.
  assert (H : exists v ok, runs (q pr) (torusChain pr ev) v ok).
  { eexists _, _. unfold torusChain.
    repeat (eapply runs_bind; [apply runs_call |]).
    apply runs_ret. }
  destruct H as (v & ok & cs & Hrun & Ho & Hc).
  exists cs. split; [| split; [exact Ho |]].
  - unfold chainValues. now rewrite (Hrun []).
  - unfold chainOk. rewrite (Hrun []), app_nil_r. reflexivity.
Qed.

(** The chain starts with the division of [C0] by [C1]. *)
Lemma chainOk_division pr ev :
  chainOk pr ev = true -> snd (Ext6_DivUnchecked pr (C0 ev) (C1 ev)) = true.
Proof.
  unfold chainOk, torusChain, call, bind, emit, ret, collab_sat.
  cbn [forallb fst snd]. rewrite !andb_true_iff. tauto.
Qed.

(** Whether the constraints of the collaborators that the safe variant
    calls on [ev] are satisfied: those of the chain on the patched element,
    of the sum [t0 + t2], of the product of [t2] with the selected [t0] and
    of its decompression. *)
Definition safeCalls (pr : Pairing) (ev : GTEl) : bool :=
  let '(t0, t2) := chainValues pr (patched ev) in
  let z2 := e6zero (fst (Ext6_Add pr t0 t2)) in
  let t0' := if z2 then Ext6_One else t0 in
  let m := MulTorus pr t2 t0' in
  chainOk pr (patched ev) && snd (Ext6_Add pr t0 t2) && snd m
  && snd (DecompressTorus pr (fst m)).

(** The same for the unsafe variant: the chain on [ev] as it is, the product
    of [t2] with [t0] and its decompression. *)
Definition unsafeCalls (pr : Pairing) (ev : GTEl) : bool :=
  let '(t0, t2) := chainValues pr ev in
  let m := MulTorus pr t2 t0 in
  chainOk pr ev && snd m && snd (DecompressTorus pr (fst m)).

Lemma finalExponentiation_safe_runs pr e h ev :
  1 < q pr -> h !! e = Some ev ->
  runs (q pr) (finalExponentiation pr e false h)
       (fresh (dom (<[e := patched ev]> h)),
        <[fresh (dom (<[e := patched ev]> h)) := safeResult pr ev]>
          (<[e := patched ev]> h))
       (safeCalls pr ev).
Proof.
  intros Hq He.
  pose proof (torusChain_runs pr (patched ev)) as Hch.
  unfold safeCalls, safeResult.
  destruct (chainValues pr (patched ev)) as [t0 t2].
  eapply runs_eq.
  - unfold finalExponentiation.
    eapply runs_bind.
    { eapply runs_bind; [apply runs_own, deref_yields, He |].
      eapply runs_bind; [apply runs_own, Ext6_IsZero_yields |].
      eapply runs_bind; [apply runs_own, fpSelect_yields |].
      apply runs_ret. }
    cbn iota beta.
    eapply runs_bind; [apply runs_own, deref_yields, lookup_insert_eq |].
    fold (patched ev).
    eapply runs_bind; [exact Hch |].
    cbn iota beta.
    eapply runs_bind.
    { eapply runs_bind; [apply runs_call |].
      eapply runs_bind; [apply runs_own, Ext6_IsZero_yields |].
      eapply runs_bind; [apply runs_own, Ext6_Select_yields |].
      rewrite (selector_value _ _ _ Hq).
      eapply runs_bind; [apply runs_call |].
      eapply runs_bind; [apply runs_call |].
      apply runs_own, Ext12_Select_yields. }
    apply runs_ret.
  - cbn [andb]. rewrite !andb_true_r, !andb_assoc. reflexivity.
Qed.

Lemma finalExponentiation_unsafe_runs pr e h ev :
  h !! e = Some ev ->
  runs (q pr) (finalExponentiation pr e true h)
       (fresh (dom h), <[fresh (dom h) := unsafeResult pr ev]> h)
       (unsafeCalls pr ev).
Proof.
  intros He.
  pose proof (torusChain_runs pr ev) as Hch.
  unfold unsafeCalls, unsafeResult.
  destruct (chainValues pr ev) as [t0 t2].
  eapply runs_eq.
  - unfold finalExponentiation.
    eapply runs_bind; [apply runs_ret |].
    cbn iota beta.
    eapply runs_bind; [apply runs_own, deref_yields, He |].
    eapply runs_bind; [exact Hch |].
    cbn iota beta.
    eapply runs_bind.
    { eapply runs_bind; [apply runs_call |]. apply runs_call. }
    apply runs_ret.
  - cbn [andb]. rewrite !andb_true_r, !andb_assoc. reflexivity.
Qed.

(** After the select on the first selector the divisor of the chain is never
    zero: it is [C1] when [C1] is not zero, and has the dummy one in its
    first coordinate otherwise. *)
Lemma patched_divisor_nonzero ev : e6zero (C1 (patched ev)) = false.
Proof.
  unfold patched. destruct (e6zero (C1 ev)) eqn:Hz.
  - destruct ev as [c0 [[a0 a1] b1 b2]]. unfold e6zero, e2zero. reflexivity.
  - destruct ev as [c0 [[a0 a1] b1 b2]]. exact Hz.
Qed.

(** X22.  Both variants of the final exponentiation complete without a
    panic, return a fresh element and satisfy every constraint they emit
    themselves, so each circuit is satisfied exactly when the constraints of
    the tower operations it calls are.  The safe variant divides by [C1]
    with the dummy one selected into it when [C1] is zero, a divisor that is
    never zero, and multiplies [t2] by the dummy one instead of [t0] when
    [t0 + t2] is zero; it returns the decompressed product when neither
    selector is set and 1 otherwise.  The unsafe variant divides by [C1] and
    multiplies [t2] by [t0] as they are.  On an input with [C1] not zero and
    [t0 + t2] not zero the two return the same element from the same calls,
    the safe one with the sum [t0 + t2] in addition. *)
Theorem finalExponentiation_results_and_calls pr (e : loc) (h : heap)
        (s : Builder) (ev : GTEl)
  (Hq : 1 < q pr) (He : h !! e = Some ev) :
  (exists r h' cs,
      FinalExponentiation pr e h s = Done ((r, h'), cs ++ s) /\
      h !! r = None /\
      h' !! r = Some (safeResult pr ev) /\
      own_sat (q pr) cs = true /\
      sat (q pr) cs = safeCalls pr ev) /\
  (exists r h' cs,
      FinalExponentiationUnsafe pr e h s = Done ((r, h'), cs ++ s) /\
      h !! r = None /\
      h' !! r = Some (unsafeResult pr ev) /\
      own_sat (q pr) cs = true /\
      sat (q pr) cs = unsafeCalls pr ev) /\
  e6zero (C1 (patched ev)) = false /\
  (safeCalls pr ev = true ->
   snd (Ext6_DivUnchecked pr (C0 ev) (C1 (patched ev))) = true) /\
  (unsafeCalls pr ev = true ->
   snd (Ext6_DivUnchecked pr (C0 ev) (C1 ev)) = true) /\
  (e6zero (C1 ev) = false ->
   e6zero (fst (Ext6_Add pr (fst (chainValues pr ev))
                         (snd (chainValues pr ev)))) = false ->
   safeResult pr ev = unsafeResult pr ev /\
   safeCalls pr ev
   = unsafeCalls pr ev
     && snd (Ext6_Add pr (fst (chainValues pr ev)) (snd (chainValues pr ev)))) /\
  (e6zero (C1 ev) = true \/
   e6zero (fst (Ext6_Add pr (fst (chainValues pr (patched ev)))
                         (snd (chainValues pr (patched ev))))) = true ->
   safeResult pr ev = Ext12_One).
Proof.
  split; [| split; [| split; [| split; [| split; [| split]]]]].
  - destruct (finalExponentiation_safe_runs pr e h ev Hq He)
      as (cs & Hrun & Ho & Hc).
    eexists _, _, cs. split; [apply Hrun |].
    assert (Hf : (<[e := patched ev]> h) !! fresh (dom (<[e := patched ev]> h))
                 = None) by apply not_elem_of_dom, is_fresh.
    assert (Hr : fresh (dom (<[e := patched ev]> h)) <> e).
    { apply (fresh_not_in _ _ (patched ev)). apply lookup_insert_eq. }
    split; [now rewrite lookup_insert_ne in Hf by auto |].
    split; [apply lookup_insert_eq |].
    split; [exact Ho |]. now rewrite sat_own_collab, Ho, Hc.
  - destruct (finalExponentiation_unsafe_runs pr e h ev He)
      as (cs & Hrun & Ho & Hc).
    eexists _, _, cs. split; [apply Hrun |].
    split; [apply not_elem_of_dom, is_fresh |].
    split; [apply lookup_insert_eq |].
    split; [exact Ho |]. now rewrite sat_own_collab, Ho, Hc.
  - apply patched_divisor_nonzero.
  - intros H. unfold safeCalls in H.
    destruct (chainValues pr (patched ev)) as [t0 t2].
    rewrite !andb_true_iff in H. destruct H as [[[H _] _] _].
    apply chainOk_division in H.
    replace (C0 ev) with (C0 (patched ev)); [exact H |].
    unfold patched. now destruct ev.
  - intros H. unfold unsafeCalls in H.
    destruct (chainValues pr ev) as [t0 t2].
    rewrite !andb_true_iff in H. destruct H as [[H _] _].
    now apply chainOk_division.
  - intros Hz1 Hz2. unfold safeResult, unsafeResult, safeCalls, unsafeCalls.
    rewrite (patched_nondegenerate ev Hz1).
    destruct (chainValues pr ev) as [t0 t2]. cbn [fst snd] in *.
    rewrite Hz1, Hz2. split; [reflexivity |].
    destruct (chainOk pr ev), (snd (Ext6_Add pr t0 t2)), (snd (MulTorus pr t2 t0)),
      (snd (DecompressTorus pr (fst (MulTorus pr t2 t0)))); reflexivity.
  - intros Hz. unfold safeResult.
    destruct (chainValues pr (patched ev)) as [t0 t2]. cbn [fst snd] in Hz.
    destruct Hz as [Hz | Hz]; rewrite Hz; [reflexivity |].
    now rewrite andb_false_r.
Qed.

(** On 1 the safe variant of the sample pairing returns 1 and its circuit is
    satisfied; on [two12] the two variants return the same element. *)
Lemma finalExponentiation_calls_witness :
  (exists r h' cs,
     FinalExponentiation samplePairing 0%nat {[ 0%nat := Ext12_One ]} [] =
       Done ((r, h'), cs ++ []) /\
     h' !! r = Some Ext12_One /\
     sat (q samplePairing) cs = true) /\
  safeResult samplePairing two12 = unsafeResult samplePairing two12.
Proof.
  split.
  - destruct (finalExponentiation_results_and_calls samplePairing 0%nat
                {[ 0%nat := Ext12_One ]} [] Ext12_One eq_refl
                (lookup_singleton_eq 0%nat Ext12_One))
      as ((r & h' & cs & Hrun & _ & Hres & _ & Hsat) & _).
    exists r, h', cs. split; [exact Hrun |].
    split; [rewrite Hres | rewrite Hsat]; vm_compute; reflexivity.
  - destruct (finalExponentiation_results_and_calls samplePairing 0%nat
                {[ 0%nat := two12 ]} [] two12 eq_refl
                (lookup_singleton_eq 0%nat two12))
      as (_ & _ & _ & _ & _ & Hagree & _).
    apply Hagree; vm_compute; reflexivity.
Defined.

End FinalExpFacts.

(* ------------------------------------------------------------------------- *)
(** ** Pairing.MillerLoop on a slice of pointers

    [Q] is a Go [[]*G2Affine]: a list of addresses into the caller's G2
    points, where two entries may hold the same address.  The lines that
    [MillerLoop] computes are written through the pointer, so a point that
    occurs twice has lines when the loop reaches it again. *)

Module sw_bn254_shared.
Import fields_bn254 sw_bn254.

(** The caller's G2 points, by address. *)
Abbreviation g2store := (gmap nat G2Affine) (only parsing).

(** The body of [for i := range Q]; the state is the store and
    [lines[:i]]. *)
Definition cacheLinesAt (pr : Pairing) (st : g2store * list lineEvaluations)
           (a : loc) : M (g2store * list lineEvaluations) :=
  let '(g, lines) := st in
  match g !! a with
  | None => panic "nil pointer dereference"
  | Some Qi =>
      match Lines Qi with
      | None =>
          Qlines <- call (computeLines pr (P Qi)) ;;
          ret (<[a := {| P := P Qi; Lines := Some Qlines |}]> g,
               lines ++ [Qlines])
      | Some ls => ret (g, lines ++ [ls])
      end
  end.

(** Pairing.MillerLoop.  The store is returned with the result. *)
Definition MillerLoop (pr : Pairing) (P : list G1Affine) (Q : list loc)
           (g : g2store) : M (WithError GTEl * g2store) :=
  let n := length P in
  if ((n =? 0)%nat || negb (n =? length Q)%nat)%bool
  then ret (Error "invalid inputs sizes", g) else
  st <- foldM (cacheLinesAt pr) Q (g, []) ;;
  r <- millerLoopLines pr P (snd st) ;;
  ret (r, fst st).

End sw_bn254_shared.

Module SharedLinesFacts.
Import fields_bn254 sw_bn254 BuilderFacts MillerFacts PairingFacts PairingRestFacts.
Import sw_bn254_shared.

(** The point at an address. *)
Definition pointOf (g : g2store) (a : loc) : G2Affine :=
  match g !! a with Some Qi => Qi | None => origin end.

(** The point at [a] has no lines yet. *)
Definition noLines (g : g2store) (a : loc) : bool :=
  match Lines (pointOf g a) with None => true | Some _ => false end.

(** The addresses of a list, each once, in the order of their first
    occurrence. *)
Fixpoint distinct (l : list loc) : list loc :=
  match l with
  | [] => []
  | a :: l' => a :: List.filter (fun b => negb (b =? a)%nat) (distinct l')
  end.

(** The addresses for which a call computes lines. *)
Definition targets (g : g2store) (Q : list loc) : list loc :=
  distinct (List.filter (noLines g) Q).

Lemma filter_absorb {A} (f h : A -> bool) (l : list A) :
  (forall x, f x = true -> h x = true) ->
  List.filter f (List.filter h l) = List.filter f l.
Proof.
  intros Hfh. induction l as [| x l IH]; [reflexivity |].
  cbn [List.filter]. destruct (h x) eqn:Eh; cbn [List.filter].
  - now rewrite IH.
  - destruct (f x) eqn:Ef; [| exact IH].
    apply Hfh in Ef. congruence.
Qed.

Lemma filter_swap {A} (f h : A -> bool) (l : list A) :
  List.filter f (List.filter h l) = List.filter h (List.filter f l).
Proof.
  induction l as [| x l IH]; [reflexivity |].
  cbn [List.filter]. destruct (f x) eqn:Ef, (h x) eqn:Eh; cbn [List.filter];
    rewrite ?Ef, ?Eh, IH; reflexivity.
Qed.

Lemma filter_andb {A} (f h : A -> bool) (l : list A) :
  List.filter (fun x => f x && h x) l = List.filter f (List.filter h l).
Proof.
  induction l as [| x l IH]; [reflexivity |].
  cbn [List.filter]. destruct (f x) eqn:Ef, (h x) eqn:Eh; cbn [List.filter andb];
    rewrite ?Ef, IH; reflexivity.
Qed.

Lemma distinct_filter (f : loc -> bool) (l : list loc) :
  distinct (List.filter f l) = List.filter f (distinct l).
Proof.
  induction l as [| a l IH]; [reflexivity |].
  cbn [List.filter distinct]. destruct (f a) eqn:Ef; cbn [distinct].
  - rewrite IH, filter_swap. reflexivity.
  - rewrite IH. symmetry. apply filter_absorb.
    intros x Hx. destruct (Nat.eqb_spec x a) as [-> | _]; [congruence | reflexivity].
Qed.

Lemma pointOf_insert_eq (g : g2store) a Qi : pointOf (<[a := Qi]> g) a = Qi.
Proof. unfold pointOf. now rewrite lookup_insert_eq. Qed.

Lemma pointOf_insert_ne (g : g2store) a b Qi :
  a <> b -> pointOf (<[a := Qi]> g) b = pointOf g b.
Proof. intros H. unfold pointOf. now rewrite lookup_insert_ne. Qed.

Lemma linesOf_cached pr Qi : linesOf pr (cached pr Qi) = linesOf pr Qi.
Proof. unfold linesOf, cached. now destruct (Lines Qi) eqn:E; simpl; rewrite ?E. Qed.

Lemma P_cached pr Qi : P (cached pr Qi) = P Qi.
Proof. unfold cached. now destruct (Lines Qi). Qed.

Lemma Lines_cached pr Qi : Lines (cached pr Qi) <> None.
Proof. unfold cached. destruct (Lines Qi) eqn:E; simpl; congruence. Qed.

(** The loop over [Q], from any store in which every pointer of [Q] is
    bound. *)
Lemma cacheLines_shared pr (Q : list loc) :
  forall (g : g2store) lines s,
    Forall (fun a => g !! a <> None) Q ->
    exists g' cl,
      foldM (cacheLinesAt pr) Q (g, lines) s
      = Done ((g', lines ++ map (fun a => linesOf pr (pointOf g a)) Q), cl ++ s) /\
      cl = rev (map (fun a => CCollab (snd (computeLines pr (P (pointOf g a)))))
                    (targets g Q)) /\
      (forall a, In a Q -> g' !! a = Some (cached pr (pointOf g a))) /\
      (forall a, ~ In a Q -> g' !! a = g !! a).
Proof.
  induction Q as [| a Q IH]; intros g lines s Hb.
  - exists g, []. cbn [foldM map]. rewrite app_nil_r.
    repeat split; auto. intros a [].
  - inversion Hb as [| ? ? Ha Hb']; subst.
    destruct (g !! a) as [Qi |] eqn:Eg; [clear Ha | congruence].
    assert (Hpa : pointOf g a = Qi) by (unfold pointOf; now rewrite Eg).
    destruct (Lines Qi) as [ls |] eqn:El.
    + (* the point has lines: nothing is computed *)
      destruct (IH g (lines ++ [ls]) s Hb') as (g' & cl & Hrun & Hcl & Hin & Hout).
      exists g', cl. split; [| split; [| split]].
      * cbn [foldM map]. unfold bind at 1, cacheLinesAt at 1.
        rewrite Eg, El. unfold ret at 1. rewrite Hrun, <- app_assoc.
        unfold linesOf at 2. now rewrite Hpa, El.
      * unfold targets. cbn [List.filter]. unfold noLines at 1.
        now rewrite Hpa, El.
      * intros b Hinb.
        destruct (in_dec Nat.eq_dec b Q) as [Hq | Hq]; [now apply Hin |].
        destruct Hinb as [<- | Hq']; [| contradiction].
        rewrite (Hout a Hq), Eg, Hpa. unfold cached. now rewrite El.
      * intros b Hnb. apply Hout. intros Hq. apply Hnb. now right.
    + (* no lines yet: they are computed and written through the pointer *)
      set (g1 := <[a := cached pr Qi]> g).
      assert (Hc : cached pr Qi
                   = {| P := P Qi; Lines := Some (fst (computeLines pr (P Qi))) |})
        by (unfold cached; now rewrite El).
      assert (Hb1 : Forall (fun b => g1 !! b <> None) Q).
      { apply List.Forall_forall. intros b Hinb.
        rewrite List.Forall_forall in Hb'. specialize (Hb' b Hinb).
        unfold g1. destruct (Nat.eq_dec a b) as [<- | Hne].
        - now rewrite lookup_insert_eq.
        - now rewrite lookup_insert_ne. }
      destruct (IH g1 (lines ++ [fst (computeLines pr (P Qi))])
                   (CCollab (snd (computeLines pr (P Qi))) :: s) Hb1)
        as (g' & cl & Hrun & Hcl & Hin & Hout).
      assert (Hpt : forall b, P (pointOf g1 b) = P (pointOf g b)).
      { intros b. unfold g1. destruct (Nat.eq_dec a b) as [<- | Hne].
        - now rewrite pointOf_insert_eq, P_cached, Hpa.
        - now rewrite pointOf_insert_ne. }
      assert (Hlo : forall b, linesOf pr (pointOf g1 b) = linesOf pr (pointOf g b)).
      { intros b. unfold g1. destruct (Nat.eq_dec a b) as [<- | Hne].
        - now rewrite pointOf_insert_eq, linesOf_cached, Hpa.
        - now rewrite pointOf_insert_ne. }
      assert (Hca : forall b, cached pr (pointOf g1 b) = cached pr (pointOf g b)).
      { intros b. unfold g1. destruct (Nat.eq_dec a b) as [<- | Hne].
        - now rewrite pointOf_insert_eq, cached_idem, Hpa.
        - now rewrite pointOf_insert_ne. }
      assert (Hnl : forall b, noLines g1 b = negb (b =? a)%nat && noLines g b).
      { intros b. unfold noLines, g1. destruct (Nat.eqb_spec b a) as [-> | Hne].
        - rewrite pointOf_insert_eq. cbn [negb andb].
          pose proof (Lines_cached pr Qi). now destruct (Lines (cached pr Qi)).
        - rewrite pointOf_insert_ne by congruence. reflexivity. }
      exists g', (cl ++ [CCollab (snd (computeLines pr (P Qi)))]).
      split; [| split; [| split]].
      * cbn [foldM map]. unfold bind at 1, cacheLinesAt at 1.
        rewrite Eg, El. unfold bind at 1, call at 1, bind at 1, emit at 1.
        unfold ret at 1. unfold ret at 1. cbn [fst snd].
        rewrite <- Hc. fold g1. rewrite Hrun, <- !app_assoc. cbn [app].
        do 3 f_equal. unfold linesOf at 2. rewrite Hpa, El.
        do 2 f_equal. apply map_ext. intros b. apply Hlo.
      * unfold targets. cbn [List.filter]. unfold noLines at 1.
        rewrite Hpa, El. cbn [distinct map rev]. rewrite Hpa. f_equal.
        rewrite Hcl. f_equal. unfold targets.
        rewrite (filter_ext _ _ Hnl), filter_andb, distinct_filter.
        apply map_ext. intros b. now rewrite Hpt.
      * intros b Hinb.
        destruct (in_dec Nat.eq_dec b Q) as [Hq | Hq].
        -- now rewrite (Hin b Hq), Hca.
        -- destruct Hinb as [<- | Hq']; [| contradiction].
           rewrite (Hout a Hq), Hpa. unfold g1. apply lookup_insert_eq.
      * intros b Hnb.
        rewrite Hout by (intros Hq; apply Hnb; now right).
        unfold g1. apply lookup_insert_ne. intros ->. apply Hnb. now left.
Qed.

Lemma In_distinct (l : list loc) (a : loc) : In a (distinct l) <-> In a l.
Proof.
  induction l as [| b l IH]; [reflexivity |].
  cbn [distinct]. split.
  - intros [-> | H]; [now left |].
    apply filter_In in H. right. now apply IH.
  - intros [-> | H]; [now left |].
    destruct (Nat.eq_dec b a) as [E | E]; [now left |].
    right. apply filter_In. split; [now apply IH |].
    destruct (Nat.eqb_spec a b); [congruence | reflexivity].
Qed.

Lemma distinct_is_NoDup (l : list loc) : List.NoDup (distinct l).
Proof.
  induction l as [| a l IH]; cbn [distinct]; constructor.
  - intros H. apply filter_In in H. destruct H as [_ H].
    now rewrite Nat.eqb_refl in H.
  - clear -IH. induction IH as [| b l' Hb _ IH']; cbn [List.filter]; [constructor |].
    destruct (negb (b =? a)%nat); [| exact IH'].
    constructor; [| exact IH']. intros H. apply filter_In in H. now apply Hb.
Qed.

Lemma In_targets (g : g2store) (Q : list loc) (a : loc) :
  In a (targets g Q) <-> In a Q /\ Lines (pointOf g a) = None.
Proof.
  unfold targets. rewrite In_distinct, filter_In. unfold noLines.
  destruct (Lines (pointOf g a)); split; intros [H1 H2]; split;
    auto; discriminate.
Qed.

Lemma filter_none {A} (f : A -> bool) (l : list A) :
  (forall x, In x l -> f x = false) -> List.filter f l = [].
Proof.
  induction l as [| x l IH]; intros H; [reflexivity |].
  cbn [List.filter]. rewrite (H x) by now left.
  apply IH. intros y Hy. apply H. now right.
Qed.

Lemma distinct_NoDup (l : list loc) : List.NoDup l -> distinct l = l.
Proof.
  induction 1 as [| a l Ha _ IH]; [reflexivity |].
  cbn [distinct]. rewrite IH. f_equal.
  clear IH. induction l as [| b l IHl]; [reflexivity |].
  cbn [List.filter]. destruct (Nat.eqb_spec b a) as [-> | _].
  - exfalso. apply Ha. now left.
  - cbn [negb]. f_equal. apply IHl. intros H. apply Ha. now right.
Qed.

Lemma NoDup_filter' {A} (f : A -> bool) (l : list A) :
  List.NoDup l -> List.NoDup (List.filter f l).
Proof.
  induction 1 as [| a l Ha _ IH]; cbn [List.filter]; [constructor |].
  destruct (f a); [| exact IH].
  constructor; [| exact IH]. intros H. apply filter_In in H. now apply Ha.
Qed.

Lemma MillerLoop_shared_run pr (P : list G1Affine) (Q : list loc) (g : g2store)
      (s : Builder) :
  length P <> 0%nat -> length P = length Q ->
  Forall (fun a => g !! a <> None) Q ->
  exists res g' cl cs,
    MillerLoop pr P Q g s = Done ((OkNil res, g'), cs ++ cl ++ s) /\
    cl = rev (map (fun a => CCollab (snd (computeLines pr (sw_bn254.P (pointOf g a)))))
                  (targets g Q)) /\
    millerLoopLines pr P (map (fun a => linesOf pr (pointOf g a)) Q) (cl ++ s)
    = Done (OkNil res, cs ++ cl ++ s) /\
    (forall a, In a Q -> g' !! a = Some (cached pr (pointOf g a))) /\
    (forall a, ~ In a Q -> g' !! a = g !! a).
Proof.
  intros Hn Hl Hb. unfold MillerLoop.
  destruct (Nat.eqb_spec (length P) 0) as [E | _]; [contradiction |].
  destruct (Nat.eqb_spec (length P) (length Q)) as [_ | E]; [| contradiction].
  cbn [orb negb].
  destruct (cacheLines_shared pr Q g [] s Hb) as (g' & cl & Hrun & Hcl & Hin & Hout).
  cbn [app] in Hrun.
  rewrite (bind_done _ _ _ _ _ Hrun). cbn [fst snd].
  destruct (returns_millerLoopLines pr P
              (map (fun a => linesOf pr (pointOf g a)) Q) Hn
              ltac:(now rewrite length_map) (cl ++ s)) as (r & cs & Hml & Hok).
  destruct r as [res | msg]; [| contradiction].
  exists res, g', cl, cs.
  rewrite (bind_done _ _ _ _ _ Hml). repeat split; auto.
Qed.

(** X12.  [MillerLoop] on a slice of pointers whose sizes are valid and
    whose pointers are all bound completes with a nil error.  It calls
    [computeLines] once for every address of [Q] whose point has no lines,
    in the order of their first occurrence and before anything else: an
    address that occurs twice gets its lines computed once, since they are
    written through the pointer.  [millerLoopLines] then runs on the lines of
    the points, entry by entry.  In the store it leaves, every point of [Q]
    has its lines and an address that is not in [Q] is as it was; a second
    call on this store computes no line and changes nothing.  When no
    address occurs twice, this is the Miller loop on the list of the points
    themselves. *)
Theorem MillerLoop_computes_lines_once_per_address pr (P : list G1Affine)
        (Q : list loc) (g : g2store) (s : Builder)
  (Hn : length P <> 0%nat) (Hl : length P = length Q)
  (Hb : Forall (fun a => g !! a <> None) Q) :
  exists res g' cl cs,
    MillerLoop pr P Q g s = Done ((OkNil res, g'), cs ++ cl ++ s) /\
    cl = rev (map (fun a => CCollab (snd (computeLines pr (sw_bn254.P (pointOf g a)))))
                  (targets g Q)) /\
    List.NoDup (targets g Q) /\
    (forall a, In a (targets g Q) <-> In a Q /\ Lines (pointOf g a) = None) /\
    millerLoopLines pr P (map (fun a => linesOf pr (pointOf g a)) Q) (cl ++ s)
    = Done (OkNil res, cs ++ cl ++ s) /\
    (forall a, In a Q -> g' !! a = Some (cached pr (pointOf g a))) /\
    (forall a, ~ In a Q -> g' !! a = g !! a) /\
    (forall s', exists res' cs',
        MillerLoop pr P Q g' s' = Done ((OkNil res', g'), cs' ++ s') /\
        millerLoopLines pr P (map (fun a => linesOf pr (pointOf g a)) Q) s'
        = Done (OkNil res', cs' ++ s')) /\
    (List.NoDup Q ->
     sw_bn254.MillerLoop pr P (map (pointOf g) Q) s
     = Done ((OkNil res, map (pointOf g') Q), cs ++ cl ++ s)).
Proof.
  destruct (MillerLoop_shared_run pr P Q g s Hn Hl Hb)
    as (res & g' & cl & cs & Hrun & Hcl & Hml & Hin & Hout).
  exists res, g', cl, cs.
  split; [exact Hrun |]. split; [exact Hcl |].
  split; [apply distinct_is_NoDup |].
  split; [intros a; apply In_targets |].
  split; [exact Hml |]. split; [exact Hin |]. split; [exact Hout |].
  split.
  - intros s'.
    assert (Hb' : Forall (fun a => g' !! a <> None) Q).
    { apply List.Forall_forall. intros a Ha. now rewrite (Hin a Ha). }
    destruct (MillerLoop_shared_run pr P Q g' s' Hn Hl Hb')
      as (res' & g'' & cl' & cs' & Hrun' & Hcl' & Hml' & Hin' & Hout').
    assert (Hpo : forall a, In a Q -> pointOf g' a = cached pr (pointOf g a)).
    { intros a Ha. unfold pointOf at 1. now rewrite (Hin a Ha). }
    assert (Et : targets g' Q = []).
    { unfold targets. rewrite filter_none; [reflexivity |].
      intros a Ha. unfold noLines. rewrite (Hpo a Ha).
      pose proof (Lines_cached pr (pointOf g a)).
      now destruct (Lines (cached pr (pointOf g a))). }
    rewrite Et in Hcl'. cbn [map rev] in Hcl'. subst cl'. cbn [app] in *.
    assert (Eg : g'' = g').
    { apply map_eq. intros a.
      destruct (in_dec Nat.eq_dec a Q) as [Ha | Ha].
      - now rewrite (Hin' a Ha), (Hpo a Ha), cached_idem, (Hin a Ha).
      - now apply Hout'. }
    rewrite Eg in Hrun'.
    exists res', cs'. split; [exact Hrun' |].
    rewrite <- Hml'. f_equal. apply map_ext_in. intros a Ha.
    now rewrite (Hpo a Ha), linesOf_cached.
  - intros Hnd.
    destruct (MillerLoop_run pr P (map (pointOf g) Q) s Hn
                ltac:(now rewrite length_map))
      as (res0 & cl0 & cs0 & Hrun0 & Hml0 & Hcl0).
    rewrite map_map in Hml0.
    assert (Ecl : cl0 = cl).
    { rewrite Hcl0, Hcl. f_equal. unfold targets.
      rewrite (distinct_NoDup _ (NoDup_filter' _ _ Hnd)).
      clear. unfold uncached. induction Q as [| a Q IH]; [reflexivity |].
      cbn [map List.filter]. unfold noLines at 1.
      destruct (Lines (pointOf g a)); cbn [map]; now rewrite IH. }
    rewrite Ecl in Hml0, Hrun0. rewrite Hml in Hml0.
    injection Hml0 as Eres Ecs. apply app_inv_tail in Ecs.
    rewrite Hrun0, <- Eres, <- Ecs, map_map. do 3 f_equal.
    apply map_ext_in. intros a Ha. unfold pointOf at 2. now rewrite (Hin a Ha).
Qed.

(** Two pairs on the same G2 point: one call of [computeLines]. *)
Lemma MillerLoop_shared_witness :
  exists res g' cl cs,
    MillerLoop samplePairing
      [{| G1X := 1; G1Y := 2 |}; {| G1X := 3; G1Y := 4 |}] [7%nat; 7%nat]
      {[ 7%nat := origin ]} []
    = Done ((OkNil res, g'), cs ++ cl ++ []) /\
    cl = [CCollab true] /\
    g' !! 7%nat = Some (cached samplePairing origin).
Proof.
  destruct (MillerLoop_computes_lines_once_per_address samplePairing
              [{| G1X := 1; G1Y := 2 |}; {| G1X := 3; G1Y := 4 |}]
              [7%nat; 7%nat] {[ 7%nat := origin ]} []
              ltac:(simpl; lia) eq_refl
              ltac:(repeat constructor; rewrite lookup_singleton_eq; discriminate))
    as (res & g' & cl & cs & Hrun & Hcl & _ & _ & _ & Hin & _).
  exists res, g', cl, cs. split; [exact Hrun |].
  split; [rewrite Hcl; reflexivity |].
  rewrite (Hin 7%nat ltac:(now left)). reflexivity.
Defined.

End SharedLinesFacts.
